(** * gROM graph generation: a shallow embedding of [graph1d/generate_graphs.py]

    The development follows the stages of the script: numerical conventions,
    the numpy helpers the script relies on, the resampler, the shortest-path
    engine, boundary and junction edge synthesis, the partitioner, the field
    assembler and the driver's retry loop.

    Conventions.
    - Point indices held in numpy integer arrays are [Z]; Python's wrap-around
      for negative indices and its [IndexError] are written out in
      [py_index].  Loop counters produced by [range] are [nat].
    - The parallel arrays [edges1]/[edges2] (equal length by the data model)
      are one list of pairs: [fst] is the [edges1] entry, [snd] the [edges2]
      entry of the same position.
    - float64 values are exact rationals, [np.inf] is a separate constructor;
      rounding and overflow are not modelled, with one exception: the
      product [npoints * perc_points_to_keep], whose integer part is the
      number of points to keep, is rounded to the nearest float64 as the code
      computes it ([float64_round]).  The square root behind
      [np.linalg.norm] is a parameter [sqrtQ] of the model, so every result
      holds for any rational-valued root; [isqrtQ] is the instance used to
      run the model.  [generate_edge_features], whose result is the exact
      value of a root, is modelled over the real numbers instead.
    - Exceptions are values of [result].  The two loops of the partitioner
      that need not end on a graph with a cycle take fuel, and the random
      draws of the partitioner come from a function of the draw number. *)

From Stdlib Require Import ZArith QArith Qround Qabs Qminmax Reals Lra Lia Sorted.
From stdpp Require Import base tactics option list relations gmap.

Local Open Scope Z_scope.
Set Warnings "-clear-no-such-hyp".

(** ** Exceptions *)

Inductive error : Type :=
  | IndexError
  | ValueError
  | KeyError
  | NoFuel.  (* not an exception: a loop of the model used up its fuel *)

Inductive result (A : Type) : Type :=
  | Ok (a : A)
  | Err (e : error).
Arguments Ok {A} a.
Arguments Err {A} e.

#[global] Instance result_ret : MRet result := fun A a => Ok a.
#[global] Instance result_bind : MBind result := fun A B f m =>
  match m with
  | Ok a => f a
  | Err e => Err e
  end.

Definition is_Err {A} (r : result A) : Prop :=
  match r with Ok _ => False | Err _ => True end.

Definition of_option {A} (e : error) (o : option A) : result A :=
  match o with Some a => Ok a | None => Err e end.

(** [mapM] for [result], left to right, stopping at the first exception. *)
Fixpoint result_mapM {A B} (f : A → result B) (l : list A) : result (list B) :=
  match l with
  | [] => Ok []
  | x :: l' => y ← f x; ys ← result_mapM f l'; Ok (y :: ys)
  end.

(** ** Numbers *)

(** A float64 value: a finite number or [np.inf]. *)
Inductive dist : Type :=
  | Fin (q : Q)
  | Inf.

#[global] Instance Q_eq_dec : EqDecision Q.
Proof. solve_decision. Defined.
#[global] Instance dist_eq_dec : EqDecision dist.
Proof. solve_decision. Defined.

Definition Qltb (a b : Q) : bool := negb (Qle_bool b a).

(** [a < b] on floats. *)
Definition dist_ltb (a b : dist) : bool :=
  match a, b with
  | Fin x, Fin y => Qltb x y
  | Fin _, Inf => true
  | Inf, _ => false
  end.

(** [a + b] for a float [a] and a finite length [b]. *)
Definition dist_add (a : dist) (b : Q) : dist :=
  match a with
  | Fin x => Fin (x + b)
  | Inf => Inf
  end.

Definition is_inf (a : dist) : bool :=
  match a with Inf => true | Fin _ => false end.

(** [a == b] on floats, as numpy compares them. *)
Definition dist_eqb (a b : dist) : bool :=
  match a, b with
  | Fin x, Fin y => Qeq_bool x y
  | Inf, Inf => true
  | _, _ => false
  end.

(** The literals [1e-12] and [1e-13]. *)
Definition tol12 : Q := 1 # 1000000000000.
Definition tol13 : Q := 1 # 10000000000000.

(** [int(x)]: truncation towards zero. *)
Definition py_int (x : Q) : Z := Z.quot (Qnum x) (Zpos (Qden x)).

(** [2^e] for an integer [e]. *)
Definition pow2 (e : Z) : Q :=
  if bool_decide (0 ≤ e) then inject_Z (2 ^ e) else (/ inject_Z (2 ^ (- e)))%Q.

(** The integer nearest to [y]; of two that are equally near, the even one. *)
Definition round_half_even (y : Q) : Z :=
  let f := Qfloor y in
  match (y - inject_Z f ?= 1 # 2)%Q with
  | Lt => f
  | Gt => f + 1
  | Eq => if Z.even f then f else f + 1
  end.

(** [floor(log2(x))] for a positive [x]: the difference of the bit lengths
    of numerator and denominator, or one less. *)
Definition log2_floor (x : Q) : Z :=
  let k := Z.log2 (Qnum x) - Z.log2 (Zpos (Qden x)) in
  if Qle_bool (pow2 k) x then k else k - 1.

(** The float64 nearest to [x], ties to the even significand: 53
    significant bits, and the spacing [2^-1074] of the subnormal numbers
    below [2^-1022].  The exponent is not bounded above: a value beyond the
    largest float64 is rounded like any other instead of becoming [inf]. *)
Definition float64_round (x : Q) : Q :=
  if Qeq_bool x 0 then 0%Q
  else
    let e := Z.max (log2_floor (Qabs x) - 52) (-1074) in
    (inject_Z (round_half_even (x * pow2 (- e))) * pow2 e)%Q.

(** ** Points *)

Definition vec : Type := Q * Q * Q.

Definition vsub (a b : vec) : vec :=
  let '(ax, ay, az) := a in
  let '(bx, by_, bz) := b in
  ((ax - bx)%Q, (ay - by_)%Q, (az - bz)%Q).

Definition vopp (a : vec) : vec :=
  let '(ax, ay, az) := a in ((- ax)%Q, (- ay)%Q, (- az)%Q).

Definition vscale_inv (a : vec) (c : Q) : vec :=
  let '(ax, ay, az) := a in ((ax / c)%Q, (ay / c)%Q, (az / c)%Q).

Definition sumsq (a : vec) : Q :=
  let '(ax, ay, az) := a in (ax * ax + ay * ay + az * az)%Q.

(** A rational root, exact on the squares of rationals. *)
Definition isqrtQ (q : Q) : Q :=
  Z.sqrt (Qnum q * Zpos (Qden q)) # Qden q.

(** ** numpy helpers *)

(** Indexing an array of length [n] with a Python integer. *)
Definition py_index (n : nat) (i : Z) : result nat :=
  if bool_decide (0 ≤ i < Z.of_nat n) then Ok (Z.to_nat i)
  else if bool_decide (- Z.of_nat n ≤ i < 0) then Ok (Z.to_nat (i + Z.of_nat n))
  else Err IndexError.

Definition py_get {A} (l : list A) (i : Z) : result A :=
  k ← py_index (length l) i; of_option IndexError (l !! k).

(** [np.where(mask)[0]]: the positions at which [p] holds. *)
Fixpoint np_where_from {A} (p : A → bool) (k : nat) (l : list A) : list nat :=
  match l with
  | [] => []
  | x :: l' => if p x then k :: np_where_from p (S k) l' else np_where_from p (S k) l'
  end.
Definition np_where {A} (p : A → bool) (l : list A) : list nat := np_where_from p 0 l.

(** [np.delete(arr, obj)] once [obj] is a list of in-range positions. *)
Fixpoint delete_at_from {A} (ks : list nat) (k : nat) (l : list A) : list A :=
  match l with
  | [] => []
  | x :: l' =>
      if bool_decide (k ∈ ks) then delete_at_from ks (S k) l'
      else x :: delete_at_from ks (S k) l'
  end.
Definition delete_at {A} (ks : list nat) (l : list A) : list A := delete_at_from ks 0 l.

(** [np.delete(arr, obj)] for a list [obj] of Python integers: negative
    entries wrap around, an entry out of bounds raises [IndexError]. *)
Definition np_delete {A} (l : list A) (obj : list Z) : result (list A) :=
  ks ← result_mapM (py_index (length l)) obj; Ok (delete_at ks l).

(** [edges2[np.where(edges1 == j)[0]]]: the heads of the edges leaving [j]. *)
Definition out_neighbors (edges : list (Z * Z)) (j : Z) : list Z :=
  snd <$> filter (λ e, e.1 = j) edges.

(** [np.min] of a non-empty array of floats. *)
Definition dist_min (a b : dist) : dist := if dist_ltb b a then b else a.
Definition np_min (l : list dist) : result dist :=
  match l with
  | [] => Err ValueError
  | x :: l' => Ok (foldl dist_min x l')
  end.

(** ** The model, parametric in the square root *)

Section Model.

Variable sqrtQ : Q → Q.

(** [np.linalg.norm] of a 3-vector. *)
Definition norm (v : vec) : Q := sqrtQ (sumsq v).

(** *** Shortest-path engine: [dijkstra_algorithm] *)

Record dstate : Type := {
  tovisit : list nat;
  dists : list dist;
  prevs : list Z
}.

(** [dists[v]] and [nodes[v,:]] for a node id [v]; all ids met by the
    algorithm are below the number of nodes, see [dijkstra_inv]. *)
Definition dget (ds : list dist) (v : nat) : dist := default Inf (ds !! v).
Definition pget (nodes : list vec) (v : nat) : vec := default (0, 0, 0)%Q (nodes !! v).

(** The scan for the unvisited node of least distance; [None] stands for
    the initial [minindex = -1], which nothing overwrote. *)
Fixpoint scan_min (ds : list dist) (iinde : nat) (tv : list nat)
    (minindex : option nat) (minlen : dist) : option nat :=
  match tv with
  | [] => minindex
  | v :: tv' =>
      if dist_ltb (dget ds v) minlen
      then scan_min ds (S iinde) tv' (Some iinde) (dget ds v)
      else scan_min ds (S iinde) tv' minindex minlen
  end.

(** The position [minindex] denotes in [tovisit]: [-1] is the last one. *)
Definition min_position (ds : list dist) (tv : list nat) : nat :=
  match scan_min ds 0 tv None Inf with
  | Some k => k
  | None => length tv - 1
  end.

(** [b_edges[np.where(b_edges[:,0] == curindex)[0],1]] *)
Definition neighbors (edges : list (Z * Z)) (cur : nat) : list Z :=
  out_neighbors edges (Z.of_nat cur).

(** One pass of the inner [for neib in inb] loop. *)
Definition relax (nodes : list vec) (cur : nat) (tv : list nat)
    (st : list dist * list Z) (neib : Z) : list dist * list Z :=
  if bool_decide (0 ≤ neib ∧ Z.to_nat neib ∈ tv) then
    let w := Z.to_nat neib in
    let alt := dist_add (dget st.1 cur) (norm (vsub (pget nodes cur) (pget nodes w))) in
    if dist_ltb alt (dget st.1 w)
    then (<[w := alt]> st.1, <[w := Z.of_nat cur]> st.2)
    else st
  else st.

(** One iteration of [while len(tovisit) != 0]. *)
Definition dijkstra_step (nodes : list vec) (edges : list (Z * Z)) (st : dstate) : dstate :=
  let minindex := min_position (dists st) (tovisit st) in
  let curindex := default 0%nat (tovisit st !! minindex) in
  let tv := delete minindex (tovisit st) in
  let '(ds, ps) := foldl (relax nodes curindex tv) (dists st, prevs st)
                         (neighbors edges curindex) in
  {| tovisit := tv; dists := ds; prevs := ps |}.

(** The loop; every iteration removes one node from [tovisit], so it is
    run with [fuel] the length of [tovisit] (see [dijkstra_loop_empties]). *)
Fixpoint dijkstra_loop (fuel : nat) (nodes : list vec) (edges : list (Z * Z))
    (st : dstate) : dstate :=
  match fuel with
  | O => st
  | S fuel' =>
      match tovisit st with
      | [] => st
      | _ :: _ => dijkstra_loop fuel' nodes edges (dijkstra_step nodes edges st)
      end
  end.

Definition dijkstra_init (n s : nat) : dstate :=
  {| tovisit := seq 0 n;
     dists := <[s := Fin 0]> (replicate n Inf);
     prevs := replicate n (-1) |}.

(** The state when the queue has emptied. *)
Definition dijkstra_run (nodes : list vec) (edges : list (Z * Z)) (s : nat) : dstate :=
  dijkstra_loop (length nodes) nodes edges (dijkstra_init (length nodes) s).

Definition dijkstra_algorithm (nodes : list vec) (edges : list (Z * Z)) (index : Z)
    : result (list dist * list Z) :=
  s ← py_index (length nodes) index;
  let st := dijkstra_run nodes edges s in
  if existsb is_inf (dists st) then Err ValueError
  else Ok (dists st, prevs st).

(** *** Resampler: [resample_points] and [remove_points] *)

(** The [indices] dictionary: keys ['inlet'] and ['outlets']. *)
Record indices : Type := {
  inlet : list Z;
  outlets : list Z
}.

Definition subst_point (d r e : Z) : Z := if bool_decide (e = d) then r else e.

(** [modify_edges]: every endpoint equal to [d] becomes [r]. *)
Definition modify_edges (edges : list (Z * Z)) (d r : Z) : list (Z * Z) :=
  (λ e, (subst_point d r e.1, subst_point d r e.2)) <$> edges.

(** The edge arrays with [ipoints_to_delete] and [ipoints_to_replace]. *)
Record rstate : Type := {
  r_edges : list (Z * Z);
  r_delete : list Z;
  r_replace : list Z
}.

(** Record the pair, then rewrite the edges. *)
Definition collapse (st : rstate) (d r : Z) : rstate :=
  {| r_edges := modify_edges (r_edges st) d r;
     r_delete := r_delete st ++ [d];
     r_replace := r_replace st ++ [r] |}.

(** The body of [for ip in range(remove_caps)]: the inlets, then the
    outlets. *)
Definition cap_pass (remove_caps : nat) (ind : indices) (st : rstate) (ip : Z) : rstate :=
  let st1 := foldl (λ st i, collapse st (i + ip) (i + Z.of_nat remove_caps))
                   st (inlet ind) in
  foldl (λ st o, collapse st (o - ip) (o - Z.of_nat remove_caps))
        st1 (outlets ind).

Definition cap_removal (remove_caps : nat) (ind : indices) (st : rstate) : rstate :=
  foldl (cap_pass remove_caps ind) st (Z.of_nat <$> seq 0 remove_caps).

(** [np.linalg.norm(points[edges1,:] - points[edges2,:], axis = 1)], one
    edge at a time. *)
Definition edge_length (points : list vec) (e : Z * Z) : result Q :=
  a ← py_get points e.1; b ← py_get points e.2; Ok (norm (vsub a b)).

Definition edge_lengths (points : list vec) (edges : list (Z * Z)) : result (list Q) :=
  result_mapM (edge_length points) edges.

(** [diff[np.where(diff < 1e-13)[0]] = np.inf] *)
Definition mask_collapsed (q : Q) : dist := if Qltb q tol13 then Inf else Fin q.

(** [np.abs(d - mdiff) < 1e-12]; a difference with an infinite operand is
    infinite or not a number, and the comparison is then false. *)
Definition close_to (mdiff d : dist) : bool :=
  match d, mdiff with
  | Fin x, Fin m => Qltb (Qabs (x - m)) tol12
  | _, _ => false
  end.

(** The edge picked by one decimation step. *)
Definition pick_edge (points : list vec) (edges : list (Z * Z)) : result nat :=
  lens ← edge_lengths points edges;
  let diff := mask_collapsed <$> lens in
  mdiff ← np_min diff;
  of_option IndexError (head (np_where (close_to mdiff) diff)).

(** One iteration of the decimation loop. *)
Definition decimate_step (points : list vec) (new_outlets : list Z) (st : rstate)
    : result rstate :=
  mind ← pick_edge points (r_edges st);
  e ← of_option IndexError (r_edges st !! mind);
  if bool_decide (e.2 ∉ new_outlets)
  then Ok (collapse st e.2 e.1)
  else Ok (collapse st e.1 e.2).

Fixpoint decimate (k : nat) (points : list vec) (new_outlets : list Z) (st : rstate)
    : result rstate :=
  match k with
  | O => Ok st
  | S k' => st' ← decimate_step points new_outlets st;
            decimate k' points new_outlets st'
  end.

(** [np.where(sampled_indices == e)[0][0]] *)
Definition position_of (sampled : list Z) (e : Z) : result nat :=
  of_option IndexError (head (np_where (λ x, bool_decide (x = e)) sampled)).

Definition remove_points (idxs_to_delete idxs_to_replace : list Z)
    (edges : list (Z * Z)) (npoints : nat)
    : result (list Z * list (Z * Z)) :=
  let edges := foldl (λ es dr, modify_edges es dr.1 dr.2) edges
                     (zip idxs_to_delete idxs_to_replace) in
  let edges := filter (λ e, e.1 ≠ e.2) edges in
  sampled_indices ← np_delete (Z.of_nat <$> seq 0 npoints) idxs_to_delete;
  edges ← result_mapM (λ e, a ← position_of sampled_indices e.1;
                             b ← position_of sampled_indices e.2;
                             Ok (Z.of_nat a, Z.of_nat b)) edges;
  Ok (sampled_indices, edges).

(** [int(npoints * perc_points_to_keep)]: the integer [npoints] is converted
    to a float64, the product of the two floats is rounded to a float64, and
    [int] truncates it; [perc] is the value of the float passed in. *)
Definition npoints_to_keep (npoints : nat) (perc : Q) : Z :=
  py_int (float64_round (float64_round (inject_Z (Z.of_nat npoints)) * perc)).
(** The number of decimation steps: [range(npoints - npoints_to_keep)]. *)
Definition decimation_steps (npoints : nat) (perc : Q) : nat :=
  Z.to_nat (Z.of_nat npoints - npoints_to_keep npoints perc).

Definition new_outlets (remove_caps : nat) (ind : indices) : list Z :=
  (λ o, o - Z.of_nat remove_caps) <$> outlets ind.

(** What [resample_points] returns or raises, paired with the contents of
    the caller's [indices] dictionary when the call ends: the assignment
    [indices['outlets'] = new_outlets] is made on the caller's object,
    before the first statement that can raise. *)
Definition resample_points (points : list vec) (edges : list (Z * Z)) (ind : indices)
    (perc_points_to_keep : Q) (remove_caps : nat)
    : result (list Z * list vec * list (Z * Z)) * indices :=
  let npoints := length points in
  let st := cap_removal remove_caps ind
              {| r_edges := edges; r_delete := []; r_replace := [] |} in
  let ind' := {| inlet := inlet ind; outlets := new_outlets remove_caps ind |} in
  (st ← decimate (decimation_steps npoints perc_points_to_keep) points (outlets ind') st;
   '(sampled_indices, edges) ← remove_points (r_delete st) (r_replace st)
                                              (r_edges st) npoints;
   points ← np_delete points (r_delete st);
   Ok (sampled_indices, points, edges),
   ind').

(** *** The driver's retry loop *)

(** One call of [resample_points] as the driver makes it: the arguments
    that vary between attempts. *)
Record attempt : Type := {
  a_perc : Q;
  a_indices : indices
}.

(** [while not success]: the attempts made, in order, and the outcome of
    the last one; [None] when [fuel] attempts all raised. *)
Fixpoint retry_loop (fuel : nat) (points : list vec) (edges : list (Z * Z))
    (ind : indices) (resample_perc : Q) (remove_caps : nat)
    : list attempt * option (list Z * list vec * list (Z * Z)) :=
  match fuel with
  | O => ([], None)
  | S fuel' =>
      let call := {| a_perc := resample_perc; a_indices := ind |} in
      match resample_points points edges ind resample_perc remove_caps with
      | (Ok r, _) => ([call], Some r)
      | (Err _, ind') =>
          let '(calls, r) := retry_loop fuel' points edges ind'
                               (Qmin (resample_perc * 2) 1) remove_caps in
          (call :: calls, r)
      end
  end.

(** *** Boundary edges: [generate_boundary_edges] *)

(** One position of the five parallel lists [bedges1], [bedges2],
    [rel_positions], [dists] and [types]; the lists grow and shrink at the
    same positions and are kept as one list of rows. *)
Record bedge : Type := {
  b_src : Z;
  b_dst : nat;
  b_rel : vec;
  b_dist : dist;
  b_type : Z
}.

(** [rp / norm(rp)] when [norm(rp) > 1e-12], else [rp]. *)
Definition unit_or_self (rp : vec) : vec :=
  if Qltb tol12 (norm rp) then vscale_inv rp (norm rp) else rp.

(** The row appended for boundary point [index], whose distances are [d],
    and point [ipoint]; [p] is [points[ipoint,:]], [q] is [points[index,:]]. *)
Definition boundary_row (ind : indices) (index : Z) (d : list dist) (ipoint : nat)
    (p q : vec) : bedge :=
  {| b_src := index;
     b_dst := ipoint;
     b_rel := unit_or_self (vsub p q);
     b_dist := dget d ipoint;
     b_type := if bool_decide (index ∈ inlet ind) then 1 else 2 |}.

(** The rows appended for one boundary point. *)
Definition boundary_rows (points : list vec) (ind : indices) (edges : list (Z * Z))
    (index : Z) : result (list bedge) :=
  '(d, _) ← dijkstra_algorithm points edges index;
  result_mapM (λ ipoint,
      p ← of_option IndexError (points !! ipoint);
      q ← py_get points index;
      Ok (boundary_row ind index d ipoint p q))
    (seq 0 (length points)).

(** The positions [start, start + step, ...] below [len], as the loop
    [while i < len(dists)] and the slice [dists[ipoint::npoints]] visit
    them; [step] is positive wherever the script gets here. *)
Definition stride_positions (len start step : nat) : list nat :=
  filter (λ i, (i < len)%nat) ((λ k, (start + k * step)%nat) <$> seq 0 len).

(** [np.where(cur_dists == min_dist)[0][0]] *)
Definition first_equal (cur_dists : list dist) (min_dist : dist) : result nat :=
  of_option IndexError (head (np_where (dist_eqb min_dist) cur_dists)).

(** The positions one point contributes to [edges_to_delete]. *)
Definition point_deletions (rows : list bedge) (npoints ipoint : nat) : result (list nat) :=
  let positions := stride_positions (length rows) ipoint npoints in
  let cur_dists := omap (λ i, b_dist <$> rows !! i) positions in
  min_dist ← np_min cur_dists;
  minidx ← first_equal cur_dists min_dist;
  let keep := (ipoint + minidx * npoints)%nat in
  Ok ((if dist_ltb min_dist (Fin tol12) then [keep] else [])
      ++ filter (λ i, i ≠ keep) positions).

Definition generate_boundary_edges (points : list vec) (ind : indices)
    (edges : list (Z * Z)) : result (list bedge) :=
  let npoints := length points in
  let idxs := inlet ind ++ outlets ind in
  blocks ← result_mapM (boundary_rows points ind edges) idxs;
  let rows := concat blocks in
  dels ← result_mapM (point_deletions rows npoints) (seq 0 npoints);
  Ok (delete_at (concat dels) rows).

(** *** Junction edges: [create_junction_edges] *)

(** A Python dictionary with integer keys, in insertion order. *)
Definition dict (V : Type) : Type := list (Z * V).

Fixpoint dict_get {V} (m : dict V) (k : Z) : option V :=
  match m with
  | [] => None
  | (k', v) :: m' => if bool_decide (k' = k) then Some v else dict_get m' k
  end.

Fixpoint dict_set {V} (m : dict V) (k : Z) (v : V) : dict V :=
  match m with
  | [] => [(k, v)]
  | (k', v') :: m' => if bool_decide (k' = k) then (k, v) :: m'
                      else (k', v') :: dict_set m' k v
  end.

Record jstate : Type := {
  jun_inlet_mask : list Z;
  jun_mask : list Z;
  juncts_inlets : dict nat;
  jedges1 : list nat;
  jedges2 : list nat
}.

(** [bif_id[ipoint - 1]]: at [ipoint = 0] the index [-1] is the last entry. *)
Definition bif_prev (bif_id : list Z) (ipoint : nat) : result Z :=
  py_get bif_id (Z.of_nat ipoint - 1).
Definition bif_at (bif_id : list Z) (ipoint : nat) : result Z :=
  py_get bif_id (Z.of_nat ipoint).

(** The three tests of the loop body, with Python's short-circuit order. *)
Definition enters_junction (bif_id : list Z) (ipoint : nat) : result bool :=
  b ← bif_at bif_id ipoint;
  if bool_decide (b = -1) then
    bn ← bif_at bif_id (S ipoint);
    Ok (bool_decide (bn ≠ -1))
  else Ok (bool_decide (ipoint = 0%nat)).

Definition changes_junction (bif_id : list Z) (ipoint : nat) : result bool :=
  b ← bif_at bif_id ipoint;
  if bool_decide (b ≠ -1) then
    bp ← bif_prev bif_id ipoint;
    Ok (bool_decide (bp ≠ -1 ∧ bp ≠ b))
  else Ok false.

Definition leaves_junction (bif_id : list Z) (ipoint : nat) : result bool :=
  b ← bif_at bif_id ipoint;
  if bool_decide (b = -1) then
    bp ← bif_prev bif_id ipoint;
    Ok (bool_decide (bp ≠ -1))
  else Ok false.

(** The body of [for ipoint in range(npoints - 1)]. *)
Definition junction_step (bif_id : list Z) (st : jstate) (ipoint : nat) : result jstate :=
  c1 ← enters_junction bif_id ipoint;
  if c1 : bool then
    bn ← bif_at bif_id (S ipoint);
    match dict_get (juncts_inlets st) bn with
    | None =>
        Ok {| jun_inlet_mask := <[ipoint := 1]> (jun_inlet_mask st);
              jun_mask := <[ipoint := 1]> (jun_mask st);
              juncts_inlets := dict_set (juncts_inlets st) bn ipoint;
              jedges1 := jedges1 st; jedges2 := jedges2 st |}
    | Some _ => Ok st
    end
  else
    c2 ← changes_junction bif_id ipoint;
    if c2 : bool then
      b ← bif_at bif_id ipoint;
      bp ← bif_prev bif_id ipoint;
      v ← of_option KeyError (dict_get (juncts_inlets st) bp);
      Ok {| jun_inlet_mask := jun_inlet_mask st; jun_mask := jun_mask st;
            juncts_inlets := dict_set (juncts_inlets st) b v;
            jedges1 := jedges1 st; jedges2 := jedges2 st |}
    else
      c3 ← leaves_junction bif_id ipoint;
      if c3 : bool then
        bp ← bif_prev bif_id ipoint;
        v ← of_option KeyError (dict_get (juncts_inlets st) bp);
        Ok {| jun_inlet_mask := jun_inlet_mask st;
              jun_mask := <[ipoint := 1]> (jun_mask st);
              juncts_inlets := juncts_inlets st;
              jedges1 := jedges1 st ++ [v]; jedges2 := jedges2 st ++ [ipoint] |}
      else Ok st.

Fixpoint junction_loop (bif_id : list Z) (ipoints : list nat) (st : jstate) : result jstate :=
  match ipoints with
  | [] => Ok st
  | ipoint :: rest => st' ← junction_step bif_id st ipoint; junction_loop bif_id rest st'
  end.

Definition junction_init (npoints : nat) : jstate :=
  {| jun_inlet_mask := replicate npoints 0; jun_mask := replicate npoints 0;
     juncts_inlets := []; jedges1 := []; jedges2 := [] |}.

(** The state after the first [k] iterations of the scan. *)
Definition junction_scan (bif_id : list Z) (k : nat) : result jstate :=
  junction_loop bif_id (seq 0 k) (junction_init (length bif_id)).

(** [for jun_id in juncts_inlets]: one Dijkstra run per entry, stored under
    the entry's inlet point. *)
Fixpoint junction_dists (points : list vec) (edges : list (Z * Z)) (m : dict nat)
    (acc : dict (list dist)) : result (dict (list dist)) :=
  match m with
  | [] => Ok acc
  | (_, inl_) :: m' =>
      '(d, _) ← dijkstra_algorithm points edges (Z.of_nat inl_);
      junction_dists points edges m' (dict_set acc (Z.of_nat inl_) d)
  end.

(** The masks dictionary: keys ['inlets'] and ['all']. *)
Record jmasks : Type := {
  m_inlets : list Z;
  m_all : list Z
}.

Record jresult : Type := {
  j_edges1 : list nat;
  j_edges2 : list nat;
  j_rel_position : list vec;
  j_distance : list dist;
  j_types : list Z;
  j_masks : jmasks
}.

Definition create_junction_edges (points : list vec) (bif_id : list Z)
    (edges : list (Z * Z)) : result jresult :=
  let npoints := length bif_id in
  st ← junction_scan bif_id (npoints - 1);
  dists ← junction_dists points edges (juncts_inlets st) [];
  feats ← result_mapM (λ e : nat * nat,
      p2 ← of_option IndexError (points !! e.2);
      p1 ← of_option IndexError (points !! e.1);
      d ← of_option KeyError (dict_get dists (Z.of_nat e.1));
      dd ← of_option IndexError (d !! e.2);
      Ok (vsub p2 p1, dd)) (zip (jedges1 st) (jedges2 st));
  let jrel_position := fst <$> feats in
  let jdistance := snd <$> feats in
  let jedges1' := jedges1 st ++ jedges2 st in
  let jedges2' := jedges2 st ++ jedges1 st in
  Ok {| j_edges1 := jedges1';
        j_edges2 := jedges2';
        j_rel_position := jrel_position ++ (vopp <$> jrel_position);
        j_distance := jdistance ++ jdistance;
        j_types := replicate (length jedges1') 3;
        j_masks := {| m_inlets := jun_inlet_mask st; m_all := jun_mask st |} |}.

(** *** Partitioner: [create_partitions] *)

Record pstate : Type := {
  sampling_indices : list Z;
  new_edges : list (nat * nat);
  points_to_visit : list Z;
  count : nat;
  numbering : gmap Z nat
}.

(** The body of [for iedg in iedges] for the edge from [j] to [next_point];
    [numbering[j]] is read after [numbering[next_point]] was written, and is
    present for every [j] taken from the queue (see [visit_edge_numbered]). *)
Definition visit_edge (inlets : list Z) (j : Z) (st : pstate) (next_point : Z) : pstate :=
  let numbering' := <[next_point := count st]> (numbering st) in
  {| sampling_indices := sampling_indices st ++ [next_point];
     new_edges := new_edges st ++ [(default 0%nat (numbering' !! j),
                                    default 0%nat (numbering' !! next_point))];
     points_to_visit := if bool_decide (next_point ∉ inlets)
                        then points_to_visit st ++ [next_point]
                        else points_to_visit st;
     count := S (count st);
     numbering := numbering' |}.

(** [while len(points_to_visit) > 0]; the loop need not end on a graph with
    a cycle, hence the fuel. *)
Fixpoint partition_loop (fuel : nat) (edges : list (Z * Z)) (inlets : list Z)
    (st : pstate) : result pstate :=
  match points_to_visit st with
  | [] => Ok st
  | j :: rest =>
      match fuel with
      | O => Err NoFuel
      | S fuel' =>
          let st0 := {| sampling_indices := sampling_indices st;
                        new_edges := new_edges st;
                        points_to_visit := rest;
                        count := count st;
                        numbering := numbering st |} in
          partition_loop fuel' edges inlets
            (foldl (visit_edge inlets j) st0 (out_neighbors edges j))
      end
  end.

Definition partition_init (starting_point : Z) : pstate :=
  {| sampling_indices := [starting_point];
     new_edges := [];
     points_to_visit := [starting_point];
     count := 1;
     numbering := {[ starting_point := 0%nat ]} |}.

Definition create_partition (fuel : nat) (edges : list (Z * Z)) (starting_point : Z)
    (inlets : list Z) : result (list (nat * nat) * list Z) :=
  st ← partition_loop fuel edges inlets (partition_init starting_point);
  Ok (new_edges st, sampling_indices st).

(** The source of random numbers: the [c]-th draw is [rnd c].
    [np.random.randint(low, high)] *)
Definition randint (rnd : nat → nat) (c : nat) (low high : Z) : result Z :=
  if bool_decide (low < high)
  then Ok (low + Z.of_nat (rnd c) `mod` (high - low))
  else Err ValueError.

(** [random.sample(population, k)]: [k] draws without replacement. *)
Fixpoint random_sample (rnd : nat → nat) (c : nat) (population : list Z) (k : nat)
    : result (list Z) :=
  match k with
  | O => Ok []
  | S k' =>
      let pos := (rnd c `mod` length population)%nat in
      x ← of_option ValueError (population !! pos);
      xs ← random_sample rnd (S c) (delete pos population) k';
      Ok (x :: xs)
  end.

(** [while True]: follow the first outgoing edge until a junction point;
    [-1] when the walk runs out of edges. *)
Fixpoint walk_to_junction (fuel : nat) (bif_id : list Z) (edges : list (Z * Z)) (j : Z)
    : result Z :=
  match fuel with
  | O => Err NoFuel
  | S fuel' =>
      match out_neighbors edges j with
      | [] => Ok (-1)
      | j' :: _ =>
          b ← py_get bif_id j';
          if bool_decide (b ≠ -1) then Ok j'
          else walk_to_junction fuel' bif_id edges j'
      end
  end.

(** [for ipoint in range(npoints)], with its [break]. *)
Fixpoint select_scan (rnd : nat → nat) (fuel : nat) (bif_id : list Z)
    (edges : list (Z * Z)) (max_num_partitions : nat) (ipoints : list nat)
    (inlets : list Z) (c : nat) : result (list Z * nat) :=
  match ipoints with
  | [] => Ok (inlets, c)
  | ipoint :: rest =>
      if bool_decide (length inlets = max_num_partitions) then Ok (inlets, c)
      else
        b ← bif_at bif_id ipoint;
        exits ← (if bool_decide (b ≠ -1)
                 then bn ← bif_at bif_id (S ipoint); Ok (bool_decide (bn = -1))
                 else Ok false);
        if exits : bool then
          next ← walk_to_junction fuel bif_id edges (Z.of_nat ipoint);
          if bool_decide (next ≠ -1) then
            r ← randint rnd c (Z.of_nat ipoint + 1) next;
            select_scan rnd fuel bif_id edges max_num_partitions rest
                        (inlets ++ [r]) (S c)
          else select_scan rnd fuel bif_id edges max_num_partitions rest inlets c
        else select_scan rnd fuel bif_id edges max_num_partitions rest inlets c
  end.

Definition select_inlets (rnd : nat → nat) (fuel : nat) (bif_id : list Z)
    (edges : list (Z * Z)) (max_num_partitions : nat) : result (list Z) :=
  '(inlets, c) ← select_scan rnd fuel bif_id edges max_num_partitions
                             (seq 0 (length bif_id)) [0] 0%nat;
  if bool_decide (length inlets < max_num_partitions)%nat then
    let available_in := Z.of_nat <$> np_where (λ b, bool_decide (b = -1)) bif_id in
    let n_new_inlets := Nat.min (max_num_partitions - length inlets) 2 in
    if bool_decide (length available_in < n_new_inlets)%nat then Err ValueError
    else new ← random_sample rnd c available_in n_new_inlets; Ok (inlets ++ new)
  else Ok inlets.

(** A partition dictionary; of [point_data] the bifurcation ID array is
    kept (the other arrays are sliced by the same index list). *)
Record partition : Type := {
  p_edges : list (nat * nat);
  p_points : list vec;
  p_sampling_indices : list Z;
  p_bif_id : list Z
}.

Definition build_partition (fuel : nat) (points : list vec) (bif_id : list Z)
    (edges : list (Z * Z)) (inlets : list Z) (root : Z) : result partition :=
  '(pedges, sampling) ← create_partition fuel edges root inlets;
  ppoints ← result_mapM (py_get points) sampling;
  pbif ← result_mapM (py_get bif_id) sampling;
  Ok {| p_edges := pedges; p_points := ppoints;
        p_sampling_indices := sampling; p_bif_id := pbif |}.

(** [bif_id] is [point_data['BifurcationId']], which the script reads from
    the driver's variable [point_data]; [rnd] is the source of random
    numbers and [fuel] bounds each of the two loops that need not end. *)
Definition create_partitions (rnd : nat → nat) (fuel : nat) (points : list vec)
    (bif_id : list Z) (edges : list (Z * Z)) (max_num_partitions : nat)
    : result (list partition) :=
  inlets ← select_inlets rnd fuel bif_id edges max_num_partitions;
  parts ← result_mapM (build_partition fuel points bif_id edges inlets) inlets;
  Ok (filter (λ p, (1 < length (p_edges p))%nat) parts).

(** *** Field tensors: [add_fields] *)

Fixpoint insert_sorted (x : Q) (l : list Q) : list Q :=
  match l with
  | [] => [x]
  | y :: l' => if Qle_bool x y then x :: l else y :: insert_sorted x l'
  end.

(** [timesteps.sort()] *)
Definition sort_floats (l : list Q) : list Q := foldr insert_sorted [] l.

(** What [add_fields] stores in [graph.ndata]: the tensor of shape
    (points, 1, timesteps) as the list of its last-axis slices
    [field_t[:,0,k]], and the ['dt'] column. *)
Record fields : Type := {
  f_field : list (list Q);
  f_dt : list Q
}.

(** [field_t[:,0,k] = f]: [f] has one value per point, or a single value
    that is broadcast. *)
Definition assign_slice (npts : nat) (f : list Q) : result (list Q) :=
  if bool_decide (length f = npts) then Ok f
  else match f with
       | [x] => Ok (replicate npts x)
       | _ => Err ValueError
       end.

(** [field_t[:,:,::subsample_time]] *)
Definition subsample {A} (slices : list A) (step : nat) : result (list A) :=
  if bool_decide (step = 0%nat) then Err ValueError
  else Ok (omap (λ i, slices !! i) (stride_positions (length slices) 0 step)).

(** [field] is the mapping in its iteration order. *)
Definition add_fields (num_nodes : nat) (field : list (Q * list Q))
    (subsample_time : nat) : result fields :=
  let timesteps := sort_floats (fst <$> field) in
  t1 ← of_option IndexError (timesteps !! 1%nat);
  t0 ← of_option IndexError (timesteps !! 0%nat);
  let dt := ((t1 - t0) * inject_Z (Z.of_nat subsample_time))%Q in
  first ← of_option IndexError (head (snd <$> field));
  let npts := length first in
  slices ← result_mapM (assign_slice npts) (snd <$> field);
  sub ← subsample slices subsample_time;
  if bool_decide (npts = num_nodes)
  then Ok {| f_field := sub; f_dt := replicate num_nodes dt |}
  else Err ValueError.

End Model.

(** ** Edge features over the reals: [generate_edge_features] *)

Module Features.

Definition rvec : Type := (R * R * R)%type.

Definition rsub (a b : rvec) : rvec :=
  let '(ax, ay, az) := a in
  let '(bx, by_, bz) := b in
  ((ax - bx)%R, (ay - by_)%R, (az - bz)%R).

Definition rdiv (a : rvec) (c : R) : rvec :=
  let '(ax, ay, az) := a in ((ax / c)%R, (ay / c)%R, (az / c)%R).

(** [np.linalg.norm] *)
Definition rnorm (a : rvec) : R :=
  let '(ax, ay, az) := a in sqrt (ax * ax + ay * ay + az * az)%R.

(** The pair appended to [rel_position] and [rel_position_norm] for one
    edge. numpy divides by a zero norm without raising. *)
Definition edge_feature (points : list rvec) (e : Z * Z) : result (rvec * R) :=
  p2 ← py_get points e.2;
  p1 ← py_get points e.1;
  let diff := rsub p2 p1 in
  let ndiff := rnorm diff in
  Ok (rdiv diff ndiff, ndiff).

Definition generate_edge_features (points : list rvec) (edges : list (Z * Z))
    : result (list rvec * list R) :=
  feats ← result_mapM (edge_feature points) edges;
  Ok (fst <$> (feats : list (rvec * R)), snd <$> feats).

End Features.

(** ** Outlets, point types and the continuity mask *)

(** [find_outlets]: the entries of [edges2], in order, that do not occur in
    [edges1]. *)
Definition find_outlets (edges : list (Z * Z)) : list Z :=
  filter (λ e, e ∉ edges.*1) (edges.*2).

(** [th.nn.functional.one_hot(th.tensor(types), num_classes)]. The tensor
    of an empty list is a float tensor, which [one_hot] refuses, as it does
    a class outside [0, num_classes); [None] stands for the RuntimeError. *)
Definition one_hot_row (num_classes : nat) (c : Z) : list Z :=
  (λ k, if bool_decide (Z.of_nat k = c) then 1 else 0) <$> seq 0 num_classes.

Definition one_hot (num_classes : nat) (types : list Z) : option (list (list Z)) :=
  if bool_decide (types = []) then None
  else if forallb (λ c, (0 <=? c) && (c <? Z.of_nat num_classes)) types
       then Some (one_hot_row num_classes <$> types)
       else None.

(** The body of the loop of [generate_types]: [cur_type] for point [i]
    with bifurcation ID [id]. *)
Definition point_type (ind : indices) (i : nat) (id : Z) : Z :=
  let cur_type := if bool_decide (id = -1) then 0 else 1 in
  if bool_decide (Z.of_nat i ∈ inlet ind) then 2
  else if bool_decide (Z.of_nat i ∈ outlets ind) then 3
  else cur_type.

(** [generate_types]: the one-hot types, [inlet_mask] and [outlet_mask]. *)
Definition generate_types (bif_id : list Z) (ind : indices)
    : option (list (list Z) * list bool * list bool) :=
  let types := imap (point_type ind) bif_id in
  let inlet_mask := (λ t, bool_decide (t = 2)) <$> types in
  let outlet_mask := (λ t, bool_decide (t = 3)) <$> types in
  rows ← one_hot 4 types;
  Some (rows, inlet_mask, outlet_mask).

(** [types[i,0]] *)
Definition type0 (types : list (list Z)) (i : nat) : result Z :=
  row ← of_option IndexError (types !! i);
  of_option IndexError (row !! 0%nat).

(** The test [types[i-1,0] == 1 and types[i,0] == 1 and types[i + 1,0]],
    evaluated from the left, and the entry appended for it. *)
Definition continuity_entry (types : list (list Z)) (i : nat) : result Z :=
  a ← type0 types (i - 1);
  if bool_decide (a = 1) then
    b ← type0 types i;
    if bool_decide (b = 1) then
      c ← type0 types (i + 1);
      Ok (if bool_decide (c ≠ 0) then 1 else 0)
    else Ok 0
  else Ok 0.

(** [create_continuity_mask]: a 0, the entries for [range(1, npoints-1)],
    and a 0. *)
Definition create_continuity_mask (types : list (list Z)) : result (list Z) :=
  let npoints := length types in
  mid ← result_mapM (continuity_entry types) (seq 1 (npoints - 2));
  Ok ([0] ++ mid ++ [0]).

(** ** The driver: rescaling the time steps *)

(** A Python dictionary with float keys, in insertion order; keys are
    compared with [==]. *)
Definition fdict (V : Type) : Type := list (Q * V).

Fixpoint fdict_get {V} (m : fdict V) (k : Q) : option V :=
  match m with
  | [] => None
  | (k', v) :: m' => if Qeq_bool k' k then Some v else fdict_get m' k
  end.

(** [m[k] = v]: an entry with an equal key keeps its key and its place and
    gets the value; otherwise the entry is added at the end. *)
Fixpoint fdict_set {V} (m : fdict V) (k : Q) (v : V) : fdict V :=
  match m with
  | [] => [(k, v)]
  | (k', v') :: m' => if Qeq_bool k' k then (k', v) :: m'
                      else (k', v') :: fdict_set m' k v
  end.

(** [del m[k]] *)
Fixpoint fdict_del {V} (m : fdict V) (k : Q) : result (fdict V) :=
  match m with
  | [] => Err KeyError
  | (k', v') :: m' => if Qeq_bool k' k then Ok m'
                      else m'' ← fdict_del m' k; Ok ((k', v') :: m'')
  end.

(** The body of [for t in times], on the pair of [pressure] and
    [flowrate]. *)
Definition rescale_step {V} (timestep : Q) (st : fdict V * fdict V) (t : Q)
    : result (fdict V * fdict V) :=
  p ← of_option KeyError (fdict_get st.1 t);
  let pressure := fdict_set st.1 (t * timestep)%Q p in
  f ← of_option KeyError (fdict_get st.2 t);
  let flowrate := fdict_set st.2 (t * timestep)%Q f in
  pressure ← fdict_del pressure t;
  flowrate ← fdict_del flowrate t;
  Ok (pressure, flowrate).

Fixpoint result_foldM {A B} (f : B → A → result B) (b : B) (l : list A) : result B :=
  match l with
  | [] => Ok b
  | x :: l' => b' ← f b x; result_foldM f b' l'
  end.

(** [times = [t for t in pressure]] and the loop over [times]. *)
Definition rescale_time {V} (timestep : Q) (pressure flowrate : fdict V)
    : result (fdict V * fdict V) :=
  result_foldM (rescale_step timestep) (pressure, flowrate) (fst <$> pressure).

(** ** Inputs used to run the model *)

(** [n] points one unit apart on the x axis, joined into a path. *)
Definition chain (n : nat) : list vec :=
  (λ k, (inject_Z (Z.of_nat k), 0, 0)%Q) <$> seq 0 n.
Definition chain_edges (n : nat) : list (Z * Z) :=
  (λ k, (Z.of_nat k, Z.of_nat (S k))) <$> seq 0 (n - 1).

(** Every edge with its reverse, as [generate_graph] passes them on. *)
Definition bidirected (edges : list (Z * Z)) : list (Z * Z) :=
  edges ++ ((λ e, (e.2, e.1)) <$> edges).

(** Three points on the x axis, the first edge longer than the second by
    5e-13. *)
Definition near_tie : list vec :=
  [(0, 0, 0); (2000000000001 # 2000000000000, 0, 0);
   (4000000000001 # 2000000000000, 0, 0)]%Q.

(** Four points on the x axis joined into a path, the first two at the
    same place. *)
Definition coincident_start : list vec :=
  [(0, 0, 0); (0, 0, 0); (1, 0, 0); (2, 0, 0)]%Q.

(** Seven points, of which points 2 and 3 form the one junction. *)
Definition bif_one_junction : list Z := [-1; -1; 0; 0; -1; -1; -1].

(** The random source whose every draw is 3. *)
Definition draw_three (c : nat) : nat := 3%nat.

(** ** Vocabulary of the statements *)

(** [v] is a node and the edge list has an entry from [u] to [v]. *)
Definition edge_step (n : nat) (edges : list (Z * Z)) (u v : nat) : Prop :=
  (v < n)%nat ∧ (Z.of_nat u, Z.of_nat v) ∈ edges.

(** [p] can be reached from [s] along directed edges. *)
Definition reachable (n : nat) (edges : list (Z * Z)) (s p : nat) : Prop :=
  rtc (edge_step n edges) s p.

Definition finite (d : dist) : Prop := is_inf d = false.

(** The traversal of [create_partition] from [root] follows the edge from
    [u] to [v]: [u] is the root or is not a chosen root. *)
Definition branch_step (edges : list (Z * Z)) (inlets : list Z) (root u v : Z) : Prop :=
  (u, v) ∈ edges ∧ (u = root ∨ u ∉ inlets).

(** [x] lies on a branch of the traversal from [root]. *)
Definition on_branch (edges : list (Z * Z)) (inlets : list Z) (root x : Z) : Prop :=
  rtc (branch_step edges inlets root) root x.

(** Every point has at most one incoming edge. *)
Definition one_predecessor (edges : list (Z * Z)) : Prop :=
  ∀ u u' v, (u, v) ∈ edges → (u', v) ∈ edges → u = u'.

(** The root of (a number equal to) zero is zero. *)
Definition sqrt_zero (sqrtQ : Q → Q) : Prop := ∀ q, (q == 0)%Q → (sqrtQ q == 0)%Q.

(** The scan of [create_junction_edges] meets an entry into a junction at
    [i]: an ordinary point followed by a junction point, or a junction
    point at position 0. *)
Definition junction_entry (bif_id : list Z) (i : nat) : Prop :=
  ∃ b bn, bif_id !! i = Some b ∧ bif_id !! S i = Some bn
          ∧ ((b = -1 ∧ bn ≠ -1) ∨ (i = 0%nat ∧ b ≠ -1)).

(** [i] is recorded as a junction inlet: the scan meets an entry at [i]
    while [juncts_inlets] has no inlet yet for the junction entered. *)
Definition recorded_inlet (bif_id : list Z) (i : nat) : Prop :=
  junction_entry bif_id i
  ∧ ∃ st bn, junction_scan bif_id i = Ok st ∧ bif_id !! S i = Some bn
             ∧ dict_get (juncts_inlets st) bn = None.

(** [i] is a junction exit: an ordinary point, followed by an ordinary
    point, whose predecessor in point order is a junction point. *)
Definition junction_exit (bif_id : list Z) (i : nat) : Prop :=
  ∃ bp, bif_id !! i = Some (-1) ∧ bif_id !! S i = Some (-1)
        ∧ py_get bif_id (Z.of_nat i - 1) = Ok bp ∧ bp ≠ -1.

(** The invariant of the loop of [dijkstra_algorithm] run on [nodes] and
    [edges] from the source [s]. *)
Record dijkstra_inv (nodes : list vec) (edges : list (Z * Z)) (s : nat)
    (st : dstate) : Prop := {
  inv_len : length (dists st) = length nodes;
  inv_nodup : NoDup (tovisit st);
  inv_range : ∀ v, v ∈ tovisit st → (v < length nodes)%nat;
  inv_src : dget (dists st) s = Fin 0;
  inv_first : s ∈ tovisit st → ∀ v, v ≠ s → dget (dists st) v = Inf;
  inv_reach : ∀ v, finite (dget (dists st) v) → reachable (length nodes) edges s v;
  inv_closed : ∀ u w, u ∉ tovisit st → finite (dget (dists st) u) →
               edge_step (length nodes) edges u w → finite (dget (dists st) w);
  inv_dead : ∀ u v, (u < length nodes)%nat → u ∉ tovisit st →
             dget (dists st) u = Inf → v ∈ tovisit st → dget (dists st) v = Inf
}.

(** What holds of the traversal state throughout [create_partition]. *)
Record partition_inv (edges : list (Z * Z)) (inlets : list Z) (root : Z)
    (st : pstate) : Prop := {
  pinv_count : length (sampling_indices st) = count st;
  pinv_head : head (sampling_indices st) = Some root;
  pinv_edges : ∀ a b, (a, b) ∈ new_edges st → (a < count st)%nat ∧ (b < count st)%nat;
  pinv_numbering : ∀ k v, numbering st !! k = Some v → (v < count st)%nat;
  pinv_sampled : ∀ x, x ∈ sampling_indices st → on_branch edges inlets root x;
  pinv_queue : ∀ x, x ∈ points_to_visit st →
               on_branch edges inlets root x ∧ (x = root ∨ x ∉ inlets);
  pinv_numbered : ∀ x, x ∈ points_to_visit st → is_Some (numbering st !! x)
}.

(** A point with rational coordinates as a point with real coordinates. *)
Definition real_point (p : vec) : Features.rvec :=
  let '(x, y, z) := p in (Q2R x, Q2R y, Q2R z).

(** The properties of the edge list the decimation loop maintains. *)
Definition nonneg_edges (edges : list (Z * Z)) : Prop :=
  ∀ e, e ∈ edges → 0 ≤ e.1 ∧ 0 ≤ e.2.

Definition not_endpoint (edges : list (Z * Z)) (d : Z) : Prop :=
  ∀ e, e ∈ edges → e.1 ≠ d ∧ e.2 ≠ d.

(** The points of the caps, in the order the cap loop deletes them: for
    each [ip] below [remove_caps], [inlet + ip] for every inlet and then
    [outlet - ip] for every outlet. *)
Definition cap_points (remove_caps : nat) (ind : indices) : list Z :=
  (Z.of_nat <$> seq 0 remove_caps) ≫= λ ip,
    ((λ i, i + ip) <$> inlet ind) ++ ((λ o, o - ip) <$> outlets ind).

(** The length [dijkstra_algorithm] gives the edge from [u] to [v]. *)
Definition edge_weight (sqrtQ : Q → Q) (nodes : list vec) (u v : nat) : Q :=
  norm sqrtQ (vsub (pget nodes u) (pget nodes v)).

(** [walk] lists the points met after [u] on a walk along directed edges
    that ends at [v]. *)
Fixpoint is_walk (n : nat) (edges : list (Z * Z)) (u : nat) (walk : list nat)
    (v : nat) : Prop :=
  match walk with
  | [] => u = v
  | x :: walk' => edge_step n edges u x ∧ is_walk n edges x walk' v
  end.

(** The length of the walk added to [acc], one edge after the other from
    the first, which is the order in which the algorithm adds them up. *)
Fixpoint walk_cost (sqrtQ : Q → Q) (nodes : list vec) (acc : Q) (u : nat)
    (walk : list nat) : Q :=
  match walk with
  | [] => acc
  | x :: walk' => walk_cost sqrtQ nodes (acc + edge_weight sqrtQ nodes u x)%Q x walk'
  end.

(** [a <= b] on floats. *)
Definition dist_le (a b : dist) : Prop := dist_ltb b a = false.

(** No root is negative. *)
Definition sqrt_nonneg (sqrtQ : Q → Q) : Prop := ∀ q, (0 <= sqrtQ q)%Q.

(** What the loop of [dijkstra_algorithm] keeps of the walks behind the
    distances and of the predecessor array. *)
Record dijkstra_tree_inv (sqrtQ : Q → Q) (nodes : list vec) (edges : list (Z * Z))
    (s : nat) (st : dstate) : Prop := {
  tree_len : length (prevs st) = length nodes;
  tree_src : prevs st !! s = Some (-1);
  tree_walk : ∀ v, finite (dget (dists st) v) →
              ∃ walk, is_walk (length nodes) edges s walk v
                      ∧ dget (dists st) v = Fin (walk_cost sqrtQ nodes 0 s walk);
  tree_prev : ∀ v, v ≠ s → finite (dget (dists st) v) →
              ∃ u, prevs st !! v = Some (Z.of_nat u)
                   ∧ (u ∉ tovisit st) ∧ (u < length nodes)%nat
                   ∧ edge_step (length nodes) edges u v
                   ∧ dget (dists st) v
                     = dist_add (dget (dists st) u) (edge_weight sqrtQ nodes u v)
}.

(** What the loop keeps of the order of the distances: a point taken from
    the queue is no farther than a queued one, and no edge leaving it can
    shorten a distance. *)
Record dijkstra_opt_inv (sqrtQ : Q → Q) (nodes : list vec) (edges : list (Z * Z))
    (st : dstate) : Prop := {
  opt_settled : ∀ u v, (u < length nodes)%nat → u ∉ tovisit st → v ∈ tovisit st →
                dist_le (dget (dists st) u) (dget (dists st) v);
  opt_feasible : ∀ u v, u ∉ tovisit st → edge_step (length nodes) edges u v →
                 dist_le (dget (dists st) v)
                         (dist_add (dget (dists st) u) (edge_weight sqrtQ nodes u v))
}.

(** ** Vocabulary for [remove_points] *)

(** The edges [remove_points] renumbers: the input edges after the replacement
    loop, without the edges whose two ends have become equal. *)
Definition replayed_edges (idxs_to_delete idxs_to_replace : list Z)
    (edges : list (Z * Z)) : list (Z * Z) :=
  filter (λ e, e.1 ≠ e.2)
    (foldl (λ es dr, modify_edges es dr.1 dr.2) edges
           (zip idxs_to_delete idxs_to_replace)).

(** [x] is a point index that [np.delete(np.arange(npoints), idxs_to_delete)]
    keeps: neither [x] nor its negative alias [x - npoints] is deleted. *)
Definition kept_point (idxs_to_delete : list Z) (npoints : nat) (x : Z) : Prop :=
  0 ≤ x < Z.of_nat npoints ∧ (x ∉ idxs_to_delete)
  ∧ (x - Z.of_nat npoints ∉ idxs_to_delete).

(** What the scan of [create_junction_edges] keeps, after [k] iterations,
    of the inlets stored per junction and of the edges collected. *)
Record junction_inv (bif_id : list Z) (k : nat) (st : jstate) : Prop := {
  jinv_dict : ∀ key v, dict_get (juncts_inlets st) key = Some v →
              (v < k)%nat ∧ recorded_inlet bif_id v;
  jinv_edges : Forall2 (λ a b, recorded_inlet bif_id a ∧ junction_exit bif_id b
                               ∧ (a < b)%nat)
                       (jedges1 st) (jedges2 st);
  jinv_exits : ∀ b, b ∈ jedges2 st ↔ (b < k)%nat ∧ junction_exit bif_id b;
  jinv_nodup : NoDup (jedges2 st)
}.

(** What holds of the local numbering throughout [create_partition]: the
    edge recorded at position [k] ends at the local point [k + 1], and its
    two local endpoints stand for the endpoints of an edge of the input. *)
Record partition_tree_inv (edges : list (Z * Z)) (st : pstate) : Prop := {
  ptree_count : length (sampling_indices st) = count st;
  ptree_len : S (length (new_edges st)) = count st;
  ptree_numbering : ∀ x v, numbering st !! x = Some v →
                    sampling_indices st !! v = Some x;
  ptree_queue : ∀ x, x ∈ points_to_visit st → is_Some (numbering st !! x);
  ptree_edges : ∀ k a b, new_edges st !! k = Some (a, b) →
                b = S k ∧ (a ≤ b)%nat
                ∧ ∃ x y, sampling_indices st !! a = Some x
                         ∧ sampling_indices st !! b = Some y ∧ (x, y) ∈ edges
}.

(** ** Vocabulary for the termination of [create_partition] *)

(** A bound on the loop iterations owed to a queued point [x], for a rank
    [r] that falls along every edge. *)
Definition visit_weight (edges : list (Z * Z)) (r : Z → nat) (x : Z) : nat :=
  (S (length edges) ^ r x)%nat.

(** Point [j] is an ordinary point of a branch: its bifurcation ID is -1
    and it is neither an inlet nor an outlet. *)
Definition branch_point (bif_id : list Z) (ind : indices) (j : nat) : Prop :=
  bif_id !! j = Some (-1) ∧ (Z.of_nat j ∉ inlet ind) ∧ (Z.of_nat j ∉ outlets ind).

(** [-v] for a vector of reals. *)
Definition ropp (a : Features.rvec) : Features.rvec :=
  let '(ax, ay, az) := a in ((- ax)%R, (- ay)%R, (- az)%R).

(** No two keys of the list are equal as numbers. *)
Fixpoint distinct_keys (ks : list Q) : Prop :=
  match ks with
  | [] => True
  | k :: ks' => (∀ k', k' ∈ ks' → ¬ (k == k')%Q) ∧ distinct_keys ks'
  end.

(** What one iteration of the rescaling loop does to one of the two
    dictionaries. *)
Definition rescale_one {V} (timestep : Q) (m : fdict V) (t : Q) : result (fdict V) :=
  v ← of_option KeyError (fdict_get m t);
  fdict_del (fdict_set m (t * timestep)%Q v) t.

(** The entry of a dictionary under the rescaled key. *)
Definition scale_entry {V} (timestep : Q) (e : Q * V) : Q * V :=
  ((e.1 * timestep)%Q, e.2).

(** * Properties *)

(** ** The shortest-path engine *)

Section Dijkstra.

Local Open Scope nat_scope.

Variable sqrtQ : Q → Q.
Variable nodes : list vec.
Variable edges : list (Z * Z).
Variable s : nat.
Hypothesis s_node : s < length nodes.

Lemma finite_Fin q : finite (Fin q).
Proof. done. Qed.

Lemma not_finite_Inf d : ¬ finite d ↔ d = Inf.
Proof. destruct d; unfold finite; simpl; split; congruence. Qed.

Lemma dist_ltb_Inf_r d : dist_ltb d Inf = false → d = Inf.
Proof. by destruct d. Qed.

Lemma dist_ltb_finite d d' : dist_ltb d d' = true → finite d.
Proof. by destruct d. Qed.

Lemma dget_insert ds w x v :
  dget (<[w:=x]> ds) v
  = if bool_decide (v = w ∧ w < length ds) then x else dget ds v.
Proof.
  unfold dget. case_bool_decide as H.
  - destruct H as [-> H]. by rewrite list_lookup_insert_eq.
  - destruct (decide (v = w)) as [->|Hne].
    + rewrite list_insert_ge; [done|]. lia.
    + by rewrite list_lookup_insert_ne.
Qed.

Lemma dget_finite_lt ds v : finite (dget ds v) → v < length ds.
Proof.
  unfold dget. intros H. destruct (ds !! v) eqn:E.
  - by eapply lookup_lt_Some.
  - done.
Qed.

(** *** The scan *)

Lemma scan_min_Some ds k tv mi ml r :
  scan_min ds k tv mi ml = Some r →
  mi = Some r ∨ ∃ j v, r = k + j ∧ tv !! j = Some v ∧ finite (dget ds v).
Proof.
  revert k mi ml. induction tv as [|v tv IH]; intros k mi ml; simpl.
  - by left.
  - destruct (dist_ltb (dget ds v) ml) eqn:E; intros H; apply IH in H.
    + right. destruct H as [H|(j & v' & -> & Hj & Hf)].
      * injection H as <-. exists 0, v. split_and!; [lia|done|].
        by eapply dist_ltb_finite.
      * exists (S j), v'. split_and!; [lia|done..].
    + destruct H as [H|(j & v' & -> & Hj & Hf)]; [by left|].
      right. exists (S j), v'. split_and!; [lia|done..].
Qed.

Lemma scan_min_None ds k tv mi ml :
  scan_min ds k tv mi ml = None →
  mi = None ∧ ∀ v, v ∈ tv → dist_ltb (dget ds v) ml = false.
Proof.
  revert k mi ml. induction tv as [|v tv IH]; intros k mi ml; simpl.
  - intros ->. split; [done|]. intros v Hv. by apply elem_of_nil in Hv.
  - destruct (dist_ltb (dget ds v) ml) eqn:E; intros H; apply IH in H.
    + by destruct H.
    + destruct H as [-> H]. split; [done|].
      intros v' [->|Hv]%elem_of_cons; auto.
Qed.

(** The node taken from the queue exists, and when its distance is
    infinite so is that of every queued node. *)
Lemma min_position_spec ds tv :
  tv ≠ [] →
  ∃ cur, tv !! min_position ds tv = Some cur
         ∧ (dget ds cur = Inf → ∀ v, v ∈ tv → dget ds v = Inf).
Proof.
  intros Hne. unfold min_position.
  destruct (scan_min ds 0 tv None Inf) as [k|] eqn:E.
  - apply scan_min_Some in E as [?|(j & v & -> & Hj & Hf)]; [done|].
    exists v. split; [done|]. intros Hv. rewrite Hv in Hf. done.
  - apply scan_min_None in E as [_ H].
    destruct (tv !! (length tv - 1)) as [cur|] eqn:Hc.
    + exists cur. split; [done|]. intros _ v Hv. by apply dist_ltb_Inf_r, H.
    + apply lookup_ge_None in Hc. destruct tv; simpl in *; [done|lia].
Qed.

(** *** The relaxation pass *)

Lemma relax_length cur tv st neib :
  length (relax sqrtQ nodes cur tv st neib).1 = length st.1.
Proof.
  unfold relax. repeat case_match; simpl; try done. by rewrite length_insert.
Qed.

Lemma relax_changes cur tv st neib v :
  dget (relax sqrtQ nodes cur tv st neib).1 v ≠ dget st.1 v →
  v ∈ tv ∧ Z.of_nat v = neib ∧ finite (dget st.1 cur)
  ∧ finite (dget (relax sqrtQ nodes cur tv st neib).1 v).
Proof.
  unfold relax. case_bool_decide as Hin; [|done].
  destruct Hin as [Hpos Hin].
  destruct (dist_ltb _ _) eqn:E; [|done]. simpl.
  rewrite dget_insert. case_bool_decide as Hv; [|done].
  destruct Hv as [-> _]. intros _.
  apply dist_ltb_finite in E as Hf.
  split_and!; [done|lia| |done].
  destruct (dget st.1 cur); done.
Qed.

Lemma relax_finite_mono cur tv st neib v :
  finite (dget st.1 v) → finite (dget (relax sqrtQ nodes cur tv st neib).1 v).
Proof.
  intros Hf.
  destruct (decide (dget (relax sqrtQ nodes cur tv st neib).1 v = dget st.1 v)) as [->|Hne];
    [done|].
  by apply relax_changes in Hne as (_ & _ & _ & ?).
Qed.

(** The neighbour just relaxed has a finite distance when [cur] has. *)
Lemma relax_target cur tv st w :
  w ∈ tv → w < length st.1 → finite (dget st.1 cur) →
  finite (dget (relax sqrtQ nodes cur tv st (Z.of_nat w)).1 w).
Proof.
  intros Hin Hlt Hf. unfold relax.
  rewrite bool_decide_eq_true_2; [|split; [lia|by rewrite Nat2Z.id]].
  rewrite Nat2Z.id.
  destruct (dist_ltb _ _) eqn:E; simpl.
  - rewrite dget_insert, bool_decide_eq_true_2 by done.
    by eapply dist_ltb_finite.
  - destruct (dget st.1 cur) eqn:Ec; [|done].
    destruct (dget st.1 w) eqn:Ew; done.
Qed.

Lemma relax_fold_length cur tv nbs st :
  length (foldl (relax sqrtQ nodes cur tv) st nbs).1 = length st.1.
Proof.
  revert st. induction nbs as [|x nbs IH]; intros st; simpl; [done|].
  by rewrite IH, relax_length.
Qed.

Lemma relax_fold_finite_mono cur tv nbs st v :
  finite (dget st.1 v) → finite (dget (foldl (relax sqrtQ nodes cur tv) st nbs).1 v).
Proof.
  revert st. induction nbs as [|x nbs IH]; intros st Hf; simpl; [done|].
  by apply IH, relax_finite_mono.
Qed.

Lemma relax_fold_changes cur tv nbs st v :
  cur ∉ tv →
  dget (foldl (relax sqrtQ nodes cur tv) st nbs).1 v ≠ dget st.1 v →
  v ∈ tv ∧ Z.of_nat v ∈ nbs ∧ finite (dget st.1 cur).
Proof.
  intros Hcur. revert st. induction nbs as [|x nbs IH]; intros st; simpl; [done|].
  intros Hne.
  destruct (decide (dget (relax sqrtQ nodes cur tv st x).1 v = dget st.1 v))
    as [Heq|Hstep].
  - rewrite <- Heq in Hne. apply IH in Hne as (? & ? & Hf).
    split_and!; [done|by apply elem_of_cons; right|].
    destruct (decide (dget (relax sqrtQ nodes cur tv st x).1 cur = dget st.1 cur))
      as [Hc|Hc]; [by rewrite <- Hc|].
    by apply relax_changes in Hc as (? & _).
  - apply relax_changes in Hstep as (? & <- & ? & _).
    split_and!; [done|by apply elem_of_cons; left|done].
Qed.

Lemma relax_fold_target cur tv nbs st w :
  cur ∉ tv → w ∈ tv → w < length st.1 → Z.of_nat w ∈ nbs →
  finite (dget st.1 cur) →
  finite (dget (foldl (relax sqrtQ nodes cur tv) st nbs).1 w).
Proof.
  intros Hcur Hw. revert st. induction nbs as [|x nbs IH]; intros st Hlt Hin Hf; simpl.
  - by apply elem_of_nil in Hin.
  - apply elem_of_cons in Hin as [<-|Hin].
    + by apply relax_fold_finite_mono, relax_target.
    + apply IH; [by rewrite relax_length|done|].
      by apply relax_finite_mono.
Qed.

Lemma neighbors_edge cur v :
  Z.of_nat v ∈ neighbors edges cur ↔ (Z.of_nat cur, Z.of_nat v) ∈ edges.
Proof.
  unfold neighbors, out_neighbors. rewrite list_elem_of_fmap. split.
  - intros ([a b] & Hv & [Ha Hin]%list_elem_of_filter). simpl in *. by subst.
  - intros Hin. exists (Z.of_nat cur, Z.of_nat v). split; [done|].
    by apply list_elem_of_filter.
Qed.

(** *** The loop invariant *)

Lemma dijkstra_init_inv : dijkstra_inv nodes edges s (dijkstra_init (length nodes) s).
Proof.
  assert (∀ v, dget (<[s:=Fin 0]> (replicate (length nodes) Inf)) v
               = if bool_decide (v = s) then Fin 0 else Inf) as Hget.
  { intros v. rewrite dget_insert, length_replicate.
    repeat case_bool_decide; try done; try (exfalso; naive_solver).
    unfold dget. destruct (replicate _ _ !! v) eqn:E; [|done].
    by apply lookup_replicate in E as [-> _]. }
  split; simpl.
  - by rewrite length_insert, length_replicate.
  - apply NoDup_seq.
  - intros v Hv%elem_of_seq. lia.
  - by rewrite Hget, bool_decide_eq_true_2.
  - intros _ v Hv. by rewrite Hget, bool_decide_eq_false_2.
  - intros v. rewrite Hget. case_bool_decide as Hv; [|done].
    subst v. intros _. apply rtc_refl.
  - intros u w Hu Hf. rewrite Hget in Hf. case_bool_decide; [|done]. subst u.
    exfalso. apply Hu, elem_of_seq. lia.
  - intros u v Hlt Hu. exfalso. apply Hu, elem_of_seq. lia.
Qed.

Lemma dijkstra_step_inv st :
  tovisit st ≠ [] → dijkstra_inv nodes edges s st →
  dijkstra_inv nodes edges s (dijkstra_step sqrtQ nodes edges st)
  ∧ length (tovisit (dijkstra_step sqrtQ nodes edges st)) = length (tovisit st) - 1.
Proof.
  intros Hne [Hlen Hnd Hrange Hsrc Hfirst Hreach Hclosed Hdead].
  unfold dijkstra_step.
  destruct (min_position_spec (dists st) (tovisit st) Hne) as (cur & Hcur & Hallinf).
  rewrite Hcur. simpl.
  set (tv' := delete (min_position (dists st) (tovisit st)) (tovisit st)).
  pose proof (delete_Permutation _ _ _ Hcur) as Hperm. fold tv' in Hperm.
  assert (NoDup (cur :: tv')) as [Hcur' Hnd']%NoDup_cons by by rewrite <- Hperm.
  assert (∀ v, v ∈ tovisit st ↔ v = cur ∨ v ∈ tv') as Hmem.
  { intros v. by rewrite Hperm, elem_of_cons. }
  assert (cur ∈ tovisit st) as Hcurin by (apply Hmem; by left).
  destruct (foldl _ _ _) as [ds' ps'] eqn:E.
  assert (ds' = (foldl (relax sqrtQ nodes cur tv') (dists st, prevs st)
                       (neighbors edges cur)).1) as Hds' by by rewrite E.
  clear E.
  assert (∀ v, dget ds' v ≠ dget (dists st) v →
               v ∈ tv' ∧ Z.of_nat v ∈ neighbors edges cur ∧ finite (dget (dists st) cur))
    as Hchg.
  { intros v. rewrite Hds'. by apply (relax_fold_changes cur tv' _ (dists st, prevs st)). }
  assert (∀ v, finite (dget (dists st) v) → finite (dget ds' v)) as Hmono.
  { intros v. rewrite Hds'. apply (relax_fold_finite_mono cur tv' _ (dists st, prevs st)). }
  assert (∀ v, v ∉ tv' → dget ds' v = dget (dists st) v) as Hsame.
  { intros v Hv. destruct (decide (dget ds' v = dget (dists st) v)) as [|Hd]; [done|].
    by apply Hchg in Hd as (? & _). }
  assert (s ∉ tv') as Hs'.
  { intros Hin. assert (s ∈ tovisit st) as Hs by (apply Hmem; by right).
    assert (cur ≠ s) as Hcs by (intros ->; done).
    pose proof (Hfirst Hs cur Hcs) as Hinf.
    pose proof (Hallinf Hinf s Hs) as Hsinf. congruence. }
  split; [split; simpl|simpl].
  - by rewrite Hds', relax_fold_length.
  - done.
  - intros v Hv. apply Hrange, Hmem. by right.
  - by rewrite Hsame.
  - done.
  - intros v Hf.
    destruct (decide (dget ds' v = dget (dists st) v)) as [Heq|Hd].
    + apply Hreach. by rewrite <- Heq.
    + apply Hchg in Hd as (Hv & Hnb & Hfc).
      eapply rtc_r; [by apply Hreach|]. split.
      * apply Hrange, Hmem. by right.
      * by apply neighbors_edge.
  - intros u w Hu Hf Hstep. rewrite Hsame in Hf by done.
    destruct (decide (u = cur)) as [->|Hucur].
    + destruct (decide (w ∈ tv')) as [Hw|Hw].
      * rewrite Hds'.
        apply (relax_fold_target cur tv' _ (dists st, prevs st)); simpl; try done.
        -- rewrite Hlen. apply Hstep.
        -- apply neighbors_edge, Hstep.
      * apply Hmono. destruct (decide (w = cur)) as [->|Hwcur]; [done|].
        destruct (dget (dists st) w) eqn:Ew; [done|].
        assert (w ∉ tovisit st) as Hwv by (rewrite Hmem; naive_solver).
        pose proof (Hdead w cur (proj1 Hstep) Hwv Ew Hcurin) as Hc.
        rewrite Hc in Hf. done.
    + apply Hmono. eapply Hclosed; [|done..]. rewrite Hmem. naive_solver.
  - intros u v Hlt Hu Hinf Hv. rewrite Hsame in Hinf by done.
    assert (dget (dists st) cur = Inf) as Hc.
    { destruct (decide (u = cur)) as [->|Hucur]; [done|].
      eapply Hdead; [done| |done..]. rewrite Hmem. naive_solver. }
    destruct (decide (dget ds' v = dget (dists st) v)) as [->|Hd].
    + apply Hallinf; [done|]. apply Hmem. by right.
    + apply Hchg in Hd as (_ & _ & Hfc). rewrite Hc in Hfc. done.
  - unfold tv'. apply length_delete. by exists cur.
Qed.

Lemma dijkstra_loop_inv fuel st :
  dijkstra_inv nodes edges s st → length (tovisit st) ≤ fuel →
  dijkstra_inv nodes edges s (dijkstra_loop sqrtQ fuel nodes edges st)
  ∧ tovisit (dijkstra_loop sqrtQ fuel nodes edges st) = [].
Proof.
  revert st. induction fuel as [|fuel IH]; intros st Hinv Hlen; simpl.
  - split; [done|]. destruct (tovisit st); [done|simpl in *; lia].
  - destruct (tovisit st) as [|v tv] eqn:E; [done|].
    destruct (dijkstra_step_inv st) as [Hinv' Hlen']; [by rewrite E|done|].
    apply IH; [done|]. rewrite Hlen', E. simpl in *. lia.
Qed.

(** When the queue is empty the finite distances are those of the points
    the source reaches. *)
Lemma dijkstra_run_spec :
  let final := dijkstra_run sqrtQ nodes edges s in
  tovisit final = []
  ∧ length (dists final) = length nodes
  ∧ dget (dists final) s = Fin 0
  ∧ ∀ p, p < length nodes →
         (dget (dists final) p = Inf ↔ ¬ reachable (length nodes) edges s p).
Proof.
  destruct (dijkstra_loop_inv (length nodes) (dijkstra_init (length nodes) s))
    as [Hinv Hnil].
  { apply dijkstra_init_inv. }
  { simpl. by rewrite length_seq. }
  fold (dijkstra_run sqrtQ nodes edges s) in Hinv, Hnil.
  destruct Hinv as [Hlen Hnd Hrange Hsrc Hfirst Hreach Hclosed Hdead].
  simpl. split_and!; try done.
  intros p Hp. split.
  - intros Hinf Hr. apply not_finite_Inf in Hinf. apply Hinf.
    clear Hinf Hp. revert p Hr.
    apply (rtc_ind_r (λ p, finite (dget (dists (dijkstra_run sqrtQ nodes edges s)) p))).
    + by rewrite Hsrc.
    + intros y z _ Hyz IH. eapply Hclosed; [|done..].
      rewrite Hnil. apply not_elem_of_nil.
  - intros Hnr. apply not_finite_Inf. intros Hf. by apply Hnr, Hreach.
Qed.

End Dijkstra.

Lemma py_index_Ok n i k :
  py_index n i = Ok k →
  (k < n)%nat ∧ (Z.of_nat k = i ∨ Z.of_nat k = i + Z.of_nat n).
Proof.
  unfold py_index. repeat case_bool_decide; intros [= <-]; lia.
Qed.

Lemma py_index_nonneg n i :
  0 ≤ i → py_index n i = if bool_decide (i < Z.of_nat n) then Ok (Z.to_nat i) else Err IndexError.
Proof.
  intros Hi. unfold py_index. repeat case_bool_decide; try done; lia.
Qed.

Lemma existsb_is_inf ds :
  existsb is_inf ds = true ↔ ∃ p, (p < length ds)%nat ∧ dget ds p = Inf.
Proof.
  rewrite existsb_exists. unfold dget. split.
  - intros (d & Hin & Hd). apply list_elem_of_In, list_elem_of_lookup in Hin as [p Hp].
    exists p. split; [by eapply lookup_lt_Some|]. rewrite Hp. by destruct d.
  - intros (p & Hlt & Hp). apply lookup_lt_is_Some in Hlt as [d Hd].
    rewrite Hd in Hp. simpl in Hp. subst d. exists Inf. split; [|done].
    apply list_elem_of_In, list_elem_of_lookup. by exists p.
Qed.

(** C3. For a source index inside the point array, the queue empties, and
    [dijkstra_algorithm] raises exactly when some point's distance is still
    infinite at that moment; a point's distance is then infinite exactly when
    no directed path leads to it from the source. When every point is reached
    the call returns the distance and predecessor arrays of that moment, and
    the distance of the source is 0. *)
Theorem dijkstra_raises_iff_unreachable (sqrtQ : Q → Q) (nodes : list vec)
    (edges : list (Z * Z)) (index : Z) (s : nat) :
  py_index (length nodes) index = Ok s →
  let final := dijkstra_run sqrtQ nodes edges s in
  tovisit final = []
  ∧ (is_Err (dijkstra_algorithm sqrtQ nodes edges index)
     ↔ ∃ p, (p < length nodes)%nat ∧ dget (dists final) p = Inf)
  ∧ (∀ p, (p < length nodes)%nat →
          dget (dists final) p = Inf ↔ ¬ reachable (length nodes) edges s p)
  ∧ ((∀ p, (p < length nodes)%nat → reachable (length nodes) edges s p) →
     dijkstra_algorithm sqrtQ nodes edges index = Ok (dists final, prevs final)
     ∧ dists final !! s = Some (Fin 0)).
Proof.
  intros Hidx final.
  apply py_index_Ok in Hidx as Hs. destruct Hs as [Hs _].
  destruct (dijkstra_run_spec sqrtQ nodes edges s Hs) as (Hnil & Hlen & Hsrc & Hinf).
  fold final in Hnil, Hlen, Hsrc, Hinf.
  assert (is_Err (dijkstra_algorithm sqrtQ nodes edges index)
          ↔ ∃ p, (p < length nodes)%nat ∧ dget (dists final) p = Inf) as Herr.
  { unfold dijkstra_algorithm. rewrite Hidx. simpl. fold final.
    rewrite <- Hlen, <- existsb_is_inf.
    destruct (existsb is_inf (dists final)); simpl; naive_solver. }
  split_and!; [done|done|done|].
  intros Hall.
  assert (existsb is_inf (dists final) = false) as Hex.
  { apply not_true_is_false. rewrite existsb_is_inf, Hlen.
    intros (p & Hp & Hd). apply (Hinf p Hp) in Hd. by apply Hd, Hall. }
  split.
  - unfold dijkstra_algorithm. rewrite Hidx. simpl. fold final. by rewrite Hex.
  - unfold dget in Hsrc. destruct (dists final !! s) as [d|] eqn:E; simpl in Hsrc.
    + by subst d.
    + done.
Qed.

(** The three-point path [chain 3], with the source at its first point. *)
Lemma dijkstra_raises_iff_unreachable_witness :
  py_index (length (chain 3)) 0 = Ok 0%nat
  ∧ tovisit (dijkstra_run isqrtQ (chain 3) (chain_edges 3) 0) = []
  ∧ (is_Err (dijkstra_algorithm isqrtQ (chain 3) (chain_edges 3) 0)
     ↔ ∃ p, (p < length (chain 3))%nat
            ∧ dget (dists (dijkstra_run isqrtQ (chain 3) (chain_edges 3) 0)) p = Inf).
Proof.
  split; [reflexivity|].
  pose proof (dijkstra_raises_iff_unreachable isqrtQ (chain 3) (chain_edges 3) 0 0
                eq_refl) as (H1 & H2 & _).
  exact (conj H1 H2).
Defined.

(** ** Exceptions: inversion lemmas *)

Lemma bind_Ok {A B} (m : result A) (f : A → result B) (b : B) :
  m ≫= f = Ok b → ∃ a, m = Ok a ∧ f a = Ok b.
Proof. destruct m; simpl; [eauto|discriminate]. Qed.

Lemma of_option_Ok {A} (e : error) (o : option A) (a : A) :
  of_option e o = Ok a → o = Some a.
Proof. destruct o; simpl; congruence. Qed.

Tactic Notation "inv_bind" hyp(H) "as" ident(a) ident(Ha) :=
  apply bind_Ok in H as (a & Ha & H).
Tactic Notation "inv_bind" hyp(H) :=
  let a := fresh "a" in
  let Ha := fresh "Hbind" in
  apply bind_Ok in H as (a & Ha & H).

Lemma result_mapM_Ok {A B} (f : A → result B) (l : list A) (ys : list B) :
  result_mapM f l = Ok ys → Forall2 (λ x y, f x = Ok y) l ys.
Proof.
  revert ys. induction l as [|x l IH]; intros ys; simpl.
  - intros [= <-]. constructor.
  - intros H. inv_bind H. inv_bind H. injection H as <-.
    constructor; [done|by apply IH].
Qed.

Lemma result_mapM_total {A B} (f : A → result B) (l : list A) :
  (∀ x, x ∈ l → ∃ y, f x = Ok y) → ∃ ys, result_mapM f l = Ok ys.
Proof.
  induction l as [|x l IH]; intros H; simpl; [by eexists|].
  destruct (H x) as [y Hy]; [by left|]. rewrite Hy. simpl.
  destruct IH as [ys Hys]; [intros; apply H; by right|].
  rewrite Hys. simpl. by eexists.
Qed.

(** ** Junction edges *)

Section Junction.

Local Open Scope nat_scope.

Variable sqrtQ : Q → Q.

Lemma vopp_involutive v : vopp (vopp v) = v.
Proof.
  destruct v as [[[a1 a2] [b1 b2]] [c1 c2]]. unfold vopp, Qopp. simpl.
  by rewrite !Z.opp_involutive.
Qed.

Lemma junction_step_edges bif_id st ipoint st' :
  junction_step bif_id st ipoint = Ok st' →
  length (jedges1 st) = length (jedges2 st) →
  length (jedges1 st') = length (jedges2 st').
Proof.
  unfold junction_step. intros H Hlen.
  repeat (first [ inv_bind H | case_match; simplify_eq/= ]);
    simplify_eq/=; rewrite ?length_app; simpl; try done; lia.
Qed.

Lemma junction_loop_edges bif_id ipoints st st' :
  junction_loop bif_id ipoints st = Ok st' →
  length (jedges1 st) = length (jedges2 st) →
  length (jedges1 st') = length (jedges2 st').
Proof.
  revert st. induction ipoints as [|i ipoints IH]; intros st; simpl.
  - by intros [= <-].
  - intros H Hlen. inv_bind H. eapply IH; [done|].
    by eapply junction_step_edges.
Qed.

(** C6. Whenever [create_junction_edges] returns, its five edge arrays have
    one length, every type tag is 3, and the edge at any position, from [a]
    to [b] with relative position [rel] and distance [d], has a mirror in
    the result: an edge from [b] to [a] with relative position [-rel] and
    the same distance. *)
Theorem junction_edges_mirrored (points : list vec) (bif_id : list Z)
    (edges : list (Z * Z)) (r : jresult) :
  create_junction_edges sqrtQ points bif_id edges = Ok r →
  length (j_edges2 r) = length (j_edges1 r)
  ∧ length (j_rel_position r) = length (j_edges1 r)
  ∧ length (j_distance r) = length (j_edges1 r)
  ∧ j_types r = replicate (length (j_edges1 r)) 3%Z
  ∧ ∀ i a b rel d,
      j_edges1 r !! i = Some a → j_edges2 r !! i = Some b →
      j_rel_position r !! i = Some rel → j_distance r !! i = Some d →
      ∃ k, j_edges1 r !! k = Some b ∧ j_edges2 r !! k = Some a
           ∧ j_rel_position r !! k = Some (vopp rel)
           ∧ j_distance r !! k = Some d.
Proof.
  unfold create_junction_edges. intros H.
  inv_bind H as st Hst. inv_bind H as dd Hdd.
  inv_bind H as feats Hfeats. injection H as <-. simpl.
  apply junction_loop_edges in Hst as Hlen; [|done].
  apply result_mapM_Ok, Forall2_length in Hfeats.
  rewrite length_zip_with in Hfeats.
  set (e1 := jedges1 st) in *. set (e2 := jedges2 st) in *.
  set (rp := fst <$> feats). set (ds := snd <$> feats).
  assert (length rp = length e1) as Hrp by (unfold rp; rewrite length_fmap; lia).
  assert (length ds = length e1) as Hds by (unfold ds; rewrite length_fmap; lia).
  split_and!.
  - rewrite !length_app. lia.
  - rewrite !length_app, length_fmap. lia.
  - rewrite !length_app. lia.
  - done.
  - intros i a b rel d Ha Hb Hrel Hd.
    apply lookup_app_Some in Ha as [Ha|[Hge Ha]].
    + (* a forward edge: its mirror sits [length e1] positions later *)
      apply lookup_lt_Some in Ha as Hlt.
      rewrite lookup_app_l in Hb by lia.
      rewrite lookup_app_l in Hrel by lia.
      rewrite lookup_app_l in Hd by lia.
      exists (length e1 + i). split_and!.
      * rewrite lookup_app_r by lia. by replace (length e1 + i - length e1) with i by lia.
      * rewrite lookup_app_r by lia. by replace (length e1 + i - length e2) with i by lia.
      * rewrite lookup_app_r by lia. replace (length e1 + i - length rp) with i by lia.
        by rewrite list_lookup_fmap, Hrel.
      * rewrite lookup_app_r by lia. by replace (length e1 + i - length ds) with i by lia.
    + (* a mirrored edge: the forward edge is its mirror *)
      apply lookup_lt_Some in Ha as Hlt.
      rewrite lookup_app_r in Hb by lia.
      rewrite lookup_app_r in Hrel by lia.
      rewrite lookup_app_r in Hd by lia.
      rewrite list_lookup_fmap in Hrel.
      destruct (rp !! (i - length rp)) as [rel'|] eqn:Hrel'; [|done].
      injection Hrel as <-.
      exists (i - length e1). split_and!.
      * rewrite lookup_app_l by lia. by rewrite <- Hb, Hlen.
      * rewrite lookup_app_l by lia. done.
      * rewrite lookup_app_l by lia. by rewrite vopp_involutive, <- Hrel', Hrp.
      * rewrite lookup_app_l by lia. by rewrite <- Hd, Hds.
Qed.

Lemma py_get_nat {A} (l : list A) (i : nat) :
  py_get l (Z.of_nat i) = of_option IndexError (l !! i).
Proof.
  unfold py_get. rewrite py_index_nonneg by lia. case_bool_decide as H.
  - simpl. by rewrite Nat2Z.id.
  - simpl. rewrite lookup_ge_None_2; [done|lia].
Qed.

Lemma junction_loop_app bif_id l1 l2 st :
  junction_loop bif_id (l1 ++ l2) st
  = junction_loop bif_id l1 st ≫= junction_loop bif_id l2.
Proof.
  revert st. induction l1 as [|i l1 IH]; intros st; simpl; [done|].
  destruct (junction_step bif_id st i); simpl; [apply IH|done].
Qed.

Lemma junction_scan_S bif_id k :
  junction_scan bif_id (S k)
  = junction_scan bif_id k ≫= λ st, junction_step bif_id st k.
Proof.
  unfold junction_scan. rewrite seq_S, junction_loop_app. simpl.
  destruct (junction_loop _ _ _); simpl; [|done].
  by destruct (junction_step _ _ _).
Qed.

(** What one iteration does to the two masks. *)
Lemma junction_step_masks bif_id st k st' :
  junction_step bif_id st k = Ok st' →
  let fresh := junction_entry bif_id k
               ∧ ∃ bn, bif_id !! S k = Some bn
                       ∧ dict_get (juncts_inlets st) bn = None in
  (fresh ∧ jun_inlet_mask st' = <[k:=1%Z]> (jun_inlet_mask st)
         ∧ jun_mask st' = <[k:=1%Z]> (jun_mask st))
  ∨ (¬ fresh ∧ junction_exit bif_id k
     ∧ jun_inlet_mask st' = jun_inlet_mask st
     ∧ jun_mask st' = <[k:=1%Z]> (jun_mask st))
  ∨ (¬ fresh ∧ ¬ junction_exit bif_id k
     ∧ jun_inlet_mask st' = jun_inlet_mask st
     ∧ jun_mask st' = jun_mask st).
Proof.
  unfold junction_step, enters_junction, changes_junction, leaves_junction,
    bif_at, bif_prev, junction_entry, junction_exit.
  rewrite !py_get_nat. intros H. simpl.
  destruct (bif_id !! k) as [b|] eqn:Hb; simpl in H; [|done].
  destruct (decide (b = (-1)%Z)) as [->|Hbne].
  - (* an ordinary point *)
    rewrite bool_decide_eq_true_2 in H by done.
    destruct (bif_id !! S k) as [bn|] eqn:Hbn; simpl in H; [|done].
    destruct (decide (bn = (-1)%Z)) as [->|Hbnne].
    + rewrite bool_decide_eq_false_2 in H by naive_solver. simpl in H.
      destruct (py_get bif_id (Z.of_nat k - 1)) as [bp|] eqn:Hbp; simpl in H; [|done].
      destruct (decide (bp = (-1)%Z)) as [->|Hbpne].
      * rewrite bool_decide_eq_false_2 in H by naive_solver.
        injection H as <-. right; right. split_and!; try done; naive_solver.
      * rewrite bool_decide_eq_true_2 in H by done.
        destruct (dict_get (juncts_inlets st) bp); simpl in H; [|done].
        injection H as <-. simpl. right; left. split_and!; try done; naive_solver.
    + rewrite bool_decide_eq_true_2 in H by done.
      destruct (dict_get (juncts_inlets st) bn) eqn:Hd.
      * injection H as <-. right; right. split_and!; try done; naive_solver.
      * injection H as <-. simpl. left. split_and!; try done; naive_solver.
  - (* a junction point *)
    rewrite bool_decide_eq_false_2 in H by done. simpl in H.
    destruct (decide (k = 0)) as [->|Hk].
    + rewrite bool_decide_eq_true_2 in H by done.
      destruct (bif_id !! 1) as [bn|] eqn:Hbn; simpl in H; [|done].
      destruct (dict_get (juncts_inlets st) bn) eqn:Hd.
      * injection H as <-. right; right. split_and!; try done; naive_solver.
      * injection H as <-. simpl. left. split_and!; try done; naive_solver.
    + rewrite bool_decide_eq_false_2 in H by done.
      rewrite bool_decide_eq_true_2 in H by done.
      destruct (py_get bif_id (Z.of_nat k - 1)) as [bp|] eqn:Hbp; simpl in H; [|done].
      case_bool_decide.
      * destruct (dict_get (juncts_inlets st) bp); simpl in H; [|done].
        injection H as <-. right; right. split_and!; try done; naive_solver.
      * simpl in H.
        injection H as <-. right; right. split_and!; try done; naive_solver.
Qed.

Lemma recorded_inlet_lt bif_id i : recorded_inlet bif_id i → S i < length bif_id.
Proof. intros [(b & bn & _ & H & _) _]. by eapply lookup_lt_Some. Qed.

Lemma junction_exit_lt bif_id i : junction_exit bif_id i → S i < length bif_id.
Proof. intros (bp & _ & H & _). by eapply lookup_lt_Some. Qed.

Lemma mask_insert_cases (m : list Z) (k i : nat) (P Q : Prop) :
  k < length m →
  (i ≠ k → (m !! i = Some 1%Z ∧ P ∨ m !! i = Some 0%Z ∧ ¬ P)) →
  (i = k → Q) → (i ≠ k → P → Q) → (i ≠ k → Q → P) →
  <[k:=1%Z]> m !! i = Some 1%Z ∧ Q ∨ <[k:=1%Z]> m !! i = Some 0%Z ∧ ¬ Q.
Proof.
  intros Hk Hold Hnew H1 H2. destruct (decide (i = k)) as [->|Hne].
  - left. rewrite list_lookup_insert_eq by done. auto.
  - rewrite list_lookup_insert_ne by done.
    destruct (Hold Hne) as [[? ?]|[? Hn]]; [left; auto|].
    right. split; [done|]. intros HQ. by apply Hn, H2.
Qed.

Lemma mask_same_cases (m : list Z) (i : nat) (P Q : Prop) :
  (m !! i = Some 1%Z ∧ P ∨ m !! i = Some 0%Z ∧ ¬ P) →
  (P → Q) → (Q → P) →
  m !! i = Some 1%Z ∧ Q ∨ m !! i = Some 0%Z ∧ ¬ Q.
Proof. tauto. Qed.

(** The masks after [k] iterations of the scan. *)
Lemma junction_scan_masks bif_id k st :
  k ≤ length bif_id - 1 → junction_scan bif_id k = Ok st →
  length (jun_inlet_mask st) = length bif_id
  ∧ length (jun_mask st) = length bif_id
  ∧ ∀ i, i < length bif_id →
      (jun_inlet_mask st !! i = Some 1%Z ∧ (i < k ∧ recorded_inlet bif_id i)
       ∨ jun_inlet_mask st !! i = Some 0%Z ∧ ¬ (i < k ∧ recorded_inlet bif_id i))
      ∧ (jun_mask st !! i = Some 1%Z
           ∧ (i < k ∧ (recorded_inlet bif_id i ∨ junction_exit bif_id i))
         ∨ jun_mask st !! i = Some 0%Z
           ∧ ¬ (i < k ∧ (recorded_inlet bif_id i ∨ junction_exit bif_id i))).
Proof.
  revert st. induction k as [|k IH]; intros st Hk.
  - intros [= <-]. simpl. rewrite !length_replicate. split_and!; [done..|].
    intros i Hi. rewrite lookup_replicate_2 by done.
    split; right; (split; [done|lia]).
  - rewrite junction_scan_S. intros H. inv_bind H as st0 Hst0.
    destruct (IH st0) as (Hl1 & Hl2 & Hmasks); [lia|done|].
    assert (∀ P : Prop, recorded_inlet bif_id k ↔
              junction_entry bif_id k
              ∧ ∃ bn, bif_id !! S k = Some bn
                      ∧ dict_get (juncts_inlets st0) bn = None) as Hrec.
    { intros _. unfold recorded_inlet. rewrite Hst0. naive_solver. }
    specialize (Hrec True).
    assert (k < length bif_id) as Hklt by lia.
    apply junction_step_masks in H as
      [(Hf & -> & ->)|[(Hf & Hex & -> & ->)|(Hf & Hex & -> & ->)]];
      rewrite <- Hrec in Hf; rewrite ?length_insert;
      (split_and!; [done..|]); intros i Hi; destruct (Hmasks i Hi) as [Hm1 Hm2].
    + split.
      * apply (mask_insert_cases _ k i (i < k ∧ recorded_inlet bif_id i)); [lia|done|..].
        -- intros ->. split; [lia|done].
        -- intros ? [? ?]. split; [lia|done].
        -- intros ? [? ?]. split; [lia|done].
      * apply (mask_insert_cases _ k i
                 (i < k ∧ (recorded_inlet bif_id i ∨ junction_exit bif_id i)));
          [lia|done|..].
        -- intros ->. split; [lia|by left].
        -- intros ? [? ?]. split; [lia|done].
        -- intros ? [? ?]. split; [lia|done].
    + split.
      * apply (mask_same_cases _ i (i < k ∧ recorded_inlet bif_id i)); [done|..].
        -- intros [? ?]. split; [lia|done].
        -- intros [? ?]. destruct (decide (i = k)) as [->|]; [done|]. split; [lia|done].
      * apply (mask_insert_cases _ k i
                 (i < k ∧ (recorded_inlet bif_id i ∨ junction_exit bif_id i)));
          [lia|done|..].
        -- intros ->. split; [lia|by right].
        -- intros ? [? ?]. split; [lia|done].
        -- intros ? [? ?]. split; [lia|done].
    + split.
      * apply (mask_same_cases _ i (i < k ∧ recorded_inlet bif_id i)); [done|..].
        -- intros [? ?]. split; [lia|done].
        -- intros [? ?]. destruct (decide (i = k)) as [->|]; [done|]. split; [lia|done].
      * apply (mask_same_cases _ i
                 (i < k ∧ (recorded_inlet bif_id i ∨ junction_exit bif_id i))); [done|..].
        -- intros [? ?]. split; [lia|done].
        -- intros [? ?]. destruct (decide (i = k)) as [->|]; [tauto|]. split; [lia|done].
Qed.

(** C5 (amended). Whenever [create_junction_edges] returns, both masks have
    one entry per point; the junction-inlet mask is 1 exactly at the
    recorded junction inlets and 0 elsewhere; the junction-all mask is 1
    exactly at the recorded inlets and at the junction exits and 0
    elsewhere, so it is 0 at every junction point that is not a recorded
    inlet. *)
Theorem junction_masks_characterised (points : list vec) (bif_id : list Z)
    (edges : list (Z * Z)) (r : jresult) :
  create_junction_edges sqrtQ points bif_id edges = Ok r →
  length (m_inlets (j_masks r)) = length bif_id
  ∧ length (m_all (j_masks r)) = length bif_id
  ∧ (∀ i, i < length bif_id →
       (m_inlets (j_masks r) !! i = Some 1%Z ∧ recorded_inlet bif_id i
        ∨ m_inlets (j_masks r) !! i = Some 0%Z ∧ ¬ recorded_inlet bif_id i)
       ∧ (m_all (j_masks r) !! i = Some 1%Z
            ∧ (recorded_inlet bif_id i ∨ junction_exit bif_id i)
          ∨ m_all (j_masks r) !! i = Some 0%Z
            ∧ ¬ (recorded_inlet bif_id i ∨ junction_exit bif_id i)))
  ∧ (∀ i b, bif_id !! i = Some b → b ≠ (-1)%Z → ¬ recorded_inlet bif_id i →
            m_all (j_masks r) !! i = Some 0%Z).
Proof.
  unfold create_junction_edges. intros H.
  inv_bind H as st Hst. inv_bind H as dd Hdd.
  inv_bind H as feats Hfeats. injection H as <-. simpl.
  destruct (junction_scan_masks bif_id (length bif_id - 1) st) as (Hl1 & Hl2 & Hm);
    [done..|].
  assert (∀ i, i < length bif_id →
       (jun_inlet_mask st !! i = Some 1%Z ∧ recorded_inlet bif_id i
        ∨ jun_inlet_mask st !! i = Some 0%Z ∧ ¬ recorded_inlet bif_id i)
       ∧ (jun_mask st !! i = Some 1%Z
            ∧ (recorded_inlet bif_id i ∨ junction_exit bif_id i)
          ∨ jun_mask st !! i = Some 0%Z
            ∧ ¬ (recorded_inlet bif_id i ∨ junction_exit bif_id i))) as Hm'.
  { intros i Hi. destruct (Hm i Hi) as [Hm1 Hm2]. split.
    - destruct Hm1 as [[? [? ?]]|[? Hn]]; [by left|]. right. split; [done|].
      intros Hr. apply Hn. split; [|done]. apply recorded_inlet_lt in Hr. lia.
    - destruct Hm2 as [[? [? ?]]|[? Hn]]; [by left|]. right. split; [done|].
      intros Hr. apply Hn. split; [|done].
      destruct Hr as [Hr%recorded_inlet_lt|Hr%junction_exit_lt]; lia. }
  split_and!; [done..|].
  intros i b Hb Hbne Hnr. apply lookup_lt_Some in Hb as Hi.
  destruct (Hm' i Hi) as [_ [[_ [?|Hex]]|[? _]]]; [done| |done].
  destruct Hex as (bp & Hb' & _). congruence.
Qed.

End Junction.

(** ** Order and equality on floats *)

Lemma Qltb_lt x y : Qltb x y = true ↔ (x < y)%Q.
Proof.
  unfold Qltb. rewrite negb_true_iff, <- not_true_iff_false, Qle_bool_iff.
  split; [apply Qnot_le_lt|apply Qlt_not_le].
Qed.

Lemma Qltb_ge x y : Qltb x y = false ↔ (y <= x)%Q.
Proof.
  unfold Qltb. by rewrite negb_false_iff, Qle_bool_iff.
Qed.

Lemma dist_ltb_irrefl a : dist_ltb a a = false.
Proof. destruct a; simpl; [|done]. apply Qltb_ge, Qle_refl. Qed.

Lemma dist_lt_le_trans a r x :
  dist_ltb a r = true → dist_ltb x r = false → dist_ltb a x = true.
Proof.
  destruct a as [a|], r as [r|], x as [x|]; simpl; try done.
  rewrite !Qltb_lt, Qltb_ge. intros. by eapply Qlt_le_trans.
Qed.

Lemma dist_eqb_refl a : dist_eqb a a = true.
Proof. destruct a; simpl; [|done]. by apply Qeq_bool_iff. Qed.

Lemma dist_eqb_ltb_r a b c :
  dist_eqb a b = true → dist_ltb c a = dist_ltb c b.
Proof.
  destruct a as [a|], b as [b|], c as [c|]; simpl; try done.
  intros H%Qeq_bool_iff. unfold Qltb. f_equal.
  apply eq_true_iff_eq. rewrite !Qle_bool_iff. by rewrite H.
Qed.

Lemma dist_eqb_ltb_l a b c :
  dist_eqb a b = true → dist_ltb a c = dist_ltb b c.
Proof.
  destruct a as [a|], b as [b|], c as [c|]; simpl; try done.
  intros H%Qeq_bool_iff. unfold Qltb. f_equal.
  apply eq_true_iff_eq. rewrite !Qle_bool_iff. by rewrite H.
Qed.

Lemma dist_eqb_trans a b c :
  dist_eqb a b = true → dist_eqb b c = true → dist_eqb a c = true.
Proof.
  destruct a as [a|], b as [b|], c as [c|]; simpl; try done.
  rewrite !Qeq_bool_iff. intros -> ->. reflexivity.
Qed.

Lemma dist_eqb_sym a b : dist_eqb a b = dist_eqb b a.
Proof.
  destruct a as [a|], b as [b|]; simpl; try done.
  apply eq_true_iff_eq. rewrite !Qeq_bool_iff. split; intros H; by symmetry.
Qed.

(** [np.min]: the result is an entry, and no entry is below it. *)
Lemma foldl_dist_min x l :
  foldl dist_min x l ∈ x :: l
  ∧ ∀ y, y ∈ x :: l → dist_ltb y (foldl dist_min x l) = false.
Proof.
  revert x. induction l as [|z l IH]; intros x; simpl.
  - split; [by left|]. intros y ->%list_elem_of_singleton.
    apply dist_ltb_irrefl.
  - destruct (IH (dist_min x z)) as [Hin Hmin]. split.
    + apply elem_of_cons in Hin as [->|Hin].
      * unfold dist_min. case_match; [right; left|left]; done.
      * by do 2 right.
    + assert (dist_ltb x (dist_min x z) = false ∧ dist_ltb z (dist_min x z) = false)
        as [Hx Hz].
      { unfold dist_min. destruct (dist_ltb z x) eqn:E.
        - split; [|apply dist_ltb_irrefl].
          destruct (dist_ltb x z) eqn:E'; [|done].
          destruct x as [x|], z as [z|]; simpl in *; try done.
          apply Qltb_lt in E, E'. exfalso. eapply Qlt_irrefl, Qlt_trans; done.
        - split; [apply dist_ltb_irrefl|done]. }
      assert (∀ a, dist_ltb a (dist_min x z) = false →
                   dist_ltb a (foldl dist_min (dist_min x z) l) = false) as Hle.
      { intros a Ha. apply not_true_is_false. intros Hlt.
        eapply dist_lt_le_trans in Hlt; [|apply Hmin; by left]. congruence. }
      intros y [->|[->|Hy]%elem_of_cons]%elem_of_cons; [by apply Hle..|].
      apply Hmin. by right.
Qed.

Lemma np_min_Ok l m :
  np_min l = Ok m → m ∈ l ∧ ∀ y, y ∈ l → dist_ltb y m = false.
Proof.
  destruct l as [|x l]; simpl; [done|]. intros [= <-]. apply foldl_dist_min.
Qed.

(** ** numpy helpers: positions *)

Lemma np_where_from_head {A} (p : A → bool) (k0 : nat) (l : list A) (k : nat) :
  head (np_where_from p k0 l) = Some k →
  ∃ j x, k = (k0 + j)%nat ∧ l !! j = Some x ∧ p x = true
         ∧ ∀ j' y, (j' < j)%nat → l !! j' = Some y → p y = false.
Proof.
  revert k0. induction l as [|x l IH]; intros k0; simpl; [done|].
  destruct (p x) eqn:E; simpl.
  - intros [= <-]. exists 0%nat, x. split_and!; [lia|done..|]. intros; lia.
  - intros (j & y & -> & Hj & Hp & Hfirst)%IH.
    exists (S j), y. split_and!; [lia|done..|].
    intros [|j'] y' Hlt; simpl; [by intros [= <-]|].
    apply Hfirst. lia.
Qed.

Lemma np_where_head {A} (p : A → bool) (l : list A) (k : nat) :
  head (np_where p l) = Some k →
  ∃ x, l !! k = Some x ∧ p x = true
       ∧ ∀ j' y, (j' < k)%nat → l !! j' = Some y → p y = false.
Proof.
  intros (j & x & -> & ?)%np_where_from_head. by exists x.
Qed.

Lemma filter_delete_at_from_none {A} (P : A → Prop) `{!∀ x, Decision (P x)}
    (ks : list nat) (k0 : nat) (l : list A) :
  (∀ j y, l !! j = Some y → P y → (k0 + j)%nat ∈ ks) →
  filter P (delete_at_from ks k0 l) = [].
Proof.
  revert k0. induction l as [|x l IH]; intros k0 Hall; simpl; [done|].
  assert (filter P (delete_at_from ks (S k0) l) = []) as Hrest.
  { apply IH. intros j y Hj Hy. replace (S k0 + j)%nat with (k0 + S j)%nat by lia.
    by apply (Hall (S j) y). }
  case_bool_decide as Hk; [done|].
  rewrite filter_cons. case_decide as HP; [|done].
  exfalso. apply Hk. replace k0 with (k0 + 0)%nat by lia. by apply (Hall 0%nat x).
Qed.

Lemma filter_delete_at_from_single {A} (P : A → Prop) `{!∀ x, Decision (P x)}
    (ks : list nat) (k0 : nat) (l : list A) (keep : nat) (x : A) :
  l !! keep = Some x → P x → (k0 + keep)%nat ∉ ks →
  (∀ j y, l !! j = Some y → P y → j ≠ keep → (k0 + j)%nat ∈ ks) →
  filter P (delete_at_from ks k0 l) = [x].
Proof.
  revert k0 keep. induction l as [|z l IH]; intros k0 keep Hx HP Hkeep Hall; simpl; [done|].
  destruct keep as [|keep]; simpl in Hx.
  - injection Hx as ->. rewrite Nat.add_0_r in Hkeep.
    rewrite bool_decide_eq_false_2 by done.
    rewrite filter_cons, decide_True by done. f_equal.
    apply filter_delete_at_from_none. intros j y Hj Hy.
    replace (S k0 + j)%nat with (k0 + S j)%nat by lia. by apply (Hall (S j) y).
  - assert (filter P (delete_at_from ks (S k0) l) = [x]) as Hrest.
    { apply (IH _ keep); [done..| |].
      - by replace (S k0 + keep)%nat with (k0 + S keep)%nat by lia.
      - intros j y Hj Hy Hne. replace (S k0 + j)%nat with (k0 + S j)%nat by lia.
        apply (Hall (S j) y); [done..|lia]. }
    case_bool_decide as Hk; [done|].
    rewrite filter_cons. case_decide as HPz; [|done].
    exfalso. apply Hk. replace k0 with (k0 + 0)%nat by lia. by apply (Hall 0%nat z).
Qed.

(** ** Lists laid out in blocks of one length *)

Section Blocks.

Local Open Scope nat_scope.
Context {A : Type}.

Lemma concat_uniform_length (bs : list (list A)) (n : nat) :
  Forall (λ b, length b = n) bs → length (concat bs) = length bs * n.
Proof.
  induction 1 as [|b bs Hb _ IH]; simpl; [done|]. rewrite length_app. lia.
Qed.

Lemma concat_uniform_lookup (bs : list (list A)) (n k i : nat) (b : list A) :
  Forall (λ b, length b = n) bs → bs !! k = Some b → i < n →
  concat bs !! (k * n + i) = b !! i.
Proof.
  intros Hall. revert k. induction Hall as [|b0 bs Hb _ IH]; intros k Hk Hi; [done|].
  destruct k as [|k]; simpl in *.
  - injection Hk as ->. rewrite lookup_app_l by lia. done.
  - rewrite lookup_app_r by lia.
    replace (n + k * n + i - length b0) with (k * n + i) by lia. by apply IH.
Qed.

Lemma filter_fmap_seq_all (f : nat → nat) (P : nat → Prop) `{!∀ x, Decision (P x)} a len :
  (∀ k, a ≤ k < a + len → P (f k)) → filter P (f <$> seq a len) = f <$> seq a len.
Proof.
  revert a. induction len as [|len IH]; intros a Hall; simpl; [done|].
  rewrite filter_cons_True by (apply Hall; lia). f_equal. apply IH. intros; apply Hall; lia.
Qed.

Lemma filter_fmap_seq_none (f : nat → nat) (P : nat → Prop) `{!∀ x, Decision (P x)} a len :
  (∀ k, a ≤ k < a + len → ¬ P (f k)) → filter P (f <$> seq a len) = [].
Proof.
  revert a. induction len as [|len IH]; intros a Hall; simpl; [done|].
  rewrite filter_cons_False by (apply Hall; lia). apply IH. intros; apply Hall; lia.
Qed.

Lemma omap_fmap_seq (g : nat → option A) (f : nat → nat) (h : nat → A) a len :
  (∀ k, a ≤ k < a + len → g (f k) = Some (h k)) →
  omap g (f <$> seq a len) = h <$> seq a len.
Proof.
  revert a. induction len as [|len IH]; intros a Hall; simpl; [done|].
  rewrite Hall by lia. f_equal. apply IH. intros; apply Hall; lia.
Qed.

End Blocks.

Lemma column_unique (n i i' k k' : nat) :
  (i < n)%nat → (i' < n)%nat → (i + k * n = i' + k' * n)%nat → i = i'.
Proof.
  intros Hi Hi' Heq.
  assert ((i + k * n) `mod` n = (i' + k' * n) `mod` n)%nat as Hmod by by rewrite Heq.
  by rewrite !Nat.Div0.mod_add, !Nat.mod_small in Hmod.
Qed.

(** The positions of column [i] in [m] blocks of length [n]. *)
Lemma stride_positions_blocks (m n i : nat) :
  (i < n)%nat →
  stride_positions (m * n) i n = (λ k, (i + k * n)%nat) <$> seq 0 m.
Proof.
  intros Hi. unfold stride_positions.
  assert (seq 0 (m * n) = seq 0 m ++ seq m (m * n - m)) as ->.
  { change (seq m (m * n - m)) with (seq (0 + m) (m * n - m)).
    rewrite <- seq_app. f_equal. nia. }
  rewrite fmap_app, filter_app.
  rewrite filter_fmap_seq_all, filter_fmap_seq_none.
  - by rewrite app_nil_r.
  - intros k Hk. simpl in *. nia.
  - intros k Hk. simpl in *. nia.
Qed.

Lemma elem_of_concat {A} (x : A) (ls : list (list A)) :
  x ∈ concat ls ↔ ∃ l, l ∈ ls ∧ x ∈ l.
Proof.
  induction ls as [|l ls IH]; simpl.
  - split; [by intros ?%elem_of_nil|]. by intros (l & ?%elem_of_nil & _).
  - rewrite elem_of_app, IH. split.
    + intros [?|(l' & ? & ?)]; [exists l; split; [by left|done]|].
      exists l'. split; [by right|done].
    + intros (l' & [->|?]%elem_of_cons & ?); [by left|]. right. by exists l'.
Qed.

(** ** Boundary edges *)

Section Boundary.

Local Open Scope nat_scope.

Variable sqrtQ : Q → Q.
Variable points : list vec.
Variable ind : indices.
Variable edges : list (Z * Z).

Lemma boundary_rows_Ok index block :
  boundary_rows sqrtQ points ind edges index = Ok block →
  ∃ d ps, dijkstra_algorithm sqrtQ points edges index = Ok (d, ps)
    ∧ length block = length points
    ∧ ∀ i, i < length points →
        ∃ p q, points !! i = Some p ∧ py_get points index = Ok q
               ∧ block !! i = Some (boundary_row sqrtQ ind index d i p q).
Proof.
  unfold boundary_rows. intros H. inv_bind H as dp Hdp. destruct dp as [d ps].
  apply result_mapM_Ok in H. exists d, ps. split; [done|]. split.
  - apply Forall2_length in H. by rewrite length_seq in H.
  - intros i Hi.
    destruct (Forall2_lookup_l _ _ _ i i H) as (r & Hr & Hf); [by apply lookup_seq_lt|].
    simpl in Hf. inv_bind Hf as p Hp. inv_bind Hf as q Hq. injection Hf as <-.
    apply of_option_Ok in Hp. eauto.
Qed.

(** Every position a point contributes to [edges_to_delete] lies in the
    point's own column. *)
Lemma point_deletions_column rows n i del pos :
  point_deletions rows n i = Ok del → pos ∈ del → ∃ k, pos = i + k * n.
Proof.
  unfold point_deletions. intros H Hpos.
  inv_bind H as mn Hmn. inv_bind H as minidx Hminidx. injection H as <-.
  apply elem_of_app in Hpos as [Hpos|Hpos].
  - case_match; [|by apply elem_of_nil in Hpos].
    apply list_elem_of_singleton in Hpos. by exists minidx.
  - apply list_elem_of_filter in Hpos as [_ Hpos].
    unfold stride_positions in Hpos.
    apply list_elem_of_filter in Hpos as [_ Hpos].
    apply list_elem_of_fmap in Hpos as (k & -> & _). by exists k.
Qed.

(** What the rows returned are, point by point. *)
Lemma boundary_edges_spec (rows : list bedge) :
  generate_boundary_edges sqrtQ points ind edges = Ok rows →
  let idxs := inlet ind ++ outlets ind in
  (∀ index, index ∈ idxs →
     ∃ d ps, dijkstra_algorithm sqrtQ points edges index = Ok (d, ps))
  ∧ ∀ ipoint, ipoint < length points →
      ∃ k index d ps p q,
        idxs !! k = Some index
        ∧ dijkstra_algorithm sqrtQ points edges index = Ok (d, ps)
        ∧ points !! ipoint = Some p ∧ py_get points index = Ok q
        ∧ (∀ index' d' ps', index' ∈ idxs →
             dijkstra_algorithm sqrtQ points edges index' = Ok (d', ps') →
             dist_ltb (dget d' ipoint) (dget d ipoint) = false)
        ∧ (∀ j index' d' ps', j < k → idxs !! j = Some index' →
             dijkstra_algorithm sqrtQ points edges index' = Ok (d', ps') →
             dist_eqb (dget d ipoint) (dget d' ipoint) = false)
        ∧ filter (λ r, b_dst r = ipoint) rows
          = if dist_ltb (dget d ipoint) (Fin tol12) then []
            else [boundary_row sqrtQ ind index d ipoint p q].
Proof.
  intros H idxs. unfold generate_boundary_edges in H. fold idxs in H.
  inv_bind H as blocks Hblocks. inv_bind H as dels Hdels. injection H as <-.
  apply result_mapM_Ok in Hblocks, Hdels.
  set (n := length points) in *. set (m := length idxs).
  set (all := concat blocks) in *.
  assert (Forall (λ b, length b = n) blocks) as Hunif.
  { apply Forall_lookup. intros k b Hb.
    destruct (Forall2_lookup_r _ _ _ _ _ Hblocks Hb) as (index & _ & Hrows).
    by apply boundary_rows_Ok in Hrows as (? & ? & _ & ? & _). }
  assert (length all = m * n) as Hlen.
  { unfold all. rewrite (concat_uniform_length _ n) by done.
    by rewrite <- (Forall2_length _ _ _ Hblocks). }
  assert (∀ k index i, idxs !! k = Some index → i < n →
            ∃ d ps p q, dijkstra_algorithm sqrtQ points edges index = Ok (d, ps)
              ∧ points !! i = Some p ∧ py_get points index = Ok q
              ∧ all !! (k * n + i) = Some (boundary_row sqrtQ ind index d i p q))
    as Hcell.
  { intros k index i Hk Hi.
    destruct (Forall2_lookup_l _ _ _ _ _ Hblocks Hk) as (block & Hb & Hrows).
    apply boundary_rows_Ok in Hrows as (d & ps & Hd & _ & Hrow).
    destruct (Hrow i Hi) as (p & q & Hp & Hq & Hr).
    exists d, ps, p, q. split_and!; [done..|].
    unfold all. by rewrite (concat_uniform_lookup _ n k i block). }
  split.
  { intros index (k & Hk)%list_elem_of_lookup.
    destruct (Forall2_lookup_l _ _ _ _ _ Hblocks Hk) as (block & _ & Hrows).
    apply boundary_rows_Ok in Hrows as (d & ps & Hd & _). eauto. }
  intros ipoint Hi.
  destruct (Forall2_lookup_l _ _ _ ipoint ipoint Hdels) as (del & Hdel & Hpd);
    [by apply lookup_seq_lt|].
  pose proof Hpd as Hpd0.
  unfold point_deletions in Hpd.
  rewrite Hlen, stride_positions_blocks in Hpd by done.
  set (h := λ k, default Inf (b_dist <$> all !! (ipoint + k * n))) in *.
  rewrite (omap_fmap_seq _ _ h) in Hpd.
  2:{ intros k Hk. unfold h.
      destruct (lookup_lt_is_Some_2 all (ipoint + k * n)) as [r ->]; [|done].
      rewrite Hlen. nia. }
  inv_bind Hpd as mn Hmn. inv_bind Hpd as minidx Hminidx. injection Hpd as Hdeleq.
  apply np_min_Ok in Hmn as [_ Hmin].
  apply of_option_Ok, np_where_head in Hminidx as (c & Hc & Heq & Hfirst).
  rewrite list_lookup_fmap in Hc.
  destruct (seq 0 m !! minidx) as [k'|] eqn:Hseq; [|done].
  apply lookup_seq in Hseq as [-> Hlt]. simpl in Hc, Hlt. injection Hc as <-.
  destruct (lookup_lt_is_Some_2 idxs minidx Hlt) as [index Hindex].
  destruct (Hcell minidx index ipoint Hindex Hi) as (d & ps & p & q & Hd & Hp & Hq & Hrow).
  assert (∀ j index' d' ps', idxs !! j = Some index' →
            dijkstra_algorithm sqrtQ points edges index' = Ok (d', ps') →
            h j = dget d' ipoint) as Hh.
  { intros j index' d' ps' Hj Hd'.
    destruct (Hcell j index' ipoint Hj Hi) as (d'' & ps'' & p'' & q'' & Hd'' & _ & _ & Hr).
    rewrite Hd' in Hd''. injection Hd'' as <- <-.
    unfold h. replace (ipoint + j * n) with (j * n + ipoint) by lia. by rewrite Hr. }
  assert (∀ j, j < m → (h <$> seq 0 m) !! j = Some (h j)) as Hcur.
  { intros j Hj. by rewrite list_lookup_fmap, lookup_seq_lt. }
  pose proof (Hh minidx index d ps Hindex Hd) as Hhmin.
  exists minidx, index, d, ps, p, q.
  split_and!; [done..| | |]; rewrite <- Hhmin.
  - intros index' d' ps' (j & Hj)%list_elem_of_lookup Hd'.
    rewrite <- (Hh j index' d' ps' Hj Hd').
    rewrite <- (dist_eqb_ltb_r _ _ _ Heq). apply Hmin.
    apply list_elem_of_lookup. exists j. apply Hcur. by eapply lookup_lt_Some.
  - intros j index' d' ps' Hjlt Hj Hd'.
    rewrite <- (Hh j index' d' ps' Hj Hd').
    apply not_true_is_false. intros Heq'.
    assert (dist_eqb mn (h j) = true) as Hmj by by eapply dist_eqb_trans.
    rewrite (Hfirst j (h j)) in Hmj; [done|done|]. apply Hcur. lia.
  - rewrite <- (dist_eqb_ltb_l _ _ _ Heq).
    set (keep := ipoint + minidx * n) in *.
    assert (all !! keep = Some (boundary_row sqrtQ ind index d ipoint p q)) as Hkeep.
    { unfold keep. by rewrite Nat.add_comm. }
    assert (∀ pos, pos ∈ concat dels → (∃ k, pos = ipoint + k * n) → pos ∈ del)
      as Hown.
    { intros pos (del' & Hdel' & Hpos)%elem_of_concat (k & ->).
      apply list_elem_of_lookup in Hdel' as (i & Hdel').
      destruct (Forall2_lookup_r _ _ _ _ _ Hdels Hdel') as (i' & Hi' & Hpd').
      apply lookup_seq in Hi' as [-> Hilt]. simpl in *.
      destruct (point_deletions_column _ _ _ _ _ Hpd' Hpos) as (k' & Hk').
      assert (i = ipoint) as -> by (symmetry; by eapply (column_unique n)).
      rewrite Hpd0 in Hpd'. by injection Hpd' as <-. }
    assert (∀ j y, all !! j = Some y → b_dst y = ipoint → j ≠ keep →
                   j ∈ concat dels) as Hothers.
    { intros j y Hj Hy Hne.
      apply lookup_lt_Some in Hj as Hjlt. rewrite Hlen in Hjlt.
      assert (0 < n) as Hn by lia.
      assert (j `div` n < m) as Hk by (apply Nat.Div0.div_lt_upper_bound; lia).
      pose proof (Nat.mod_upper_bound j n ltac:(lia)) as Hmod.
      pose proof (Nat.div_mod_eq j n) as Hdm.
      destruct (lookup_lt_is_Some_2 idxs (j `div` n) Hk) as [index' Hindex'].
      destruct (Hcell _ index' (j `mod` n) Hindex' Hmod)
        as (d' & ps' & p' & q' & _ & _ & _ & Hr).
      replace (j `div` n * n + j `mod` n) with j in Hr by lia.
      rewrite Hj in Hr. injection Hr as ->. simpl in Hy.
      apply elem_of_concat. exists del. split; [by eapply list_elem_of_lookup_2|].
      rewrite <- Hdeleq. apply elem_of_app. right.
      apply list_elem_of_filter. split; [done|].
      apply list_elem_of_fmap. exists (j `div` n). split; [lia|].
      apply elem_of_seq. lia. }
    destruct (dist_ltb mn (Fin tol12)) eqn:Htol.
    + apply filter_delete_at_from_none. intros j y Hj Hy. simpl.
      destruct (decide (j = keep)) as [->|Hne]; [|by eapply Hothers].
      apply elem_of_concat. exists del. split; [by eapply list_elem_of_lookup_2|].
      rewrite <- Hdeleq. apply elem_of_app. left. apply list_elem_of_here.
    + apply (filter_delete_at_from_single _ _ _ _ keep); [done|done| |].
      * simpl. intros Hin. apply Hown in Hin; [|by exists minidx].
        rewrite <- Hdeleq in Hin. simpl in Hin.
        by apply list_elem_of_filter in Hin as [? _].
      * intros j y Hj Hy Hne. simpl. by eapply Hothers.
Qed.


(** A successful Dijkstra run had its source inside the array. *)
Lemma dijkstra_Ok_source index r :
  dijkstra_algorithm sqrtQ points edges index = Ok r →
  ∃ q, py_get points index = Ok q.
Proof.
  unfold dijkstra_algorithm, py_get. intros H. inv_bind H as s0 Hs.
  rewrite Hs. simpl. apply py_index_Ok in Hs as [Hs _].
  destruct (lookup_lt_is_Some_2 points s0 Hs) as [q ->]. by exists q.
Qed.

Lemma boundary_rows_total index d ps :
  dijkstra_algorithm sqrtQ points edges index = Ok (d, ps) →
  ∃ block, boundary_rows sqrtQ points ind edges index = Ok block.
Proof.
  intros Hd. unfold boundary_rows. rewrite Hd. simpl.
  destruct (dijkstra_Ok_source _ _ Hd) as [q Hq].
  apply result_mapM_total. intros i Hi%elem_of_seq.
  destruct (lookup_lt_is_Some_2 points i) as [p Hp]; [lia|].
  rewrite Hp, Hq. simpl. by eexists.
Qed.

Lemma np_where_from_head_total {A} (p : A → bool) (k0 : nat) (l : list A) (x : A) :
  x ∈ l → p x = true → ∃ k, head (np_where_from p k0 l) = Some k.
Proof.
  revert k0. induction l as [|y l IH]; intros k0 Hin Hp; [by apply elem_of_nil in Hin|].
  simpl. destruct (p y) eqn:E; [by eexists|].
  apply elem_of_cons in Hin as [->|Hin]; [congruence|]. by apply IH.
Qed.

Lemma point_deletions_total (all : list bedge) (m n i : nat) :
  length all = m * n → 0 < m → i < n →
  ∃ del, point_deletions all n i = Ok del.
Proof.
  intros Hlen Hm Hi. unfold point_deletions.
  rewrite Hlen, stride_positions_blocks by done.
  rewrite (omap_fmap_seq _ _ (λ k, default Inf (b_dist <$> all !! (i + k * n)))).
  2:{ intros k Hk.
      destruct (lookup_lt_is_Some_2 all (i + k * n)) as [r ->]; [|done].
      rewrite Hlen. nia. }
  set (cur := (λ k, default Inf (b_dist <$> all !! (i + k * n))) <$> seq 0 m).
  destruct (np_min cur) as [mn|] eqn:Hmn.
  - simpl. apply np_min_Ok in Hmn as [Hin _].
    destruct (np_where_from_head_total (dist_eqb mn) 0 cur mn Hin (dist_eqb_refl _))
      as [k Hk].
    unfold first_equal, np_where. rewrite Hk. simpl. by eexists.
  - assert (length cur = m) as Hcur by (unfold cur; by rewrite length_fmap, length_seq).
    destruct cur; simpl in *; [lia|done].
Qed.

(** C4. When there is a boundary point and every Dijkstra run from a
    boundary point succeeds, [generate_boundary_edges] returns and, for every
    point, the boundary points include a first one of least shortest-path
    distance to the point: no boundary point is closer, and none before it in
    the boundary list is as close. The rows retained for the point are the
    single row of that boundary point, or no row at all when its distance is
    below 1e-12. *)
Theorem boundary_edges_closest :
  let idxs := inlet ind ++ outlets ind in
  idxs ≠ [] →
  (∀ index, index ∈ idxs →
     ∃ d ps, dijkstra_algorithm sqrtQ points edges index = Ok (d, ps)) →
  ∃ rows,
    generate_boundary_edges sqrtQ points ind edges = Ok rows
    ∧ ∀ ipoint, ipoint < length points →
        ∃ k index d ps p q,
          idxs !! k = Some index
          ∧ dijkstra_algorithm sqrtQ points edges index = Ok (d, ps)
          ∧ points !! ipoint = Some p ∧ py_get points index = Ok q
          ∧ (∀ index' d' ps', index' ∈ idxs →
               dijkstra_algorithm sqrtQ points edges index' = Ok (d', ps') →
               dist_ltb (dget d' ipoint) (dget d ipoint) = false)
          ∧ (∀ j index' d' ps', j < k → idxs !! j = Some index' →
               dijkstra_algorithm sqrtQ points edges index' = Ok (d', ps') →
               dist_eqb (dget d ipoint) (dget d' ipoint) = false)
          ∧ filter (λ r, b_dst r = ipoint) rows
            = if dist_ltb (dget d ipoint) (Fin tol12) then []
              else [boundary_row sqrtQ ind index d ipoint p q].
Proof.
  intros idxs Hne Hall.
  destruct (result_mapM_total (boundary_rows sqrtQ points ind edges) idxs)
    as [blocks Hblocks].
  { intros index (d & ps & Hd)%Hall. by eapply boundary_rows_total. }
  assert (length (concat blocks) = length idxs * length points) as Hlen.
  { apply result_mapM_Ok in Hblocks as HF.
    rewrite (concat_uniform_length _ (length points)).
    - by rewrite <- (Forall2_length _ _ _ HF).
    - apply Forall_lookup. intros k b Hb.
      destruct (Forall2_lookup_r _ _ _ _ _ HF Hb) as (index & _ & Hrows).
      by apply boundary_rows_Ok in Hrows as (? & ? & _ & ? & _). }
  destruct (result_mapM_total (point_deletions (concat blocks) (length points))
              (seq 0 (length points))) as [dels Hdels].
  { intros i Hi%elem_of_seq. apply (point_deletions_total _ (length idxs)); [done| |lia].
    destruct idxs; simpl; [done|lia]. }
  assert (generate_boundary_edges sqrtQ points ind edges
          = Ok (delete_at (concat dels) (concat blocks))) as Hgen.
  { unfold generate_boundary_edges. fold idxs. rewrite Hblocks. simpl.
    by rewrite Hdels. }
  eexists. split; [exact Hgen|].
  by destruct (boundary_edges_spec _ Hgen) as [_ ?].
Qed.

End Boundary.

(** ** float64 rounding *)

Lemma round_half_even_ge (y : Q) (w : Z) :
  (inject_Z w <= y)%Q → w ≤ round_half_even y.
Proof.
  intros H. apply Qfloor_resp_le in H. rewrite Qfloor_Z in H.
  unfold round_half_even. destruct (_ ?= _)%Q; [destruct (Z.even _)|..]; lia.
Qed.

Lemma round_half_even_le (y : Q) (w : Z) :
  (y <= inject_Z w)%Q → round_half_even y ≤ w.
Proof.
  intros H.
  assert (Qfloor y ≤ w) as Hf.
  { apply Qfloor_resp_le in H. by rewrite Qfloor_Z in H. }
  assert ((0 < y - inject_Z (Qfloor y))%Q → Qfloor y + 1 ≤ w) as Hup.
  { intros Hpos. cut (Qfloor y < w); [lia|]. rewrite Zlt_Qlt.
    apply Qlt_le_trans with y; [|done].
    apply Qlt_minus_iff. exact Hpos. }
  unfold round_half_even.
  destruct (_ ?= _)%Q eqn:Hc; [|done|].
  - apply Qeq_alt in Hc. destruct (Z.even _); [done|]. apply Hup. by rewrite Hc.
  - apply Qgt_alt in Hc. apply Hup. by apply Qlt_trans with (1 # 2)%Q.
Qed.

Lemma pow2_nonpos (e : Z) :
  e ≤ 0 → (pow2 e == / inject_Z (2 ^ (- e)))%Q.
Proof.
  intros He. unfold pow2. case_bool_decide; [|reflexivity].
  by replace e with 0 by lia.
Qed.

(** Below [2^53] the spacing of the float64 grid is at most 1. *)
Lemma float64_exponent_nonpos (x : Q) :
  (0 < x)%Q → (x < inject_Z (2 ^ 53))%Q → log2_floor x - 52 ≤ 0.
Proof.
  destruct x as [n d]. unfold Qlt, log2_floor. cbn [Qnum Qden inject_Z].
  intros Hpos Hlt. rewrite Z.mul_1_r in Hpos, Hlt.
  pose proof (Z.log2_spec n Hpos) as [Hn _].
  pose proof (Z.log2_spec (Zpos d) (Pos2Z.is_pos d)) as [_ Hd].
  pose proof (Z.log2_nonneg n). pose proof (Z.log2_nonneg (Zpos d)).
  set (a := Z.log2 n) in *. set (b := Z.log2 (Zpos d)) in *.
  assert (a - b ≤ 53) as Hk.
  { destruct (decide (a - b ≤ 53)) as [|Hbig]; [done|]. exfalso.
    assert (2 ^ 53 * 2 ^ Z.succ b ≤ 2 ^ a).
    { rewrite <- Z.pow_add_r by lia. apply Z.pow_le_mono_r; lia. }
    nia. }
  destruct (Qle_bool _ _) eqn:Htest; [|lia].
  destruct (decide (a - b ≤ 52)) as [|Hbig]; [lia|]. exfalso.
  assert (a - b = 53) as Hab by lia. rewrite Hab in Htest.
  apply Qle_bool_imp_le in Htest. unfold pow2 in Htest.
  rewrite bool_decide_eq_true_2 in Htest by lia.
  unfold Qle in Htest. cbn [Qnum Qden inject_Z] in Htest. lia.
Qed.

Lemma float64_round_sandwich (x : Q) (z : Z) :
  (0 <= x)%Q → (x < inject_Z (2 ^ 53))%Q →
  ((inject_Z z <= x)%Q → (inject_Z z <= float64_round x)%Q)
  ∧ ((x <= inject_Z z)%Q → (float64_round x <= inject_Z z)%Q).
Proof.
  intros Hx Hlt. unfold float64_round.
  destruct (Qeq_bool x 0) eqn:Hz.
  { apply Qeq_bool_eq in Hz. rewrite Hz. done. }
  apply Qeq_bool_neq in Hz.
  assert (0 < x)%Q as Hpos.
  { apply Qle_lteq in Hx as [|Heq]; [done|]. by destruct Hz. }
  assert (Qabs x = x) as ->.
  { destruct x as [n d]. unfold Qle in Hx. simpl in Hx. simpl.
    by rewrite Z.abs_eq by lia. }
  set (e := Z.max (log2_floor x - 52) (-1074)).
  assert (e ≤ 0) as He.
  { pose proof (float64_exponent_nonpos x Hpos Hlt). lia. }
  assert (pow2 (- e) = inject_Z (2 ^ (- e))) as ->.
  { unfold pow2. by rewrite bool_decide_eq_true_2 by lia. }
  rewrite (pow2_nonpos e He).
  set (s := 2 ^ (- e)).
  assert (0 < s) as Hs by (apply Z.pow_pos_nonneg; lia).
  assert (0 < inject_Z s)%Q as HsQ.
  { change 0%Q with (inject_Z 0). by rewrite <- Zlt_Qlt. }
  split; intros Hzx.
  - apply Qle_shift_div_l; [done|]. rewrite <- inject_Z_mult, <- Zle_Qle.
    apply round_half_even_ge. rewrite inject_Z_mult.
    by apply Qmult_le_compat_r; [|apply Qlt_le_weak].
  - apply Qle_shift_div_r; [done|]. rewrite <- inject_Z_mult, <- Zle_Qle.
    apply round_half_even_le. rewrite inject_Z_mult.
    by apply Qmult_le_compat_r; [|apply Qlt_le_weak].
Qed.

Lemma py_int_floor (x : Q) : (0 <= x)%Q → py_int x = Qfloor x.
Proof.
  destruct x as [n d]. unfold Qle, py_int, Qfloor. simpl. intros H.
  apply Z.quot_div_nonneg; lia.
Qed.

(** [int(npoints * perc)] is the floor or the ceiling of the exact product. *)
Lemma npoints_to_keep_bounds (N : nat) (perc : Q) :
  Z.of_nat N < 2 ^ 53 → (0 <= perc)%Q → (perc <= 1)%Q →
  Qfloor (inject_Z (Z.of_nat N) * perc) ≤ npoints_to_keep N perc
  ∧ npoints_to_keep N perc ≤ Qceiling (inject_Z (Z.of_nat N) * perc).
Proof.
  intros HN Hp0 Hp1. unfold npoints_to_keep.
  set (n := inject_Z (Z.of_nat N)).
  assert (0 <= n)%Q as Hn0.
  { change 0%Q with (inject_Z 0). unfold n. rewrite <- Zle_Qle. lia. }
  assert (n < inject_Z (2 ^ 53))%Q as Hn53 by (unfold n; by rewrite <- Zlt_Qlt).
  assert (float64_round n == n)%Q as Hfn.
  { destruct (float64_round_sandwich n (Z.of_nat N) Hn0 Hn53) as [H1 H2].
    apply Qle_antisym; [apply H2|apply H1]; apply Qle_refl. }
  set (x := (float64_round n * perc)%Q).
  assert (x == n * perc)%Q as Hxeq by (unfold x; by rewrite Hfn).
  assert (0 <= x)%Q as Hx0.
  { rewrite Hxeq. by apply Qmult_le_0_compat. }
  assert (x < inject_Z (2 ^ 53))%Q as Hx53.
  { apply Qle_lt_trans with n; [|done]. rewrite Hxeq.
    rewrite <- (Qmult_1_r n) at 2. rewrite !(Qmult_comm n).
    by apply Qmult_le_compat_r. }
  destruct (float64_round_sandwich x (Qfloor x) Hx0 Hx53) as [Hlo _].
  destruct (float64_round_sandwich x (Qceiling x) Hx0 Hx53) as [_ Hhi].
  specialize (Hlo (Qfloor_le x)). specialize (Hhi (Qle_ceiling x)).
  assert (0 <= float64_round x)%Q as Hf0.
  { apply Qle_trans with (inject_Z (Qfloor x)); [|done].
    change 0%Q with (inject_Z 0). rewrite <- Zle_Qle.
    change 0 with (Qfloor 0). by apply Qfloor_resp_le. }
  rewrite py_int_floor by done.
  rewrite <- (Qfloor_comp _ _ Hxeq), <- (Qceiling_comp _ _ Hxeq).
  split.
  - apply Qfloor_resp_le in Hlo. by rewrite Qfloor_Z in Hlo.
  - apply Qfloor_resp_le in Hhi. by rewrite Qfloor_Z in Hhi.
Qed.

(** ** The resampler *)

Section Resampler.

Variable sqrtQ : Q → Q.
Hypothesis sqrtQ_zero : sqrt_zero sqrtQ.

Lemma norm_vsub_self (p : vec) : (norm sqrtQ (vsub p p) == 0)%Q.
Proof.
  destruct p as [[x y] z]. unfold norm, vsub, sumsq. apply sqrtQ_zero. ring.
Qed.

Lemma tol13_pos : (0 < tol13)%Q.
Proof. done. Qed.

(** An edge from a point to itself counts as collapsed. *)
Lemma edge_length_self (points : list vec) (a : Z) (l : Q) :
  edge_length sqrtQ points (a, a) = Ok l → Qltb l tol13 = true.
Proof.
  unfold edge_length. simpl. intros H. inv_bind H as p Hp. rewrite Hp in H.
  simpl in H. injection H as <-. apply Qltb_lt.
  rewrite norm_vsub_self. apply tol13_pos.
Qed.

Lemma close_to_Fin mdiff d :
  close_to mdiff d = true →
  ∃ x m, d = Fin x ∧ mdiff = Fin m ∧ (Qabs (x - m) < tol12)%Q.
Proof.
  destruct d as [x|], mdiff as [m|]; simpl; try done.
  intros H%Qltb_lt. eauto.
Qed.

Lemma mask_collapsed_Fin l x :
  mask_collapsed l = Fin x → x = l ∧ Qltb l tol13 = false.
Proof.
  unfold mask_collapsed. destruct (Qltb l tol13); [done|]. by intros [= <-].
Qed.

(** The edge picked: the first one, among those not collapsed, whose length
    is within 1e-12 of the least such length [m]. *)
Lemma pick_edge_spec (points : list vec) (edges : list (Z * Z)) (mind : nat) :
  pick_edge sqrtQ points edges = Ok mind →
  ∃ e len m,
    edges !! mind = Some e
    ∧ edge_length sqrtQ points e = Ok len
    ∧ Qltb len tol13 = false
    ∧ (∃ e', e' ∈ edges ∧ edge_length sqrtQ points e' = Ok m ∧ Qltb m tol13 = false)
    ∧ (∀ e' l, e' ∈ edges → edge_length sqrtQ points e' = Ok l →
               Qltb l tol13 = false → (m <= l)%Q)
    ∧ (Qabs (len - m) < tol12)%Q
    ∧ (∀ j e' l, (j < mind)%nat → edges !! j = Some e' →
                 edge_length sqrtQ points e' = Ok l →
                 Qltb l tol13 = false → (tol12 <= Qabs (l - m))%Q).
Proof.
  unfold pick_edge, edge_lengths. intros H.
  inv_bind H as lens Hlens. inv_bind H as mdiff Hmdiff.
  apply of_option_Ok, np_where_head in H as (dm & Hdm & Hclose & Hfirst).
  apply result_mapM_Ok in Hlens.
  apply np_min_Ok in Hmdiff as [Hin Hmin].
  apply close_to_Fin in Hclose as (x & m & -> & -> & Habs).
  rewrite list_lookup_fmap in Hdm.
  destruct (lens !! mind) as [len|] eqn:Hlen; [|done].
  injection Hdm as Hdm. apply mask_collapsed_Fin in Hdm as [-> Hnc].
  destruct (Forall2_lookup_r _ _ _ _ _ Hlens Hlen) as (e & He & Hel).
  exists e, len, m. split_and!; [done..| | |done|].
  - apply list_elem_of_fmap in Hin as (l & Hl & Hlin).
    symmetry in Hl. apply mask_collapsed_Fin in Hl as [-> Hl].
    apply list_elem_of_lookup in Hlin as (j & Hj).
    destruct (Forall2_lookup_r _ _ _ _ _ Hlens Hj) as (e' & He' & Hel').
    exists e'. split_and!; [by eapply list_elem_of_lookup_2|done..].
  - intros e' l (j & Hj)%list_elem_of_lookup Hel' Hl.
    destruct (Forall2_lookup_l _ _ _ _ _ Hlens Hj) as (l' & Hl' & Hel'').
    rewrite Hel' in Hel''. injection Hel'' as <-.
    assert (mask_collapsed l = Fin l) as Hmask by (unfold mask_collapsed; by rewrite Hl).
    apply Qltb_ge. apply (Hmin (Fin l)). rewrite <- Hmask.
    apply list_elem_of_fmap. exists l. split; [done|by eapply list_elem_of_lookup_2].
  - intros j e' l Hj He' Hel' Hl.
    destruct (Forall2_lookup_l _ _ _ _ _ Hlens He') as (l' & Hl' & Hel'').
    rewrite Hel' in Hel''. injection Hel'' as <-.
    assert (mask_collapsed l = Fin l) as Hmask by (unfold mask_collapsed; by rewrite Hl).
    specialize (Hfirst j (Fin l) Hj).
    rewrite list_lookup_fmap, Hl' in Hfirst. simpl in Hfirst.
    rewrite Hmask in Hfirst. specialize (Hfirst eq_refl). simpl in Hfirst.
    by apply Qltb_ge.
Qed.

Lemma modify_edges_gone (edges : list (Z * Z)) (d r : Z) (e : Z * Z) :
  d ≠ r → e ∈ modify_edges edges d r → e.1 ≠ d ∧ e.2 ≠ d.
Proof.
  intros Hne (e0 & -> & _)%list_elem_of_fmap. unfold subst_point. simpl.
  split; case_bool_decide; congruence.
Qed.

(** A step collapses an edge with two different endpoints, one way or the
    other. *)
Lemma decimate_step_edge (points : list vec) (protected : list Z) (st st' : rstate) :
  decimate_step sqrtQ points protected st = Ok st' →
  ∃ a b, (a, b) ∈ r_edges st ∧ a ≠ b
         ∧ (st' = collapse st b a ∨ st' = collapse st a b).
Proof.
  unfold decimate_step. intros H. inv_bind H as mind Hmind.
  inv_bind H as e He. apply of_option_Ok in He.
  apply pick_edge_spec in Hmind as (e0 & len & m & He0 & Hlen & Hnc & _).
  rewrite He in He0. injection He0 as <-. destruct e as [a b]. simpl in H.
  exists a, b. split_and!.
  - by eapply list_elem_of_lookup_2.
  - intros ->. apply edge_length_self in Hlen. congruence.
  - case_bool_decide; injection H as <-; auto.
Qed.

(** C2 (amended). A decimation step that completes picks the first edge
    whose length is within 1e-12 of the least length of the edges not yet
    collapsed, and merges the destination of that edge into its source: the
    destination is the point removed and every endpoint equal to it is
    rewritten to the source. The roles are swapped, the source being removed
    in favour of the destination, exactly when the destination is a protected
    outlet. No edge refers to the removed point afterwards. *)
Theorem decimation_step_collapses (points : list vec) (protected : list Z)
    (st st' : rstate) :
  decimate_step sqrtQ points protected st = Ok st' →
  ∃ mind a b len m,
    r_edges st !! mind = Some (a, b)
    ∧ edge_length sqrtQ points (a, b) = Ok len
    ∧ Qltb len tol13 = false
    ∧ (∃ e', e' ∈ r_edges st ∧ edge_length sqrtQ points e' = Ok m
             ∧ Qltb m tol13 = false)
    ∧ (∀ e' l, e' ∈ r_edges st → edge_length sqrtQ points e' = Ok l →
               Qltb l tol13 = false → (m <= l)%Q)
    ∧ (Qabs (len - m) < tol12)%Q
    ∧ (∀ j e' l, (j < mind)%nat → r_edges st !! j = Some e' →
                 edge_length sqrtQ points e' = Ok l →
                 Qltb l tol13 = false → (tol12 <= Qabs (l - m))%Q)
    ∧ a ≠ b
    ∧ (b ∉ protected →
         st' = collapse st b a
         ∧ r_edges st' = modify_edges (r_edges st) b a
         ∧ ∀ e, e ∈ r_edges st' → e.1 ≠ b ∧ e.2 ≠ b)
    ∧ (b ∈ protected →
         st' = collapse st a b
         ∧ r_edges st' = modify_edges (r_edges st) a b
         ∧ ∀ e, e ∈ r_edges st' → e.1 ≠ a ∧ e.2 ≠ a).
Proof.
  unfold decimate_step. intros H. inv_bind H as mind Hmind.
  inv_bind H as e He. apply of_option_Ok in He.
  apply pick_edge_spec in Hmind as (e0 & len & m & He0 & Hlen & Hnc & Hm & Hmin & Habs & Hfirst).
  rewrite He in He0. injection He0 as <-. destruct e as [a b]. simpl in H.
  assert (a ≠ b) as Hab.
  { intros ->. apply edge_length_self in Hlen. congruence. }
  exists mind, a, b, len, m. split_and!; [done..| |].
  - intros Hb. rewrite bool_decide_eq_true_2 in H by done. injection H as <-.
    split_and!; [done..|]. intros e. simpl. by apply modify_edges_gone.
  - intros Hb. rewrite bool_decide_eq_false_2 in H by naive_solver. injection H as <-.
    split_and!; [done..|]. intros e. simpl. by apply modify_edges_gone.
Qed.

(** *** Counting the points that survive *)

Lemma modify_edges_nonneg edges d r :
  nonneg_edges edges → 0 ≤ r → nonneg_edges (modify_edges edges d r).
Proof.
  intros Hnn Hr e (e0 & -> & He0)%list_elem_of_fmap. unfold subst_point. simpl.
  destruct (Hnn e0 He0). split; case_bool_decide; lia.
Qed.

Lemma modify_edges_not_endpoint edges d r d' :
  not_endpoint edges d' → r ≠ d' → not_endpoint (modify_edges edges d r) d'.
Proof.
  intros Hne Hr e (e0 & -> & He0)%list_elem_of_fmap. unfold subst_point. simpl.
  destruct (Hne e0 He0). split; case_bool_decide; congruence.
Qed.

(** The invariant of the decimation loop: the points it has removed are
    pairwise distinct, non-negative, and no edge refers to them. *)
Lemma decimate_step_inv points protected st st' caps decs :
  decimate_step sqrtQ points protected st = Ok st' →
  nonneg_edges (r_edges st) →
  r_delete st = caps ++ decs → NoDup decs →
  (∀ d, d ∈ decs → 0 ≤ d ∧ not_endpoint (r_edges st) d) →
  ∃ d, r_delete st' = caps ++ (decs ++ [d])
       ∧ nonneg_edges (r_edges st')
       ∧ NoDup (decs ++ [d])
       ∧ ∀ d', d' ∈ decs ++ [d] → 0 ≤ d' ∧ not_endpoint (r_edges st') d'.
Proof.
  intros Hstep Hnn Hdel Hnd Hdecs.
  apply decimate_step_edge in Hstep as (a & b & Hab & Hne & Hst').
  destruct (Hnn _ Hab) as [Ha Hb]. simpl in *.
  assert (∃ d r, (d = a ∧ r = b ∨ d = b ∧ r = a) ∧ st' = collapse st d r)
    as (d & r & Hdr & ->).
  { destruct Hst' as [->| ->]; [exists b, a|exists a, b]; auto. }
  assert (d ≠ r) as Hdne by (destruct Hdr as [[-> ->]|[-> ->]]; done).
  exists d. simpl. split_and!.
  - by rewrite Hdel, <- app_assoc.
  - apply modify_edges_nonneg; [done|]. destruct Hdr as [[_ ->]|[_ ->]]; lia.
  - apply NoDup_app. split_and!; [done| |apply NoDup_singleton].
    intros x Hx Hxd. apply list_elem_of_singleton in Hxd as ->.
    destruct (Hdecs _ Hx) as [_ Hfree']. destruct (Hfree' _ Hab) as [? ?].
    simpl in *. destruct Hdr as [[-> _]|[-> _]]; done.
  - intros d' [Hd'|Hd']%elem_of_app; [|apply list_elem_of_singleton in Hd' as ->].
    + destruct (Hdecs _ Hd') as [? Hfree']. split; [done|].
      apply modify_edges_not_endpoint; [done|].
      destruct (Hfree' _ Hab) as [? ?]. simpl in *.
      destruct Hdr as [[_ ->]|[_ ->]]; done.
    + split; [destruct Hdr as [[-> _]|[-> _]]; lia|].
      intros e. by apply modify_edges_gone.
Qed.

Lemma decimate_inv k points protected st st' caps decs :
  decimate sqrtQ k points protected st = Ok st' →
  nonneg_edges (r_edges st) →
  r_delete st = caps ++ decs → NoDup decs →
  (∀ d, d ∈ decs → 0 ≤ d ∧ not_endpoint (r_edges st) d) →
  ∃ decs', r_delete st' = caps ++ decs'
           ∧ length decs' = (length decs + k)%nat
           ∧ NoDup decs'
           ∧ ∀ d, d ∈ decs' → 0 ≤ d.
Proof.
  revert st decs. induction k as [|k IH]; intros st decs; simpl.
  - intros [= <-] _ Hdel Hnd Hdecs. exists decs.
    split_and!; [done|lia|done|]. intros d Hd. by apply Hdecs.
  - intros H Hnn Hdel Hnd Hdecs. inv_bind H as st1 Hst1.
    destruct (decimate_step_inv _ _ _ _ _ _ Hst1 Hnn Hdel Hnd Hdecs)
      as (d & Hdel1 & Hnn1 & Hnd1 & Hdecs1).
    destruct (IH st1 (decs ++ [d]) H Hnn1 Hdel1 Hnd1 Hdecs1)
      as (decs' & ? & Hlen & ? & ?).
    exists decs'. split_and!; [done| |done..].
    rewrite Hlen, length_app. simpl. lia.
Qed.

Lemma collapse_fold (f g : Z → Z) (l : list Z) (st : rstate) :
  nonneg_edges (r_edges st) → (∀ x, x ∈ l → 0 ≤ g x) →
  let st' := foldl (λ st x, collapse st (f x) (g x)) st l in
  nonneg_edges (r_edges st')
  ∧ ∃ extra, r_delete st' = r_delete st ++ extra ∧ length extra = length l.
Proof.
  revert st. induction l as [|x l IH]; intros st Hnn Hg; simpl.
  - split; [done|]. exists []. by rewrite app_nil_r.
  - destruct (IH (collapse st (f x) (g x))) as (Hnn' & extra & Hdel & Hlen).
    + simpl. apply modify_edges_nonneg; [done|]. apply Hg. by left.
    + intros y Hy. apply Hg. by right.
    + split; [done|]. exists (f x :: extra). simpl in *.
      rewrite Hdel, <- app_assoc. split; [done|]. by rewrite Hlen.
Qed.

Lemma cap_pass_fold (remove_caps : nat) (ind : indices) (ips : list Z) (st : rstate) :
  nonneg_edges (r_edges st) →
  (∀ i, i ∈ inlet ind → 0 ≤ i) →
  (∀ o, o ∈ outlets ind → Z.of_nat remove_caps ≤ o) →
  let st' := foldl (cap_pass remove_caps ind) st ips in
  nonneg_edges (r_edges st')
  ∧ ∃ caps, r_delete st' = r_delete st ++ caps
            ∧ length caps
              = (length ips * (length (inlet ind) + length (outlets ind)))%nat.
Proof.
  intros Hnn Hin Hout. revert st Hnn.
  induction ips as [|ip ips IH]; intros st Hnn.
  - simpl. split; [done|]. exists []. by rewrite app_nil_r.
  - destruct (collapse_fold (λ i, i + ip) (λ i, i + Z.of_nat remove_caps)
                (inlet ind) st Hnn) as (Hnn1 & ex1 & Hdel1 & Hlen1).
    { intros i Hi. specialize (Hin i Hi). lia. }
    set (st1 := foldl (λ st i, collapse st (i + ip) (i + Z.of_nat remove_caps))
                      st (inlet ind)) in *.
    destruct (collapse_fold (λ o, o - ip) (λ o, o - Z.of_nat remove_caps)
                (outlets ind) st1 Hnn1) as (Hnn2 & ex2 & Hdel2 & Hlen2).
    { intros o Ho. specialize (Hout o Ho). lia. }
    set (st2 := foldl (λ st o, collapse st (o - ip) (o - Z.of_nat remove_caps))
                      st1 (outlets ind)) in *.
    destruct (IH st2 Hnn2) as (Hnn3 & caps & Hdel3 & Hlen3).
    change (foldl (cap_pass remove_caps ind) st (ip :: ips))
      with (foldl (cap_pass remove_caps ind) st2 ips).
    split; [done|]. exists (ex1 ++ ex2 ++ caps).
    rewrite Hdel3, Hdel2, Hdel1, <- !app_assoc. split; [done|].
    rewrite !length_app, Hlen1, Hlen2, Hlen3. simpl. lia.
Qed.

Lemma cap_removal_spec (remove_caps : nat) (ind : indices) (st : rstate) :
  nonneg_edges (r_edges st) →
  (∀ i, i ∈ inlet ind → 0 ≤ i) →
  (∀ o, o ∈ outlets ind → Z.of_nat remove_caps ≤ o) →
  nonneg_edges (r_edges (cap_removal remove_caps ind st))
  ∧ ∃ caps, r_delete (cap_removal remove_caps ind st) = r_delete st ++ caps
            ∧ length caps
              = (remove_caps * (length (inlet ind) + length (outlets ind)))%nat.
Proof.
  intros Hnn Hin Hout.
  destruct (cap_pass_fold remove_caps ind (Z.of_nat <$> seq 0 remove_caps) st
              Hnn Hin Hout) as (? & caps & ? & Hlen).
  split; [done|]. exists caps. split; [done|].
  by rewrite Hlen, length_fmap, length_seq.
Qed.

(** [np.delete] removes as many entries as there are distinct positions. *)
Lemma length_delete_at_from {A} (ks : list nat) (k0 : nat) (l : list A) :
  (length (delete_at_from ks k0 l)
   + length (filter (λ j, j ∈ ks) (seq k0 (length l))))%nat = length l.
Proof.
  revert k0. induction l as [|x l IH]; intros k0; simpl; [done|].
  specialize (IH (S k0)). rewrite filter_cons.
  case_bool_decide; case_decide; simpl; try done; lia.
Qed.

Lemma np_delete_length {A} (l l' : list A) (caps decs : list Z) :
  np_delete l (caps ++ decs) = Ok l' →
  NoDup decs → (∀ d, d ∈ decs → 0 ≤ d) →
  (length l' + length decs ≤ length l)%nat
  ∧ (length l ≤ length l' + length (caps ++ decs))%nat.
Proof.
  unfold np_delete. intros H Hnd Hnn. inv_bind H as ks Hks. injection H as <-.
  apply result_mapM_Ok in Hks.
  pose proof (length_delete_at_from ks 0 l) as Hcount. fold (delete_at ks l) in Hcount.
  set (hit := filter (λ j, j ∈ ks) (seq 0 (length l))) in *.
  assert (NoDup hit) as Hhit by apply NoDup_filter, NoDup_seq.
  assert (length hit ≤ length ks)%nat as Hle.
  { apply submseteq_length, NoDup_submseteq; [done|].
    intros j Hj. by apply list_elem_of_filter in Hj as [? _]. }
  assert (length decs ≤ length hit)%nat as Hge.
  { rewrite <- (length_fmap Z.to_nat decs).
    apply submseteq_length, NoDup_submseteq.
    - apply NoDup_fmap_2_strong; [|done].
      intros x y Hx Hy Heq. apply Hnn in Hx, Hy. lia.
    - intros j (d & -> & Hd)%list_elem_of_fmap.
      assert (d ∈ caps ++ decs) as Hd' by (apply elem_of_app; by right).
      apply list_elem_of_lookup in Hd' as (i & Hi).
      destruct (Forall2_lookup_l _ _ _ _ _ Hks Hi) as (k & Hk & Hidx).
      apply py_index_Ok in Hidx as Hlt. destruct Hlt as [Hlt _].
      rewrite py_index_nonneg in Hidx by by apply Hnn.
      case_bool_decide; [|done]. injection Hidx as <-.
      apply list_elem_of_filter. split; [by eapply list_elem_of_lookup_2|].
      apply elem_of_seq. lia. }
  rewrite (Forall2_length _ _ _ Hks). lia.
Qed.

Lemma np_delete_same_length {A B} (l1 l1' : list A) (l2 l2' : list B) (obj : list Z) :
  length l1 = length l2 →
  np_delete l1 obj = Ok l1' → np_delete l2 obj = Ok l2' → length l1' = length l2'.
Proof.
  unfold np_delete. intros Hlen H1 H2. rewrite Hlen in H1.
  inv_bind H1 as ks1 Hks1. inv_bind H2 as ks2 Hks2.
  rewrite Hks1 in Hks2. injection Hks2 as <-.
  injection H1 as <-. injection H2 as <-.
  pose proof (length_delete_at_from ks1 0 l1) as H1.
  pose proof (length_delete_at_from ks1 0 l2) as H2.
  unfold delete_at. rewrite Hlen in H1. lia.
Qed.

(** *** The points deleted by the cap loop *)

Lemma collapse_fold_delete (f g : Z → Z) (l : list Z) (st : rstate) :
  r_delete (foldl (λ st x, collapse st (f x) (g x)) st l) = r_delete st ++ (f <$> l).
Proof.
  revert st. induction l as [|x l IH]; intros st; simpl; [by rewrite app_nil_r|].
  rewrite IH. simpl. by rewrite <- app_assoc.
Qed.

Lemma cap_removal_delete (remove_caps : nat) (ind : indices) (st : rstate) :
  r_delete (cap_removal remove_caps ind st) = r_delete st ++ cap_points remove_caps ind.
Proof.
  unfold cap_removal, cap_points. revert st.
  induction (Z.of_nat <$> seq 0 remove_caps) as [|ip ips IH]; intros st.
  - simpl. by rewrite app_nil_r.
  - cbn [foldl mbind list_bind]. rewrite IH. unfold cap_pass.
    rewrite !collapse_fold_delete. by rewrite <- !app_assoc.
Qed.

Lemma cap_points_nonneg (remove_caps : nat) (ind : indices) (d : Z) :
  (∀ i, i ∈ inlet ind → 0 ≤ i) →
  (∀ o, o ∈ outlets ind → Z.of_nat remove_caps ≤ o) →
  d ∈ cap_points remove_caps ind → 0 ≤ d.
Proof.
  intros Hin Hout (ip & Hd & (k & -> & Hk%elem_of_seq)%list_elem_of_fmap)%list_elem_of_bind.
  apply elem_of_app in Hd as [(i & -> & Hi)%list_elem_of_fmap|(o & -> & Ho)%list_elem_of_fmap].
  - specialize (Hin i Hi). lia.
  - specialize (Hout o Ho). lia.
Qed.

(** No edge refers to a deleted point as long as no replacement point is
    itself deleted. *)
Lemma collapse_fold_removed (all : list Z) (f g : Z → Z) (l : list Z) (st : rstate) :
  (∀ x, x ∈ l → f x ∈ all ∧ g x ∉ all) →
  (∀ d, d ∈ r_delete st → d ∈ all ∧ not_endpoint (r_edges st) d) →
  ∀ d, d ∈ r_delete (foldl (λ st x, collapse st (f x) (g x)) st l) →
       d ∈ all
       ∧ not_endpoint (r_edges (foldl (λ st x, collapse st (f x) (g x)) st l)) d.
Proof.
  revert st. induction l as [|x l IH]; intros st Hl Hst; [done|].
  cbn [foldl]. apply IH; [intros y Hy; apply Hl; by right|].
  destruct (Hl x) as [Hf Hg]; [by left|].
  simpl. intros d [Hd| ->%list_elem_of_singleton]%elem_of_app.
  - destruct (Hst d Hd) as [Hall Hne]. split; [done|].
    apply modify_edges_not_endpoint; [done|]. by intros <-.
  - split; [done|]. intros e He.
    apply (modify_edges_gone (r_edges st) (f x) (g x)); [|done].
    intros Heq. by rewrite Heq in Hf.
Qed.

Lemma cap_pass_fold_removed (remove_caps : nat) (ind : indices) (ips : list Z)
    (st : rstate) :
  (∀ ip, ip ∈ ips → ip ∈ Z.of_nat <$> seq 0 remove_caps) →
  (∀ i, i ∈ inlet ind → i + Z.of_nat remove_caps ∉ cap_points remove_caps ind) →
  (∀ o, o ∈ outlets ind → o - Z.of_nat remove_caps ∉ cap_points remove_caps ind) →
  (∀ d, d ∈ r_delete st →
        d ∈ cap_points remove_caps ind ∧ not_endpoint (r_edges st) d) →
  ∀ d, d ∈ r_delete (foldl (cap_pass remove_caps ind) st ips) →
       d ∈ cap_points remove_caps ind
       ∧ not_endpoint (r_edges (foldl (cap_pass remove_caps ind) st ips)) d.
Proof.
  intros Hips Htin Htout. revert st Hips.
  induction ips as [|ip ips IH]; intros st Hips Hst; [done|].
  cbn [foldl]. apply IH; [intros ip' Hip'; apply Hips; by right|].
  assert (ip ∈ Z.of_nat <$> seq 0 remove_caps) as Hip by (apply Hips; by left).
  unfold cap_pass. apply collapse_fold_removed.
  { intros o Ho. split; [|by apply Htout].
    apply list_elem_of_bind. exists ip. split; [|done].
    apply elem_of_app. right. apply list_elem_of_fmap. by exists o. }
  apply collapse_fold_removed; [|done].
  intros i Hi. split; [|by apply Htin].
  apply list_elem_of_bind. exists ip. split; [|done].
  apply elem_of_app. left. apply list_elem_of_fmap. by exists i.
Qed.

Lemma cap_removal_removed (remove_caps : nat) (ind : indices) (st : rstate) :
  (∀ i, i ∈ inlet ind → i + Z.of_nat remove_caps ∉ cap_points remove_caps ind) →
  (∀ o, o ∈ outlets ind → o - Z.of_nat remove_caps ∉ cap_points remove_caps ind) →
  (∀ d, d ∈ r_delete st →
        d ∈ cap_points remove_caps ind ∧ not_endpoint (r_edges st) d) →
  ∀ d, d ∈ r_delete (cap_removal remove_caps ind st) →
       d ∈ cap_points remove_caps ind
       ∧ not_endpoint (r_edges (cap_removal remove_caps ind st)) d.
Proof. intros Htin Htout. by apply cap_pass_fold_removed. Qed.

(** C1 (amended). For fewer than [2^53] points, a keep fraction in (0,1],
    edges and inlets that are non-negative, outlets at least [remove_caps],
    and caps that neither overlap nor contain a replacement point
    [inlet + remove_caps] or [outlet - remove_caps], a call of
    [resample_points] that returns yields as many kept indices as points,
    and their number is [int(N * keep_fraction)] less [remove_caps] points
    at every inlet and at every outlet.  [int(N * keep_fraction)], taken of
    the float64 product as the code does, is the floor of the exact product
    or, when the product rounds up to an integer, its ceiling. *)
Theorem resample_point_count (points : list vec) (edges : list (Z * Z))
    (ind : indices) (perc : Q) (remove_caps : nat)
    (sampled : list Z) (points' : list vec) (edges' : list (Z * Z)) :
  (0 < perc)%Q → (perc <= 1)%Q →
  Z.of_nat (length points) < 2 ^ 53 →
  (∀ e, e ∈ edges → 0 ≤ e.1 ∧ 0 ≤ e.2) →
  (∀ i, i ∈ inlet ind → 0 ≤ i) →
  (∀ o, o ∈ outlets ind → Z.of_nat remove_caps ≤ o) →
  NoDup (cap_points remove_caps ind) →
  (∀ i, i ∈ inlet ind → i + Z.of_nat remove_caps ∉ cap_points remove_caps ind) →
  (∀ o, o ∈ outlets ind → o - Z.of_nat remove_caps ∉ cap_points remove_caps ind) →
  (resample_points sqrtQ points edges ind perc remove_caps).1
    = Ok (sampled, points', edges') →
  let kept := npoints_to_keep (length points) perc in
  length sampled = length points'
  ∧ Z.of_nat (length points')
    = kept - Z.of_nat remove_caps
             * Z.of_nat (length (inlet ind) + length (outlets ind))
  ∧ Qfloor (inject_Z (Z.of_nat (length points)) * perc) ≤ kept
  ∧ kept ≤ Qceiling (inject_Z (Z.of_nat (length points)) * perc).
Proof.
  intros Hpos Hle1 HN Hnn Hin Hout Hndcaps Htin Htout H kept.
  unfold resample_points in H. simpl in H.
  inv_bind H as st Hst. inv_bind H as se Hse. destruct se as [sampled0 edges0].
  inv_bind H as pts Hpts. injection H as <- <- <-.
  set (N := length points) in *.
  set (st0 := {| r_edges := edges; r_delete := []; r_replace := [] |}) in *.
  destruct (cap_removal_spec remove_caps ind st0)
    as (Hnn0 & caps & Hcaps & Hlencaps); [done..|].
  rewrite cap_removal_delete in Hcaps. simpl in Hcaps. subst caps.
  destruct (decimate_inv _ _ _ _ _ [] (cap_points remove_caps ind) Hst Hnn0)
    as (decs & Hdel & Hlen & Hnd & Hdnn).
  { by rewrite cap_removal_delete. }
  { done. }
  { intros d Hd. split; [by eapply cap_points_nonneg|].
    apply (cap_removal_removed remove_caps ind st0 Htin Htout).
    - by intros d' Hd'%elem_of_nil.
    - by rewrite cap_removal_delete. }
  simpl in Hdel. rewrite Hdel in Hpts.
  destruct (np_delete_length _ _ [] decs Hpts Hnd Hdnn) as [Hub Hlb].
  fold N in Hub, Hlb. simpl in Hlb. rewrite Hlen, Hlencaps in Hub, Hlb.
  (* the number of steps *)
  destruct (npoints_to_keep_bounds N perc HN (Qlt_le_weak _ _ Hpos) Hle1)
    as [Hfloor Hceil]. fold kept in Hfloor, Hceil.
  assert (0 <= inject_Z (Z.of_nat N) * perc)%Q as Hx.
  { apply Qmult_le_0_compat; [|by apply Qlt_le_weak].
    change 0%Q with (inject_Z 0). rewrite <- Zle_Qle. lia. }
  assert (0 ≤ kept ≤ Z.of_nat N) as Hkept.
  { split.
    - etrans; [|exact Hfloor]. change 0 with (Qfloor 0). by apply Qfloor_resp_le.
    - etrans; [exact Hceil|].
      assert (inject_Z (Z.of_nat N) * perc <= inject_Z (Z.of_nat N))%Q as Hle.
      { apply Qle_trans with (1 * inject_Z (Z.of_nat N))%Q;
          [|rewrite Qmult_1_l; apply Qle_refl].
        rewrite Qmult_comm. apply Qmult_le_compat_r; [done|].
        change 0%Q with (inject_Z 0). rewrite <- Zle_Qle. lia. }
      apply Qceiling_resp_le in Hle. by rewrite Qceiling_Z in Hle. }
  unfold decimation_steps in Hub, Hlb. fold kept in Hub, Hlb.
  split_and!; [|nia|done..].
  unfold remove_points in Hse. inv_bind Hse as si Hsi. inv_bind Hse as es Hes.
  injection Hse as <- <-.
  rewrite Hdel in Hsi. eapply np_delete_same_length; [|done..].
  by rewrite length_fmap, length_seq.
Qed.

End Resampler.

(** ** The partitioner *)

Section Partitioner.

Local Open Scope nat_scope.

Variable edges : list (Z * Z).
Variable inlets : list Z.
Variable root : Z.

Lemma partition_init_inv : partition_inv edges inlets root (partition_init root).
Proof.
  split; simpl; try done.
  - intros a b Hab. by apply elem_of_nil in Hab.
  - intros k v [<- <-]%lookup_singleton_Some. lia.
  - intros x ->%list_elem_of_singleton. apply rtc_refl.
  - intros x ->%list_elem_of_singleton. split; [apply rtc_refl|by left].
  - intros x ->%list_elem_of_singleton. by rewrite lookup_singleton_eq.
Qed.

Lemma visit_edge_inv (j next_point : Z) (st : pstate) :
  on_branch edges inlets root j → (j = root ∨ j ∉ inlets) →
  (j, next_point) ∈ edges →
  partition_inv edges inlets root st →
  partition_inv edges inlets root (visit_edge inlets j st next_point).
Proof.
  intros Hj Hjr Hedge [Hcount Hhead Hedges Hnum Hsam Hq Hnumd].
  assert (on_branch edges inlets root next_point) as Hnext.
  { eapply rtc_r; [done|]. by split. }
  split; simpl.
  - rewrite length_app. simpl. lia.
  - destruct (sampling_indices st); simpl in *; done.
  - intros a b [Hab|Hab]%elem_of_app.
    + destruct (Hedges a b Hab). lia.
    + apply list_elem_of_singleton in Hab. injection Hab as -> ->.
      rewrite lookup_insert_eq. simpl. split; [|lia].
      destruct (decide (next_point = j)) as [->|Hne].
      * rewrite lookup_insert_eq. simpl. lia.
      * rewrite lookup_insert_ne by done.
        destruct (numbering st !! j) as [v|] eqn:E; simpl; [|lia].
        apply Hnum in E. lia.
  - intros k v. destruct (decide (next_point = k)) as [->|Hne].
    + rewrite lookup_insert_eq. intros [= <-]. lia.
    + rewrite lookup_insert_ne by done. intros E%Hnum. lia.
  - intros x [Hx|Hx]%elem_of_app; [by apply Hsam|].
    by apply list_elem_of_singleton in Hx as ->.
  - intros x. case_bool_decide as Hin; [|apply Hq].
    intros [Hx|Hx]%elem_of_app; [by apply Hq|].
    apply list_elem_of_singleton in Hx as ->. split; [done|by right].
  - intros x Hx. apply lookup_insert_is_Some'. case_bool_decide as Hin.
    + apply elem_of_app in Hx as [Hx|Hx]; [right; by apply Hnumd|].
      apply list_elem_of_singleton in Hx as ->. by left.
    + right. by apply Hnumd.
Qed.

(** [numbering[j]] is present when the edge from [j] is recorded. *)
Lemma visit_edge_numbered (j next_point : Z) (st : pstate) :
  is_Some (numbering st !! j) →
  ∃ a, <[next_point := count st]> (numbering st) !! j = Some a
       ∧ new_edges (visit_edge inlets j st next_point)
         = new_edges st ++ [(a, count st)]
       ∧ is_Some (numbering (visit_edge inlets j st next_point) !! j).
Proof.
  intros Hj. assert (is_Some (<[next_point := count st]> (numbering st) !! j)) as [a Ha].
  { apply lookup_insert_is_Some'. by right. }
  exists a. unfold visit_edge. simpl. rewrite Ha, lookup_insert_eq. simpl.
  split_and!; done.
Qed.

Lemma visit_edges_inv (j : Z) (nexts : list Z) (st : pstate) :
  on_branch edges inlets root j → (j = root ∨ j ∉ inlets) →
  (∀ x, x ∈ nexts → (j, x) ∈ edges) →
  partition_inv edges inlets root st →
  partition_inv edges inlets root (foldl (visit_edge inlets j) st nexts).
Proof.
  intros Hj Hjr. revert st. induction nexts as [|x nexts IH]; intros st Hall Hinv; simpl.
  - done.
  - apply IH; [intros; apply Hall; by right|].
    apply visit_edge_inv; [done..| |done]. apply Hall. by left.
Qed.

Lemma out_neighbors_edge (j x : Z) : x ∈ out_neighbors edges j → (j, x) ∈ edges.
Proof.
  unfold out_neighbors. intros ([a b] & -> & [Ha Hin]%list_elem_of_filter)%list_elem_of_fmap.
  simpl in *. by subst.
Qed.

Lemma partition_loop_inv (fuel : nat) (st st' : pstate) :
  partition_loop fuel edges inlets st = Ok st' →
  partition_inv edges inlets root st → partition_inv edges inlets root st'.
Proof.
  revert st. induction fuel as [|fuel IH]; intros st; simpl.
  - destruct (points_to_visit st); [by intros [= <-]|done].
  - destruct (points_to_visit st) as [|j rest] eqn:E; [by intros [= <-]|].
    intros H Hinv. eapply IH; [done|].
    destruct Hinv as [Hcount Hhead Hedges Hnum Hsam Hq Hnumd].
    destruct (Hq j) as [Hj Hjr]; [rewrite E; by left|].
    apply visit_edges_inv; [done..|apply out_neighbors_edge|].
    split; simpl; try done.
    + intros x Hx. apply Hq. rewrite E. by right.
    + intros x Hx. apply Hnumd. rewrite E. by right.
Qed.

Lemma create_partition_spec (fuel : nat) (pedges : list (nat * nat)) (sampling : list Z) :
  create_partition fuel edges root inlets = Ok (pedges, sampling) →
  head sampling = Some root
  ∧ (∀ a b, (a, b) ∈ pedges → a < length sampling ∧ b < length sampling)
  ∧ ∀ x, x ∈ sampling → on_branch edges inlets root x.
Proof.
  unfold create_partition. intros H. inv_bind H as st Hst. injection H as <- <-.
  apply partition_loop_inv in Hst as [Hcount Hhead Hedges Hnum Hsam Hq _];
    [|apply partition_init_inv].
  split_and!; [done| |done]. rewrite Hcount. apply Hedges.
Qed.

End Partitioner.

(** Two traversals from different chosen roots meet only at chosen roots,
    when no point has two predecessors. *)
Lemma branches_meet_at_roots (edges : list (Z * Z)) (inlets : list Z) (a b x : Z) :
  one_predecessor edges → a ∈ inlets → b ∈ inlets → a ≠ b →
  on_branch edges inlets a x → on_branch edges inlets b x → x ∈ inlets.
Proof.
  intros Hone Ha Hb Hab Hax. revert x Hax.
  apply (rtc_ind_r (λ x, on_branch edges inlets b x → x ∈ inlets)); [done|].
  intros y z _ [Hyz Hy] IH Hbz.
  apply rtc_inv_r in Hbz as [<-|(y' & Hby' & [Hy'z Hy'])]; [done|].
  assert (y = y') as <- by by eapply Hone.
  specialize (IH Hby'). destruct Hy as [->|Hy]; [|done].
  destruct Hy' as [->|Hy']; done.
Qed.

Lemma build_partition_spec (fuel : nat) (points : list vec) (bif_id : list Z)
    (edges : list (Z * Z)) (inlets : list Z) (root : Z) (part : partition) :
  build_partition fuel points bif_id edges inlets root = Ok part →
  head (p_sampling_indices part) = Some root
  ∧ length (p_points part) = length (p_sampling_indices part)
  ∧ (∀ a b, (a, b) ∈ p_edges part →
            (a < length (p_points part))%nat ∧ (b < length (p_points part))%nat)
  ∧ ∀ x, x ∈ p_sampling_indices part → on_branch edges inlets root x.
Proof.
  unfold build_partition. intros H. inv_bind H as es Hes. destruct es as [pedges sampling].
  inv_bind H as ppoints Hpp. inv_bind H as pbif Hpb. injection H as <-. simpl.
  apply create_partition_spec in Hes as (Hhead & Hedges & Hbranch).
  apply result_mapM_Ok, Forall2_length in Hpp.
  split_and!; [done..| |done]. rewrite <- Hpp. apply Hedges.
Qed.

(** C7 (amended). Whenever [create_partitions] returns, every partition has
    as many points as sampling indices and all its local edge endpoints are
    below that count. Every partition starts at a chosen root. The point sets
    of two partitions with different roots need not be disjoint, but when no
    point has two predecessors every point they share is a chosen root. *)
Theorem partitions_bounds_and_overlap (rnd : nat → nat) (fuel : nat)
    (points : list vec) (bif_id : list Z) (edges : list (Z * Z))
    (max_num_partitions : nat) (parts : list partition) :
  create_partitions rnd fuel points bif_id edges max_num_partitions = Ok parts →
  (∀ part a b, part ∈ parts → (a, b) ∈ p_edges part →
     length (p_points part) = length (p_sampling_indices part)
     ∧ (a < length (p_points part))%nat ∧ (b < length (p_points part))%nat)
  ∧ ∃ inlets,
      select_inlets rnd fuel bif_id edges max_num_partitions = Ok inlets
      ∧ (∀ part, part ∈ parts →
           ∃ root, root ∈ inlets ∧ head (p_sampling_indices part) = Some root)
      ∧ (one_predecessor edges →
         ∀ part1 part2 x, part1 ∈ parts → part2 ∈ parts →
           head (p_sampling_indices part1) ≠ head (p_sampling_indices part2) →
           x ∈ p_sampling_indices part1 → x ∈ p_sampling_indices part2 →
           x ∈ inlets).
Proof.
  unfold create_partitions. intros H. inv_bind H as inlets Hinlets.
  inv_bind H as built Hbuilt. injection H as <-.
  apply result_mapM_Ok in Hbuilt.
  assert (∀ part, part ∈ filter (λ p, (1 < length (p_edges p))%nat) built →
            ∃ root, root ∈ inlets
              ∧ build_partition fuel points bif_id edges inlets root = Ok part)
    as Horigin.
  { intros part [_ (i & Hi)%list_elem_of_lookup]%list_elem_of_filter.
    destruct (Forall2_lookup_r _ _ _ _ _ Hbuilt Hi) as (root & Hroot & Hb).
    exists root. split; [by eapply list_elem_of_lookup_2|done]. }
  split.
  - intros part a b (root & _ & Hb)%Horigin Hab.
    apply build_partition_spec in Hb as (_ & Hlen & Hedges & _).
    split; [done|]. by apply Hedges.
  - exists inlets. split_and!; [done| |].
    + intros part (root & Hroot & Hb)%Horigin.
      apply build_partition_spec in Hb as (Hhead & _). eauto.
    + intros Hone part1 part2 x (r1 & Hr1 & Hb1)%Horigin (r2 & Hr2 & Hb2)%Horigin
             Hheads Hx1 Hx2.
      apply build_partition_spec in Hb1 as (Hh1 & _ & _ & Hbr1).
      apply build_partition_spec in Hb2 as (Hh2 & _ & _ & Hbr2).
      apply (branches_meet_at_roots edges inlets r1 r2); [done..| |by apply Hbr1|by apply Hbr2].
      intros ->. congruence.
Qed.

(** ** Edge features *)

Section EdgeFeatures.

Import Features.
Local Open Scope R_scope.

Lemma rnorm_rsub_pos (p1 p2 : rvec) : p1 ≠ p2 → 0 < rnorm (rsub p2 p1).
Proof.
  destruct p1 as [[a1 b1] c1], p2 as [[a2 b2] c2]. intros Hne.
  unfold rnorm, rsub. apply sqrt_lt_R0.
  assert (∀ x, 0 <= x * x) as Hsq by (intros; nra).
  assert (∀ x, x ≠ 0 → 0 < x * x) as Hsqp.
  { intros x Hx. destruct (Rtotal_order x 0) as [?|[?|?]]; [nra|done|nra]. }
  pose proof (Hsq (a2 - a1)). pose proof (Hsq (b2 - b1)). pose proof (Hsq (c2 - c1)).
  destruct (Req_dec a1 a2) as [->|Ha];
    [|pose proof (Hsqp (a2 - a1) ltac:(lra)); lra].
  destruct (Req_dec b1 b2) as [->|Hb];
    [|pose proof (Hsqp (b2 - b1) ltac:(lra)); lra].
  destruct (Req_dec c1 c2) as [->|Hc];
    [done|pose proof (Hsqp (c2 - c1) ltac:(lra)); lra].
Qed.

Lemma rnorm_rdiv_unit (v : rvec) : 0 < rnorm v → rnorm (rdiv v (rnorm v)) = 1.
Proof.
  destruct v as [[x y] z]. unfold rnorm, rdiv. intros Hpos.
  set (n := sqrt (x * x + y * y + z * z)) in *.
  assert (n * n = x * x + y * y + z * z) as Hn by (apply sqrt_sqrt; nra).
  replace (x / n * (x / n) + y / n * (y / n) + z / n * (z / n)) with 1.
  - apply sqrt_1.
  - replace (x / n * (x / n) + y / n * (y / n) + z / n * (z / n))
      with ((x * x + y * y + z * z) / (n * n)) by (field; lra).
    rewrite <- Hn. field. lra.
Qed.

Lemma edge_feature_unit (points : list rvec) (e : Z * Z) (p1 p2 : rvec) :
  py_get points e.1 = Ok p1 → py_get points e.2 = Ok p2 → p1 ≠ p2 →
  ∃ rel d, edge_feature points e = Ok (rel, d) ∧ rnorm rel = 1 ∧ 0 < d.
Proof.
  intros H1 H2 Hne. unfold edge_feature. rewrite H1, H2. simpl.
  eexists _, _. split; [done|].
  pose proof (rnorm_rsub_pos p1 p2 Hne). split; [by apply rnorm_rdiv_unit|done].
Qed.

(** C10 (amended). When every edge joins two points of the array whose
    coordinates differ, [generate_edge_features] returns: one relative
    position and one distance per edge, the distance of an edge being the
    norm of the difference of its end points and the relative position that
    difference divided by the norm; every relative position has norm 1 and
    every distance is positive. *)
Theorem edge_features_unit_and_positive (points : list rvec) (edges : list (Z * Z)) :
  (∀ e, e ∈ edges →
     ∃ p1 p2, py_get points e.1 = Ok p1 ∧ py_get points e.2 = Ok p2 ∧ p1 ≠ p2) →
  ∃ rel_position rel_position_norm,
    generate_edge_features points edges = Ok (rel_position, rel_position_norm)
    ∧ length rel_position = length edges
    ∧ length rel_position_norm = length edges
    ∧ Forall (λ v, rnorm v = 1) rel_position
    ∧ Forall (λ d, 0 < d) rel_position_norm
    ∧ ∀ (k : nat) e p1 p2,
        edges !! k = Some e →
        py_get points e.1 = Ok p1 → py_get points e.2 = Ok p2 →
        rel_position !! k = Some (rdiv (rsub p2 p1) (rnorm (rsub p2 p1)))
        ∧ rel_position_norm !! k = Some (rnorm (rsub p2 p1)).
Proof.
  intros Hedges. unfold generate_edge_features.
  destruct (result_mapM_total (edge_feature points) edges) as [feats Hfeats].
  { intros e (p1 & p2 & H1 & H2 & Hne)%Hedges.
    destruct (edge_feature_unit points e p1 p2 H1 H2 Hne) as (rel & d & -> & _). eauto. }
  rewrite Hfeats. simpl. eexists _, _. split; [done|].
  apply result_mapM_Ok in Hfeats.
  rewrite !length_fmap, <- (Forall2_length _ _ _ Hfeats).
  split_and!; [done..| | |].
  - apply Forall_fmap, Forall_lookup. intros i [rel d] Hi.
    destruct (Forall2_lookup_r _ _ _ _ _ Hfeats Hi) as (e & He & Hf).
    destruct (Hedges e) as (p1 & p2 & H1 & H2 & Hne); [by eapply list_elem_of_lookup_2|].
    destruct (edge_feature_unit points e p1 p2 H1 H2 Hne) as (rel' & d' & Hf' & Hu & _).
    rewrite Hf in Hf'. by injection Hf' as <- <-.
  - apply Forall_fmap, Forall_lookup. intros i [rel d] Hi.
    destruct (Forall2_lookup_r _ _ _ _ _ Hfeats Hi) as (e & He & Hf).
    destruct (Hedges e) as (p1 & p2 & H1 & H2 & Hne); [by eapply list_elem_of_lookup_2|].
    destruct (edge_feature_unit points e p1 p2 H1 H2 Hne) as (rel' & d' & Hf' & _ & Hp).
    rewrite Hf in Hf'. by injection Hf' as <- <-.
  - intros k e p1 p2 Hk H1 H2.
    destruct (Forall2_lookup_l _ _ _ _ _ Hfeats Hk) as (y & Hy & Hf).
    unfold edge_feature in Hf. rewrite H2, H1 in Hf. simpl in Hf. injection Hf as <-.
    rewrite !list_lookup_fmap, Hy. done.
Qed.

End EdgeFeatures.

(** ** Field tensors *)

Section Fields.

Local Open Scope nat_scope.

Lemma insert_sorted_perm (x : Q) (l : list Q) : insert_sorted x l ≡ₚ x :: l.
Proof.
  induction l as [|y l IH]; simpl; [done|].
  destruct (Qle_bool x y); [done|]. rewrite IH. apply Permutation_swap.
Qed.

(** [timesteps.sort()]: the sorted list holds the same keys, *)
Lemma sort_floats_perm (l : list Q) : sort_floats l ≡ₚ l.
Proof.
  induction l as [|x l IH]; simpl; [done|].
  by rewrite insert_sorted_perm, IH.
Qed.

Lemma insert_sorted_sorted (x : Q) (l : list Q) :
  Sorted Qle l → Sorted Qle (insert_sorted x l).
Proof.
  induction 1 as [|y l Hl IH Hhd]; simpl.
  - by repeat constructor.
  - destruct (Qle_bool x y) eqn:E.
    + apply Qle_bool_iff in E. by repeat constructor.
    + assert (y <= x)%Q as Hyx.
      { apply Qlt_le_weak, Qnot_le_lt. intros Hle%Qle_bool_iff. congruence. }
      constructor; [done|].
      destruct l as [|z l]; simpl in *; [by constructor|].
      destruct (Qle_bool x z); constructor; [done|]. by inversion Hhd.
Qed.

(** in ascending order. *)
Lemma sort_floats_sorted (l : list Q) : Sorted Qle (sort_floats l).
Proof.
  induction l as [|x l IH]; simpl; [constructor|]. by apply insert_sorted_sorted.
Qed.

Lemma subsample_one {A} (slices : list A) : subsample slices 1 = Ok slices.
Proof.
  unfold subsample. simpl. f_equal.
  pose proof (stride_positions_blocks (length slices) 1 0 ltac:(lia)) as H.
  rewrite Nat.mul_1_r in H. rewrite H.
  apply list_eq. intros i. destruct (slices !! i) as [x|] eqn:E.
  - apply lookup_lt_Some in E as Hlt.
    assert (omap (λ i, slices !! i) ((λ k, 0 + k * 1) <$> seq 0 (length slices))
            = (λ k, default x (slices !! k)) <$> seq 0 (length slices)) as ->.
    { apply omap_fmap_seq. intros k Hk. rewrite Nat.add_0_l, Nat.mul_1_r.
      destruct (lookup_lt_is_Some_2 slices k) as [y ->]; [lia|done]. }
    rewrite list_lookup_fmap, lookup_seq_lt by done. simpl. by rewrite E.
  - apply lookup_ge_None in E. apply lookup_ge_None.
    etrans; [|done]. clear E.
    assert (∀ (g : nat → option A) ks, length (omap g ks) ≤ length ks) as Hle.
    { intros g ks. induction ks as [|k ks IH]; simpl; [done|].
      change (omap g ks) with (list_omap _ _ g ks) in IH.
      destruct (g k); simpl; lia. }
    etrans; [apply Hle|]. by rewrite length_fmap, length_seq.
Qed.

(** Without subsampling, column [k] of the field tensor is the value of the
    [k]-th entry of the mapping in its order of iteration, and [dt] is the
    gap between the two smallest keys. *)
Lemma add_fields_columns (num_nodes : nat) (field : list (Q * list Q)) (r : fields) :
  add_fields num_nodes field 1 = Ok r →
  Forall2 (λ entry col, assign_slice num_nodes entry.2 = Ok col) field (f_field r)
  ∧ ∃ t0 t1, sort_floats (fst <$> field) !! 0 = Some t0
             ∧ sort_floats (fst <$> field) !! 1 = Some t1
             ∧ f_dt r = replicate num_nodes ((t1 - t0) * inject_Z (Z.of_nat 1))%Q.
Proof.
  unfold add_fields. intros H.
  inv_bind H as t1 Ht1. apply of_option_Ok in Ht1.
  inv_bind H as t0 Ht0. apply of_option_Ok in Ht0.
  inv_bind H as first Hfirst.
  inv_bind H as slices Hslices. apply result_mapM_Ok in Hslices.
  rewrite subsample_one in H. simpl in H.
  case_bool_decide as Hn; [|discriminate]. injection H as <-. simpl.
  rewrite Hn in Hslices. split; [|by exists t0, t1].
  by apply Forall2_fmap_l in Hslices.
Qed.

End Fields.

(** ** The shortest-path engine: walks, distances and predecessors *)

Lemma dist_le_refl a : dist_le a a.
Proof. apply dist_ltb_irrefl. Qed.

Lemma dist_le_trans a b c : dist_le a b → dist_le b c → dist_le a c.
Proof.
  unfold dist_le. destruct a as [a|], b as [b|], c as [c|]; simpl; try done.
  rewrite !Qltb_ge. intros. by eapply Qle_trans.
Qed.

Lemma dist_ltb_le a b : dist_ltb a b = true → dist_le a b.
Proof.
  unfold dist_le. destruct a as [a|], b as [b|]; simpl; try done.
  rewrite Qltb_lt, Qltb_ge. apply Qlt_le_weak.
Qed.

Lemma dist_ltb_trans a b c :
  dist_ltb a b = true → dist_ltb b c = true → dist_ltb a c = true.
Proof.
  destruct a as [a|], b as [b|], c as [c|]; simpl; try done.
  rewrite !Qltb_lt. apply Qlt_trans.
Qed.

Lemma dist_le_add a w : (0 <= w)%Q → dist_le a (dist_add a w).
Proof.
  intros Hw. unfold dist_le. destruct a as [a|]; simpl; [|done].
  apply Qltb_ge. rewrite <- (Qplus_0_r a) at 1. by apply Qplus_le_r.
Qed.

Lemma dist_add_le_mono a b w :
  dist_le a (Fin b) → dist_le (dist_add a w) (Fin (b + w)).
Proof.
  unfold dist_le. destruct a as [a|]; simpl; [|done].
  rewrite !Qltb_ge. intros. by apply Qplus_le_l.
Qed.

Lemma dist_le_Fin a b : dist_le a (Fin b) → ∃ q, a = Fin q ∧ (q <= b)%Q.
Proof.
  unfold dist_le. destruct a as [a|]; simpl; [|done].
  rewrite Qltb_ge. eauto.
Qed.

Lemma dget_insert_at (ds : list dist) (w : nat) (x : dist) (v : nat) :
  dget (<[w:=x]> ds) v
  = if bool_decide (v = w ∧ (w < length ds)%nat) then x else dget ds v.
Proof.
  unfold dget. case_bool_decide as H.
  - destruct H as [-> H]. by rewrite list_lookup_insert_eq.
  - destruct (decide (v = w)) as [->|Hne].
    + rewrite list_insert_ge; [done|]. lia.
    + by rewrite list_lookup_insert_ne.
Qed.

(** *** The scan finds a queued node of least distance *)

Lemma scan_min_least ds k tv mi ml r :
  scan_min ds k tv mi ml = Some r →
  (mi = Some r ∧ ∀ v, v ∈ tv → dist_ltb (dget ds v) ml = false)
  ∨ ∃ j v, r = (k + j)%nat ∧ tv !! j = Some v ∧ dist_ltb (dget ds v) ml = true
           ∧ ∀ v', v' ∈ tv → dist_ltb (dget ds v') (dget ds v) = false.
Proof.
  revert k mi ml. induction tv as [|v0 tv IH]; intros k mi ml; simpl.
  - intros ->. left. split; [done|]. intros v Hv. by apply elem_of_nil in Hv.
  - destruct (dist_ltb (dget ds v0) ml) eqn:E; intros H; apply IH in H.
    + right. destruct H as [[H Hall]|(j & v & -> & Hj & Hlt & Hall)].
      * injection H as <-. exists 0%nat, v0. split_and!; [lia|done..|].
        intros v' [->|Hv']%elem_of_cons; [apply dist_ltb_irrefl|by apply Hall].
      * exists (S j), v. split_and!; [lia|done|by eapply dist_ltb_trans|].
        intros v' [->|Hv']%elem_of_cons; [|by apply Hall].
        apply not_true_is_false. intros Hc.
        pose proof (dist_ltb_trans _ _ _ Hc Hlt) as Hirr.
        by rewrite dist_ltb_irrefl in Hirr.
    + destruct H as [[H Hall]|(j & v & -> & Hj & Hlt & Hall)].
      * left. split; [done|]. intros v' [->|Hv']%elem_of_cons; [done|by apply Hall].
      * right. exists (S j), v. split_and!; [lia|done..|].
        intros v' [->|Hv']%elem_of_cons; [|by apply Hall].
        apply not_true_is_false. intros Hc.
        pose proof (dist_ltb_trans _ _ _ Hc Hlt) as Hirr. congruence.
Qed.

Lemma min_position_least ds tv :
  tv ≠ [] →
  ∃ cur, tv !! min_position ds tv = Some cur
         ∧ ∀ v, v ∈ tv → dist_le (dget ds cur) (dget ds v).
Proof.
  intros Hne. unfold min_position.
  destruct (scan_min ds 0 tv None Inf) as [k|] eqn:E.
  - apply scan_min_least in E as [[? _]|(j & v & -> & Hj & _ & Hall)]; [done|].
    exists v. split; [done|]. intros v' Hv'. by apply Hall.
  - apply scan_min_None in E as [_ H].
    destruct (tv !! (length tv - 1)%nat) as [cur|] eqn:Hc.
    + exists cur. split; [done|]. intros v Hv. unfold dist_le.
      rewrite (dist_ltb_Inf_r _ (H v Hv)). by destruct (dget ds cur).
    + apply lookup_ge_None in Hc. destruct tv; simpl in *; [done|lia].
Qed.

Section ShortestWalks.

Local Open Scope nat_scope.

Variable sqrtQ : Q → Q.
Variable nodes : list vec.
Variable edges : list (Z * Z).
Variable s : nat.

(** *** The relaxation pass, distances and predecessors together *)

Lemma relax_cases cur tv st neib v :
  length st.2 = length st.1 →
  length (relax sqrtQ nodes cur tv st neib).2 = length (relax sqrtQ nodes cur tv st neib).1
  ∧ ((dget (relax sqrtQ nodes cur tv st neib).1 v = dget st.1 v
      ∧ (relax sqrtQ nodes cur tv st neib).2 !! v = st.2 !! v)
     ∨ (v ∈ tv ∧ Z.of_nat v = neib
        ∧ dget (relax sqrtQ nodes cur tv st neib).1 v
          = dist_add (dget st.1 cur) (edge_weight sqrtQ nodes cur v)
        ∧ (relax sqrtQ nodes cur tv st neib).2 !! v = Some (Z.of_nat cur)
        ∧ dist_ltb (dget (relax sqrtQ nodes cur tv st neib).1 v) (dget st.1 v) = true)).
Proof.
  intros Hlen. unfold relax. case_bool_decide as Hin; [|by auto].
  destruct Hin as [Hpos Hin].
  destruct (dist_ltb _ _) eqn:E; [|by auto]. simpl.
  split; [by rewrite !length_insert|].
  destruct (decide (v = Z.to_nat neib)) as [->|Hne].
  - destruct (decide (Z.to_nat neib < length st.1)) as [Hlt|Hge].
    + right. rewrite dget_insert_at, bool_decide_eq_true_2 by done.
      rewrite list_lookup_insert_eq by lia.
      split_and!; [done|lia|done|done|done].
    + left. rewrite !list_insert_ge by lia. done.
  - left. rewrite dget_insert_at, bool_decide_eq_false_2 by naive_solver.
    by rewrite list_lookup_insert_ne.
Qed.

Lemma relax_fold_cases cur tv nbs st v :
  cur ∉ tv → length st.2 = length st.1 →
  length (foldl (relax sqrtQ nodes cur tv) st nbs).2
  = length (foldl (relax sqrtQ nodes cur tv) st nbs).1
  ∧ ((dget (foldl (relax sqrtQ nodes cur tv) st nbs).1 v = dget st.1 v
      ∧ (foldl (relax sqrtQ nodes cur tv) st nbs).2 !! v = st.2 !! v)
     ∨ (v ∈ tv ∧ Z.of_nat v ∈ nbs
        ∧ dget (foldl (relax sqrtQ nodes cur tv) st nbs).1 v
          = dist_add (dget st.1 cur) (edge_weight sqrtQ nodes cur v)
        ∧ (foldl (relax sqrtQ nodes cur tv) st nbs).2 !! v = Some (Z.of_nat cur)
        ∧ dist_ltb (dget (foldl (relax sqrtQ nodes cur tv) st nbs).1 v) (dget st.1 v)
          = true)).
Proof.
  intros Hcur. revert st. induction nbs as [|x nbs IH]; intros st Hlen; simpl.
  - split; [done|]. by left.
  - destruct (relax_cases cur tv st x v Hlen) as [Hlen1 Hv].
    destruct (relax_cases cur tv st x cur Hlen) as [_ [[Hc _]|[? _]]]; [|done].
    destruct (IH _ Hlen1) as [Hlen' Hrest]. split; [done|].
    rewrite Hc in Hrest.
    destruct Hrest as [[Hd Hp]|(Hin & Hnb & Hd & Hp & Hlt)].
    + destruct Hv as [[Hd1 Hp1]|(Hin & Hnb & Hd1 & Hp1 & Hlt)].
      * left. by rewrite Hd, Hp.
      * right. rewrite Hd, Hp. split_and!; [done|rewrite Hnb; by left|done..].
    + right. split_and!; [done|by right|done..|].
      destruct Hv as [[Hd1 _]|(_ & _ & _ & _ & Hlt1)].
      * by rewrite <- Hd1.
      * by eapply dist_ltb_trans.
Qed.

Lemma relax_fold_le cur tv nbs st v :
  cur ∉ tv → length st.2 = length st.1 →
  dist_le (dget (foldl (relax sqrtQ nodes cur tv) st nbs).1 v) (dget st.1 v).
Proof.
  intros Hcur Hlen.
  destruct (relax_fold_cases cur tv nbs st v Hcur Hlen) as [_ [[-> _]|(_ & _ & _ & _ & H)]].
  - apply dist_le_refl.
  - by apply dist_ltb_le.
Qed.

(** After the pass a queued neighbour is no farther than through [cur]. *)
Lemma relax_fold_bound cur tv nbs st w :
  cur ∉ tv → length st.2 = length st.1 →
  w ∈ tv → w < length st.1 → Z.of_nat w ∈ nbs →
  dist_le (dget (foldl (relax sqrtQ nodes cur tv) st nbs).1 w)
          (dist_add (dget st.1 cur) (edge_weight sqrtQ nodes cur w)).
Proof.
  intros Hcur. revert st. induction nbs as [|x nbs IH]; intros st Hlen Hw Hlt Hin; simpl.
  - by apply elem_of_nil in Hin.
  - destruct (relax_cases cur tv st x cur Hlen) as [Hlen1 [[Hc _]|[? _]]]; [|done].
    apply elem_of_cons in Hin as [<-|Hin].
    + eapply dist_le_trans; [by apply relax_fold_le|].
      unfold relax. rewrite bool_decide_eq_true_2; [|split; [lia|by rewrite Nat2Z.id]].
      rewrite Nat2Z.id. fold (edge_weight sqrtQ nodes cur w).
      destruct (dist_ltb _ _) eqn:E; simpl.
      * rewrite dget_insert_at, bool_decide_eq_true_2 by done. apply dist_le_refl.
      * exact E.
    + rewrite <- Hc. apply IH; [done..| |done].
      by pose proof (relax_length sqrtQ nodes cur tv st x) as ->.
Qed.

(** *** One iteration of the loop *)

Lemma dijkstra_step_view st :
  tovisit st ≠ [] → dijkstra_inv nodes edges s st →
  ∃ cur tv',
    cur ∈ tovisit st ∧ (cur ∉ tv') ∧ (s ∉ tv')
    ∧ (∀ v, v ∈ tovisit st ↔ v = cur ∨ v ∈ tv')
    ∧ (∀ v, v ∈ tovisit st → dist_le (dget (dists st) cur) (dget (dists st) v))
    ∧ tovisit (dijkstra_step sqrtQ nodes edges st) = tv'
    ∧ dists (dijkstra_step sqrtQ nodes edges st)
      = (foldl (relax sqrtQ nodes cur tv') (dists st, prevs st) (neighbors edges cur)).1
    ∧ prevs (dijkstra_step sqrtQ nodes edges st)
      = (foldl (relax sqrtQ nodes cur tv') (dists st, prevs st) (neighbors edges cur)).2.
Proof.
  intros Hne [Hlen Hnd Hrange Hsrc Hfirst Hreach Hclosed Hdead].
  destruct (min_position_least (dists st) (tovisit st) Hne) as (cur & Hcur & Hleast).
  set (tv' := delete (min_position (dists st) (tovisit st)) (tovisit st)).
  pose proof (delete_Permutation _ _ _ Hcur) as Hperm. fold tv' in Hperm.
  assert (NoDup (cur :: tv')) as [Hcur' Hnd']%NoDup_cons by by rewrite <- Hperm.
  assert (∀ v, v ∈ tovisit st ↔ v = cur ∨ v ∈ tv') as Hmem.
  { intros v. by rewrite Hperm, elem_of_cons. }
  assert (cur ∈ tovisit st) as Hcurin by (apply Hmem; by left).
  exists cur, tv'. split_and!; try done.
  - intros Hin. assert (s ∈ tovisit st) as Hs by (apply Hmem; by right).
    assert (cur ≠ s) as Hcs by (intros ->; done).
    pose proof (Hfirst Hs cur Hcs) as Hinf.
    pose proof (Hleast s Hs) as Hle. rewrite Hinf, Hsrc in Hle. done.
  - unfold dijkstra_step. rewrite Hcur. simpl. fold tv'. by destruct (foldl _ _ _).
  - unfold dijkstra_step. rewrite Hcur. simpl. fold tv'. by destruct (foldl _ _ _).
  - unfold dijkstra_step. rewrite Hcur. simpl. fold tv'. by destruct (foldl _ _ _).
Qed.

(** *** Walks *)

Lemma is_walk_snoc u walk m v :
  is_walk (length nodes) edges u walk m → edge_step (length nodes) edges m v →
  is_walk (length nodes) edges u (walk ++ [v]) v.
Proof.
  revert u. induction walk as [|x walk IH]; intros u; simpl.
  - intros -> ?. done.
  - intros [? ?] ?. split; [done|]. by apply IH.
Qed.

Lemma walk_cost_snoc acc u walk m v :
  is_walk (length nodes) edges u walk m →
  walk_cost sqrtQ nodes acc u (walk ++ [v])
  = (walk_cost sqrtQ nodes acc u walk + edge_weight sqrtQ nodes m v)%Q.
Proof.
  revert acc u. induction walk as [|x walk IH]; intros acc u; simpl.
  - by intros ->.
  - intros [_ ?]. by apply IH.
Qed.

(** *** The invariants *)

Hypothesis s_node : s < length nodes.

Lemma dget_init v :
  dget (dists (dijkstra_init (length nodes) s)) v
  = if bool_decide (v = s) then Fin 0 else Inf.
Proof.
  simpl. rewrite dget_insert_at, length_replicate.
  repeat case_bool_decide; try done; try (exfalso; naive_solver).
  unfold dget. destruct (replicate _ _ !! v) eqn:E; [|done].
  by apply lookup_replicate in E as [-> _].
Qed.

Lemma dijkstra_tree_init :
  dijkstra_tree_inv sqrtQ nodes edges s (dijkstra_init (length nodes) s).
Proof.
  split.
  - simpl. by rewrite length_replicate.
  - simpl. by apply lookup_replicate.
  - intros v. rewrite dget_init. case_bool_decide as Hv; [|done].
    subst v. intros _. by exists [].
  - intros v Hv. rewrite dget_init. by rewrite bool_decide_eq_false_2.
Qed.

Lemma dijkstra_tree_step st :
  tovisit st ≠ [] → dijkstra_inv nodes edges s st →
  dijkstra_tree_inv sqrtQ nodes edges s st →
  dijkstra_tree_inv sqrtQ nodes edges s (dijkstra_step sqrtQ nodes edges st).
Proof.
  intros Hne Hinv [Hplen Hpsrc Hwalk Hprev].
  destruct (dijkstra_step_view st Hne Hinv)
    as (cur & tv' & Hcurin & Hcur' & Hs' & Hmem & _ & Htv & Hds & Hps).
  destruct Hinv as [Hlen _ Hrange _ _ _ _ _].
  assert (length (dists st, prevs st).2 = length (dists st, prevs st).1) as Hl
    by (simpl; congruence).
  pose proof (λ v, relax_fold_cases cur tv' (neighbors edges cur) _ v Hcur' Hl) as Hcases.
  rewrite <- Hds, <- Hps in Hcases. simpl in Hcases.
  assert (∀ v, v ∉ tv' → dget (dists (dijkstra_step sqrtQ nodes edges st)) v
                         = dget (dists st) v) as Hsame.
  { intros v Hv. by destruct (Hcases v) as [_ [[? _]|[? _]]]. }
  assert (∀ v, v ∈ tv' → Z.of_nat v ∈ neighbors edges cur →
               edge_step (length nodes) edges cur v) as Hedge.
  { intros v Hv Hnb. split; [apply Hrange, Hmem; by right|by apply neighbors_edge]. }
  split.
  - destruct (Hcases s) as [Hl' _]. rewrite Hl', Hds.
    by pose proof (relax_fold_length sqrtQ nodes cur tv' (neighbors edges cur)
                     (dists st, prevs st)) as ->.
  - by destruct (Hcases s) as [_ [[_ ->]|[? _]]].
  - intros v Hf. destruct (Hcases v) as [_ [[Hd _]|(Hv & Hnb & Hd & _ & _)]].
    + rewrite Hd in Hf |- *. by apply Hwalk.
    + rewrite Hd in Hf |- *.
      destruct (dget (dists st) cur) as [q|] eqn:Ec; [|done].
      destruct (Hwalk cur) as (walk & Hw & Hq); [by rewrite Ec|].
      rewrite Ec in Hq. injection Hq as ->.
      exists (walk ++ [v]). split.
      * eapply is_walk_snoc; [done|by apply Hedge].
      * simpl. by erewrite walk_cost_snoc.
  - intros v Hvs Hf. destruct (Hcases v) as [_ [[Hd Hp]|(Hv & Hnb & Hd & Hp & _)]].
    + rewrite Hd in Hf. destruct (Hprev v Hvs Hf) as (u & Hpu & Hu & Hun & He & Hdu).
      assert (u ∉ tv') as Hu' by (intros ?; apply Hu, Hmem; by right).
      exists u. rewrite Htv, Hp, Hd, (Hsame u Hu'). by split_and!.
    + exists cur. rewrite Htv, Hp, Hd, (Hsame cur Hcur').
      split_and!; [done..|by apply Hrange|by apply Hedge|done].
Qed.

Lemma dijkstra_tree_loop fuel st :
  dijkstra_inv nodes edges s st → dijkstra_tree_inv sqrtQ nodes edges s st →
  dijkstra_tree_inv sqrtQ nodes edges s (dijkstra_loop sqrtQ fuel nodes edges st).
Proof.
  revert st. induction fuel as [|fuel IH]; intros st Hinv Htree; simpl; [done|].
  destruct (tovisit st) as [|v tv] eqn:E; [done|].
  assert (tovisit st ≠ []) as Hne by by rewrite E.
  apply IH.
  - by apply (dijkstra_step_inv sqrtQ nodes edges s s_node st Hne).
  - by apply dijkstra_tree_step.
Qed.

Hypothesis sqrtQ_nonneg : sqrt_nonneg sqrtQ.

Lemma edge_weight_nonneg u v : (0 <= edge_weight sqrtQ nodes u v)%Q.
Proof. apply sqrtQ_nonneg. Qed.

Lemma dijkstra_opt_init :
  dijkstra_opt_inv sqrtQ nodes edges (dijkstra_init (length nodes) s).
Proof.
  split.
  - intros u v Hu Hnot. exfalso. apply Hnot. simpl. apply elem_of_seq. lia.
  - intros u v Hnot _. rewrite (dget_init u).
    case_bool_decide as Hu.
    + exfalso. apply Hnot. simpl. apply elem_of_seq. lia.
    + unfold dist_le. by destruct (dget _ v).
Qed.

Lemma dijkstra_opt_step st :
  tovisit st ≠ [] → dijkstra_inv nodes edges s st →
  length (prevs st) = length nodes →
  dijkstra_opt_inv sqrtQ nodes edges st →
  dijkstra_opt_inv sqrtQ nodes edges (dijkstra_step sqrtQ nodes edges st).
Proof.
  intros Hne Hinv Hplen [Hsettled Hfeasible].
  destruct (dijkstra_step_view st Hne Hinv)
    as (cur & tv' & Hcurin & Hcur' & Hs' & Hmem & Hleast & Htv & Hds & Hps).
  destruct Hinv as [Hlen _ Hrange _ _ _ _ _].
  assert (length (dists st, prevs st).2 = length (dists st, prevs st).1) as Hl
    by (simpl; congruence).
  pose proof (λ v, relax_fold_cases cur tv' (neighbors edges cur) _ v Hcur' Hl) as Hcases.
  pose proof (λ v, relax_fold_le cur tv' (neighbors edges cur) _ v Hcur' Hl) as Hle.
  pose proof (λ w, relax_fold_bound cur tv' (neighbors edges cur) _ w Hcur' Hl) as Hbound.
  rewrite <- Hds in Hle, Hbound. rewrite <- Hds, <- Hps in Hcases.
  simpl in Hcases, Hle, Hbound.
  set (ds' := dists (dijkstra_step sqrtQ nodes edges st)) in *.
  assert (∀ v, v ∉ tv' → dget ds' v = dget (dists st) v) as Hsame.
  { intros v Hv. by destruct (Hcases v) as [_ [[? _]|[? _]]]. }
  assert (∀ v, v ∈ tv' → dist_le (dget (dists st) cur) (dget ds' v)) as Hfloor.
  { intros v Hv. destruct (Hcases v) as [_ [[-> _]|(_ & _ & -> & _)]].
    - apply Hleast, Hmem. by right.
    - apply dist_le_add, edge_weight_nonneg. }
  split; rewrite Htv; fold ds'.
  - intros u v Hu Hnot Hv. rewrite (Hsame u Hnot).
    eapply dist_le_trans; [|by apply Hfloor].
    destruct (decide (u = cur)) as [->|Huc]; [apply dist_le_refl|].
    apply Hsettled; [done| |done]. rewrite Hmem. naive_solver.
  - intros u v Hnot Hstep. rewrite (Hsame u Hnot).
    destruct (decide (u = cur)) as [->|Huc].
    + destruct (decide (v ∈ tv')) as [Hv|Hv].
      * apply Hbound; [done| |by apply neighbors_edge, Hstep].
        rewrite Hlen. apply Hstep.
      * rewrite (Hsame v Hv).
        eapply dist_le_trans; [|apply dist_le_add, edge_weight_nonneg].
        destruct (decide (v = cur)) as [->|Hvc]; [apply dist_le_refl|].
        apply Hsettled; [apply Hstep| |done]. rewrite Hmem. naive_solver.
    + eapply dist_le_trans; [apply Hle|].
      apply Hfeasible; [|done]. rewrite Hmem. naive_solver.
Qed.

Lemma dijkstra_opt_loop fuel st :
  dijkstra_inv nodes edges s st → dijkstra_tree_inv sqrtQ nodes edges s st →
  dijkstra_opt_inv sqrtQ nodes edges st →
  dijkstra_opt_inv sqrtQ nodes edges (dijkstra_loop sqrtQ fuel nodes edges st).
Proof.
  revert st. induction fuel as [|fuel IH]; intros st Hinv Htree Hopt; simpl; [done|].
  destruct (tovisit st) as [|v tv] eqn:E; [done|].
  assert (tovisit st ≠ []) as Hne by by rewrite E.
  apply IH.
  - by apply (dijkstra_step_inv sqrtQ nodes edges s s_node st Hne).
  - by apply dijkstra_tree_step.
  - apply dijkstra_opt_step; [done..|by destruct Htree|done].
Qed.

(** With an empty queue no walk from the source undercuts a distance. *)
Lemma feasible_walk_bound (ds : list dist) u walk v acc :
  (∀ a b, edge_step (length nodes) edges a b →
          dist_le (dget ds b) (dist_add (dget ds a) (edge_weight sqrtQ nodes a b))) →
  is_walk (length nodes) edges u walk v →
  dist_le (dget ds u) (Fin acc) →
  dist_le (dget ds v) (Fin (walk_cost sqrtQ nodes acc u walk)).
Proof.
  intros Hfeas. revert u acc. induction walk as [|x walk IH]; intros u acc; simpl.
  - by intros ->.
  - intros [Hstep Hwalk] Hu. apply (IH x); [done|].
    eapply dist_le_trans; [by apply Hfeas|]. by apply dist_add_le_mono.
Qed.

End ShortestWalks.


Lemma dijkstra_Ok_final (sqrtQ : Q → Q) (nodes : list vec) (edges : list (Z * Z))
    (index : Z) (d : list dist) (p : list Z) :
  dijkstra_algorithm sqrtQ nodes edges index = Ok (d, p) →
  ∃ s, py_index (length nodes) index = Ok s ∧ (s < length nodes)%nat
       ∧ d = dists (dijkstra_run sqrtQ nodes edges s)
       ∧ p = prevs (dijkstra_run sqrtQ nodes edges s)
       ∧ ∀ v, (v < length nodes)%nat → finite (dget d v).
Proof.
  unfold dijkstra_algorithm. intros H. inv_bind H as s Hs.
  destruct (existsb is_inf _) eqn:Hex; [done|]. injection H as <- <-.
  apply py_index_Ok in Hs as Hlt. destruct Hlt as [Hlt _].
  exists s. split_and!; [done..|].
  intros v Hv.
  destruct (dget (dists (dijkstra_run sqrtQ nodes edges s)) v) eqn:Hinf; [done|].
  apply not_true_iff_false in Hex. exfalso. apply Hex, existsb_is_inf. exists v.
  split; [|done].
  by destruct (dijkstra_run_spec sqrtQ nodes edges s Hlt) as (_ & -> & _).
Qed.

(** X1. The distance returned for a point is the length of a walk from the
    source to the point along directed edges, and no such walk is shorter,
    when no root is negative. *)
Theorem dijkstra_shortest_walks (sqrtQ : Q → Q) (nodes : list vec)
    (edges : list (Z * Z)) (index : Z) (d : list dist) (p : list Z) :
  sqrt_nonneg sqrtQ →
  dijkstra_algorithm sqrtQ nodes edges index = Ok (d, p) →
  ∃ s, py_index (length nodes) index = Ok s
    ∧ ∀ v, (v < length nodes)%nat →
        ∃ walk, is_walk (length nodes) edges s walk v
          ∧ d !! v = Some (Fin (walk_cost sqrtQ nodes 0 s walk))
          ∧ ∀ walk', is_walk (length nodes) edges s walk' v →
              (walk_cost sqrtQ nodes 0 s walk <= walk_cost sqrtQ nodes 0 s walk')%Q.
Proof.
  intros Hnonneg (s & Hs & Hlt & -> & -> & Hfin)%dijkstra_Ok_final.
  exists s. split; [done|]. intros v Hv.
  pose proof (dijkstra_init_inv nodes edges s Hlt) as Hinv0.
  assert (length (tovisit (dijkstra_init (length nodes) s)) ≤ length nodes)%nat as Hfuel
    by (simpl; by rewrite length_seq).
  destruct (dijkstra_loop_inv sqrtQ nodes edges s Hlt _ _ Hinv0 Hfuel) as [Hinv Hnil].
  pose proof (dijkstra_tree_loop sqrtQ nodes edges s Hlt (length nodes) _ Hinv0
                (dijkstra_tree_init sqrtQ nodes edges s Hlt)) as Htree.
  pose proof (dijkstra_opt_loop sqrtQ nodes edges s Hlt Hnonneg (length nodes) _ Hinv0
                (dijkstra_tree_init sqrtQ nodes edges s Hlt)
                (dijkstra_opt_init sqrtQ nodes edges s Hlt)) as Hopt.
  fold (dijkstra_run sqrtQ nodes edges s) in Hinv, Hnil, Htree, Hopt.
  destruct (tree_walk _ _ _ _ _ Htree v (Hfin v Hv)) as (walk & Hwalk & Hd).
  exists walk. split_and!; [done| |].
  - unfold dget in Hd.
    destruct (dists (dijkstra_run sqrtQ nodes edges s) !! v); simpl in Hd; by subst.
  - intros walk' Hwalk'.
    assert (dist_le (dget (dists (dijkstra_run sqrtQ nodes edges s)) v)
                    (Fin (walk_cost sqrtQ nodes 0 s walk'))) as Hle.
    { eapply (feasible_walk_bound sqrtQ nodes edges); [|done|].
      - intros a b Hab. apply (opt_feasible _ _ _ _ Hopt); [|done].
        rewrite Hnil. apply not_elem_of_nil.
      - rewrite (inv_src _ _ _ _ Hinv). apply dist_le_refl. }
    rewrite Hd in Hle. by apply dist_le_Fin in Hle as (q & [= <-] & Hq).
Qed.

(** X2. The predecessor array returned has one entry per point, -1 at the
    source, and at every other point [v] a point [u] with an edge from [u]
    to [v] along which the distance of [v] is that of [u] plus the length
    of the edge. *)
Theorem dijkstra_predecessors (sqrtQ : Q → Q) (nodes : list vec)
    (edges : list (Z * Z)) (index : Z) (d : list dist) (p : list Z) :
  dijkstra_algorithm sqrtQ nodes edges index = Ok (d, p) →
  ∃ s, py_index (length nodes) index = Ok s
    ∧ length p = length nodes
    ∧ p !! s = Some (-1)
    ∧ ∀ v, (v < length nodes)%nat → v ≠ s →
        ∃ u, p !! v = Some (Z.of_nat u) ∧ (u < length nodes)%nat
             ∧ (Z.of_nat u, Z.of_nat v) ∈ edges
             ∧ dget d v = dist_add (dget d u) (edge_weight sqrtQ nodes u v).
Proof.
  intros (s & Hs & Hlt & -> & -> & Hfin)%dijkstra_Ok_final.
  exists s. split; [done|].
  pose proof (dijkstra_tree_loop sqrtQ nodes edges s Hlt (length nodes) _
                (dijkstra_init_inv nodes edges s Hlt)
                (dijkstra_tree_init sqrtQ nodes edges s Hlt)) as Htree.
  fold (dijkstra_run sqrtQ nodes edges s) in Htree.
  destruct Htree as [Hplen Hpsrc _ Hprev].
  split_and!; [done..|].
  intros v Hv Hvs.
  destruct (Hprev v Hvs (Hfin v Hv)) as (u & Hpu & _ & Hu & [_ He] & Hd).
  by exists u.
Qed.

(** ** The resampler: what is returned *)

(** [np.delete] on [np.arange] and on an array of the same length keep the
    same positions. *)
Lemma delete_at_from_arange {A} (ks : list nat) (k0 : nat) (l : list A) :
  Forall2 (λ i x, ∃ j, i = Z.of_nat (k0 + j) ∧ l !! j = Some x)
          (delete_at_from ks k0 (Z.of_nat <$> seq k0 (length l)))
          (delete_at_from ks k0 l).
Proof.
  revert k0. induction l as [|x l IH]; intros k0; simpl; [constructor|].
  assert (Forall2 (λ i y, ∃ j, i = Z.of_nat (k0 + j) ∧ (x :: l) !! j = Some y)
            (delete_at_from ks (S k0) (Z.of_nat <$> seq (S k0) (length l)))
            (delete_at_from ks (S k0) l)) as Htail.
  { eapply Forall2_impl; [apply IH|]. intros i y (j & -> & Hj).
    exists (S j). split; [f_equal; lia|done]. }
  case_bool_decide; [done|]. constructor; [|done].
  exists 0%nat. split; [f_equal; lia|done].
Qed.

Lemma delete_at_from_arange_sorted (ks : list nat) (k0 n : nat) :
  StronglySorted Z.lt (delete_at_from ks k0 (Z.of_nat <$> seq k0 n))
  ∧ Forall (λ i, Z.of_nat k0 ≤ i < Z.of_nat (k0 + n))
           (delete_at_from ks k0 (Z.of_nat <$> seq k0 n)).
Proof.
  revert k0. induction n as [|n IH]; intros k0; simpl.
  - split; constructor.
  - destruct (IH (S k0)) as [Hs Hr].
    assert (Forall (λ i, Z.of_nat k0 < i < Z.of_nat (k0 + S n))
              (delete_at_from ks (S k0) (Z.of_nat <$> seq (S k0) n))) as Hr'.
    { eapply Forall_impl; [done|]. simpl. intros; lia. }
    case_bool_decide.
    + split; [done|]. eapply Forall_impl; [exact Hr'|]. simpl. intros; lia.
    + split.
      * constructor; [done|]. eapply Forall_impl; [exact Hr'|]. simpl. intros; lia.
      * constructor; [lia|]. eapply Forall_impl; [exact Hr'|]. simpl. intros; lia.
Qed.

Lemma position_of_Ok (sampled : list Z) (e : Z) (a : nat) :
  position_of sampled e = Ok a → sampled !! a = Some e.
Proof.
  unfold position_of. intros (x & Hx & Hp & _)%of_option_Ok%np_where_head.
  by apply bool_decide_eq_true in Hp as ->.
Qed.

Section ResamplerOutput.

Variable sqrtQ : Q → Q.

(** The parts of a call of [resample_points] that returns. *)
Lemma resample_points_Ok (points : list vec) (edges : list (Z * Z)) (ind : indices)
    (perc : Q) (remove_caps : nat)
    (sampled : list Z) (points' : list vec) (edges' : list (Z * Z)) :
  (resample_points sqrtQ points edges ind perc remove_caps).1
    = Ok (sampled, points', edges') →
  ∃ ks kept,
    sampled = delete_at ks (Z.of_nat <$> seq 0 (length points))
    ∧ points' = delete_at ks points
    ∧ Forall2 (λ e e', ∃ a b : nat, e' = (Z.of_nat a, Z.of_nat b)
                 ∧ sampled !! a = Some e.1 ∧ sampled !! b = Some e.2)
              (filter (λ e, e.1 ≠ e.2) kept) edges'.
Proof.
  unfold resample_points. simpl. intros H.
  inv_bind H as st Hst. inv_bind H as se Hse. destruct se as [sampled0 edges0].
  inv_bind H as pts Hpts. injection H as <- <- <-.
  unfold remove_points in Hse. inv_bind Hse as si Hsi. inv_bind Hse as es Hes.
  injection Hse as <- <-.
  unfold np_delete in Hsi, Hpts. rewrite length_fmap, length_seq in Hsi.
  inv_bind Hsi as ks Hks. inv_bind Hpts as ks' Hks'.
  rewrite Hks in Hks'. injection Hks' as <-.
  injection Hsi as <-. injection Hpts as <-.
  exists ks. eexists. split_and!; [done..|].
  apply result_mapM_Ok in Hes.
  eapply Forall2_impl; [exact Hes|]. simpl. intros e e' He.
  inv_bind He as a Ha. inv_bind He as b Hb. injection He as <-.
  exists a, b. split_and!; [done|by apply position_of_Ok..].
Qed.

(** X3. The points returned are the input points at the indices of
    [sampled_indices], which are non-negative and strictly increasing. *)
Theorem resample_sampled_points (points : list vec) (edges : list (Z * Z))
    (ind : indices) (perc : Q) (remove_caps : nat)
    (sampled : list Z) (points' : list vec) (edges' : list (Z * Z)) :
  (resample_points sqrtQ points edges ind perc remove_caps).1
    = Ok (sampled, points', edges') →
  Forall2 (λ i p, 0 ≤ i ∧ points !! Z.to_nat i = Some p) sampled points'
  ∧ StronglySorted Z.lt sampled.
Proof.
  intros (ks & kept & -> & -> & _)%resample_points_Ok. split.
  - eapply Forall2_impl; [apply (delete_at_from_arange ks 0 points)|].
    simpl. intros i p (j & -> & Hj). split; [lia|]. by rewrite Nat2Z.id.
  - apply (delete_at_from_arange_sorted ks 0 (length points)).
Qed.

(** X4. Every edge returned joins two different points of the point array
    returned. *)
Theorem resample_edges_valid (points : list vec) (edges : list (Z * Z))
    (ind : indices) (perc : Q) (remove_caps : nat)
    (sampled : list Z) (points' : list vec) (edges' : list (Z * Z)) :
  (resample_points sqrtQ points edges ind perc remove_caps).1
    = Ok (sampled, points', edges') →
  ∀ e, e ∈ edges' →
    ∃ a b : nat, e = (Z.of_nat a, Z.of_nat b) ∧ a ≠ b
      ∧ (a < length points')%nat ∧ (b < length points')%nat.
Proof.
  intros H. pose proof H as (ks & kept & Hs & Hp & Hedges)%resample_points_Ok.
  assert (length sampled = length points') as Hlen.
  { rewrite Hs, Hp. apply Forall2_length with (1 := delete_at_from_arange ks 0 points). }
  intros e (k & Hk)%list_elem_of_lookup.
  destruct (Forall2_lookup_r _ _ _ _ _ Hedges Hk) as (e0 & He0 & a & b & -> & Ha & Hb).
  apply list_elem_of_lookup_2, list_elem_of_filter in He0 as [Hne _].
  exists a, b. split_and!; [done| |rewrite <- Hlen; by eapply lookup_lt_Some..].
  intros ->. congruence.
Qed.

End ResamplerOutput.

(** ** The resampler: the protected outlet *)

Lemma elem_of_delete_at_arange (ks : list nat) (k0 n x : nat) :
  Z.of_nat x ∈ delete_at_from ks k0 (Z.of_nat <$> seq k0 n)
  ↔ (k0 ≤ x < k0 + n)%nat ∧ x ∉ ks.
Proof.
  revert k0. induction n as [|n IH]; intros k0; simpl.
  - split; [by intros ?%elem_of_nil|lia].
  - case_bool_decide as Hk.
    + rewrite IH. split; [intros [? ?]; split; [lia|done]|].
      intros [? Hx]. split; [|done]. destruct (decide (x = k0)) as [->|]; [done|lia].
    + rewrite elem_of_cons, IH. split.
      * intros [Heq|[? ?]]; [|split; [lia|done]].
        assert (x = k0) as -> by lia. split; [lia|done].
      * intros [? Hx]. destruct (decide (x = k0)) as [->|]; [by left|right].
        split; [lia|done].
Qed.

Lemma collapse_fold_deleted (f g : Z → Z) (l : list Z) (st : rstate) :
  r_delete (foldl (λ st x, collapse st (f x) (g x)) st l) = r_delete st ++ (f <$> l).
Proof.
  revert st. induction l as [|x l IH]; intros st; simpl.
  - by rewrite app_nil_r.
  - rewrite IH. simpl. by rewrite <- app_assoc.
Qed.

(** The points removed by cap removal. *)
Lemma cap_removal_deleted (remove_caps : nat) (ind : indices) (st : rstate) (d : Z) :
  d ∈ r_delete (cap_removal remove_caps ind st) →
  d ∈ r_delete st
  ∨ ∃ ip, 0 ≤ ip < Z.of_nat remove_caps
          ∧ ((∃ i, i ∈ inlet ind ∧ d = i + ip) ∨ (∃ o, o ∈ outlets ind ∧ d = o - ip)).
Proof.
  unfold cap_removal.
  assert (∀ ips st, (∀ ip, ip ∈ ips → 0 ≤ ip < Z.of_nat remove_caps) →
            d ∈ r_delete (foldl (cap_pass remove_caps ind) st ips) →
            d ∈ r_delete st
            ∨ ∃ ip, 0 ≤ ip < Z.of_nat remove_caps
                ∧ ((∃ i, i ∈ inlet ind ∧ d = i + ip)
                   ∨ (∃ o, o ∈ outlets ind ∧ d = o - ip))) as Hfold.
  { induction ips as [|ip ips IH]; intros st0 Hips; simpl; [by left|].
    intros Hd. apply IH in Hd as [Hd|Hd]; [|by right|intros; apply Hips; by right].
    unfold cap_pass in Hd. rewrite !collapse_fold_deleted in Hd.
    apply elem_of_app in Hd as [[Hd|Hd]%elem_of_app|Hd]; [by left| |].
    - apply list_elem_of_fmap in Hd as (i & -> & Hi). right. exists ip.
      split; [apply Hips; by left|]. left. by exists i.
    - apply list_elem_of_fmap in Hd as (o & -> & Ho). right. exists ip.
      split; [apply Hips; by left|]. right. by exists o. }
  apply Hfold. intros ip (k & -> & Hk%elem_of_seq)%list_elem_of_fmap. lia.
Qed.

Section ProtectedOutlet.

Variable sqrtQ : Q → Q.
Hypothesis sqrtQ_zero : sqrt_zero sqrtQ.

(** A step removes one endpoint of an edge in favour of the other one, and
    a protected outlet only in favour of another protected outlet. *)
Lemma decimate_step_protected (points : list vec) (protected : list Z) (st st' : rstate) :
  decimate_step sqrtQ points protected st = Ok st' →
  ∃ d r, st' = collapse st d r ∧ d ≠ r ∧ (d ∈ protected → r ∈ protected).
Proof.
  unfold decimate_step. intros H. inv_bind H as mind Hmind.
  inv_bind H as e He. apply of_option_Ok in He.
  apply (pick_edge_spec sqrtQ) in Hmind as (e0 & len & m & He0 & Hlen & Hnc & _).
  rewrite He in He0. injection He0 as <-. destruct e as [a b]. simpl in H.
  assert (a ≠ b) as Hab.
  { intros ->. apply (edge_length_self sqrtQ sqrtQ_zero) in Hlen. congruence. }
  case_bool_decide as Hb; injection H as <-.
  - exists b, a. split_and!; [done|done|]. intros ?. done.
  - exists a, b. split_and!; [done|done|]. intros _.
    destruct (decide (b ∈ protected)); [done|]. exfalso. naive_solver.
Qed.

Lemma decimate_protected (k : nat) (points : list vec) (protected : list Z)
    (st st' : rstate) :
  decimate sqrtQ k points protected st = Ok st' →
  ∃ decs, r_delete st' = r_delete st ++ decs
          ∧ ∀ d, d ∈ decs → d ∈ protected → ∃ r, r ∈ protected ∧ r ≠ d.
Proof.
  revert st. induction k as [|k IH]; intros st; simpl.
  - intros [= <-]. exists []. split; [by rewrite app_nil_r|].
    intros d Hd. by apply elem_of_nil in Hd.
  - intros H. inv_bind H as st1 Hst1.
    apply decimate_step_protected in Hst1 as (d & r & -> & Hdr & Hprot).
    apply IH in H as (decs & Hdel & Hdecs). simpl in Hdel.
    exists (d :: decs). split; [by rewrite Hdel, <- app_assoc|].
    intros d' [->|Hd']%elem_of_cons; [|by apply Hdecs].
    intros Hd. exists r. split; [by apply Hprot|done].
Qed.

(** X20. With a single outlet [o], non-negative edges and inlets, and no inlet
    cap reaching the point [o - remove_caps], a call that returns keeps the
    point [o - remove_caps], the outlet it reports in [indices]. *)
Theorem resample_keeps_single_outlet (points : list vec) (edges : list (Z * Z))
    (ind : indices) (perc : Q) (remove_caps : nat) (o : Z)
    (sampled : list Z) (points' : list vec) (edges' : list (Z * Z)) :
  outlets ind = [o] →
  Z.of_nat remove_caps ≤ o < Z.of_nat (length points) →
  (∀ e, e ∈ edges → 0 ≤ e.1 ∧ 0 ≤ e.2) →
  (∀ i, i ∈ inlet ind → 0 ≤ i ∧ ¬ (i ≤ o - Z.of_nat remove_caps < i + Z.of_nat remove_caps)) →
  (resample_points sqrtQ points edges ind perc remove_caps).1
    = Ok (sampled, points', edges') →
  outlets (resample_points sqrtQ points edges ind perc remove_caps).2
    = [o - Z.of_nat remove_caps]
  ∧ o - Z.of_nat remove_caps ∈ sampled.
Proof.
  intros Hout Ho Hnn Hin H. split.
  { unfold resample_points, new_outlets. simpl. by rewrite Hout. }
  unfold resample_points in H. simpl in H.
  inv_bind H as st Hst. inv_bind H as se Hse. destruct se as [sampled0 edges0].
  inv_bind H as pts Hpts. injection H as <- <- <-.
  set (st0 := cap_removal remove_caps ind
                {| r_edges := edges; r_delete := []; r_replace := [] |}) in *.
  set (p := o - Z.of_nat remove_caps) in *.
  (* the cap points *)
  assert (∀ d, d ∈ r_delete st0 → 0 ≤ d ∧ d ≠ p) as Hcaps.
  { intros d Hd. apply cap_removal_deleted in Hd as [Hd|(ip & Hip & Hd)].
    - by apply elem_of_nil in Hd.
    - destruct Hd as [(i & Hi & ->)|(o' & Ho' & ->)].
      + destruct (Hin i Hi). unfold p. lia.
      + rewrite Hout in Ho'. apply list_elem_of_singleton in Ho' as ->. unfold p. lia. }
  (* the points removed by decimation *)
  destruct (cap_removal_spec remove_caps ind
              {| r_edges := edges; r_delete := []; r_replace := [] |})
    as (Hnn0 & caps & Hcapseq & _); [done|intros i Hi; by destruct (Hin i Hi)| |].
  { intros o' Ho'. rewrite Hout in Ho'. apply list_elem_of_singleton in Ho' as ->. lia. }
  simpl in Hcapseq. fold st0 in Hnn0, Hcapseq.
  destruct (decimate_inv sqrtQ sqrtQ_zero _ _ _ _ _ caps [] Hst Hnn0)
    as (decs & Hdel & _ & _ & Hdnn).
  { by rewrite app_nil_r. }
  { constructor. }
  { intros d Hd. by apply elem_of_nil in Hd. }
  destruct (decimate_protected _ _ _ _ _ Hst) as (decs' & Hdel' & Hprot).
  rewrite Hcapseq in Hdel'. rewrite Hdel in Hdel'. apply app_inv_head in Hdel' as <-.
  assert (∀ d, d ∈ r_delete st → 0 ≤ d ∧ d ≠ p) as Hall.
  { intros d. rewrite Hdel. intros [Hd|Hd]%elem_of_app.
    - apply Hcaps. by rewrite Hcapseq.
    - split; [by apply Hdnn|]. intros ->.
      destruct (Hprot p Hd) as (r & Hr & Hrp).
      + unfold new_outlets. rewrite Hout. simpl. by left.
      + unfold new_outlets in Hr. rewrite Hout in Hr. simpl in Hr.
        by apply list_elem_of_singleton in Hr. }
  (* the indices kept *)
  unfold remove_points in Hse. inv_bind Hse as si Hsi. inv_bind Hse as es Hes.
  injection Hse as <- <-.
  unfold np_delete in Hsi. rewrite length_fmap, length_seq in Hsi.
  inv_bind Hsi as ks Hks. injection Hsi as <-.
  apply result_mapM_Ok in Hks.
  replace p with (Z.of_nat (Z.to_nat p)) by (unfold p; lia).
  apply (elem_of_delete_at_arange ks 0). split; [unfold p; lia|].
  intros (i & Hi)%list_elem_of_lookup.
  destruct (Forall2_lookup_r _ _ _ _ _ Hks Hi) as (d & Hd & Hidx).
  apply list_elem_of_lookup_2 in Hd. destruct (Hall d Hd) as [Hd0 Hdp].
  rewrite py_index_nonneg in Hidx by done.
  case_bool_decide; [|done]. injection Hidx as Heq. unfold p in *. lia.
Qed.

End ProtectedOutlet.

(** ** [remove_points]: when it returns and what it raises *)

Lemma py_index_Ok_iff (n : nat) (d : Z) (k : nat) :
  py_index n d = Ok k
  ↔ (k < n)%nat ∧ (d = Z.of_nat k ∨ d = Z.of_nat k - Z.of_nat n).
Proof.
  split; [intros H%py_index_Ok; lia|].
  intros [Hk Hd]. unfold py_index. repeat case_bool_decide; try lia; f_equal; lia.
Qed.

Lemma py_index_Err (n : nat) (d : Z) (e : error) :
  py_index n d = Err e → e = IndexError ∧ ¬ (- Z.of_nat n ≤ d < Z.of_nat n).
Proof.
  unfold py_index. repeat case_bool_decide; try done. intros [= <-]. split; [done|lia].
Qed.

Lemma result_mapM_elem {A B} (f : A → result B) (l : list A) (ys : list B) :
  result_mapM f l = Ok ys → ∀ y, y ∈ ys ↔ ∃ x, x ∈ l ∧ f x = Ok y.
Proof.
  intros H%result_mapM_Ok y. induction H as [|x y' l ys Hxy _ IH].
  - split; [by intros ?%elem_of_nil|by intros (x & ?%elem_of_nil & _)].
  - rewrite elem_of_cons, IH. split.
    + intros [->|(x' & ? & ?)]; [exists x; split; [by left|done]|].
      exists x'. split; [by right|done].
    + intros (x' & [->|Hin]%elem_of_cons & Hx'); [left; congruence|].
      right. by exists x'.
Qed.

Lemma result_mapM_Err {A B} (f : A → result B) (l : list A) (e : error) :
  result_mapM f l = Err e → ∃ x, x ∈ l ∧ f x = Err e.
Proof.
  induction l as [|x l IH]; simpl; [done|].
  destruct (f x) as [y|e'] eqn:Hx; simpl.
  - destruct (result_mapM f l) as [ys|e'] eqn:Hl; simpl; [done|].
    intros [= <-]. destruct (IH eq_refl) as (x' & ? & ?).
    exists x'. split; [by right|done].
  - intros [= <-]. exists x. split; [by left|done].
Qed.

Lemma position_of_total (sampled : list Z) (e : Z) :
  e ∈ sampled → ∃ a, position_of sampled e = Ok a.
Proof.
  intros Hin. unfold position_of, np_where.
  destruct (np_where_from_head_total (λ x, bool_decide (x = e)) 0 sampled e Hin)
    as [k ->]; [by apply bool_decide_eq_true|]. by eexists.
Qed.

Lemma position_of_Err (sampled : list Z) (e : Z) (err : error) :
  position_of sampled e = Err err → err = IndexError ∧ e ∉ sampled.
Proof.
  intros H. split.
  - unfold position_of in H. destruct (head _); simpl in H; congruence.
  - intros [a Ha]%position_of_total. congruence.
Qed.

Lemma kept_point_sampled (dels : list Z) (n : nat) (ks : list nat) (x : Z) :
  result_mapM (py_index n) dels = Ok ks →
  x ∈ delete_at ks (Z.of_nat <$> seq 0 n) ↔ kept_point dels n x.
Proof.
  intros Hks. unfold delete_at, kept_point. split.
  - intros Hin.
    assert (∃ k : nat, x = Z.of_nat k) as [k ->].
    { clear Hks. revert Hin. generalize 0%nat.
      induction n as [|n IH]; intros k0; simpl; [by intros ?%elem_of_nil|].
      case_bool_decide; [by apply IH|].
      intros [->|?]%elem_of_cons; [by eexists|by eapply IH]. }
    apply elem_of_delete_at_arange in Hin as [Hk Hnot].
    split; [lia|]. split; intros Hd; apply Hnot.
    + apply (result_mapM_elem _ _ _ Hks). eexists. split; [done|].
      apply py_index_Ok_iff. lia.
    + apply (result_mapM_elem _ _ _ Hks). eexists. split; [done|].
      apply py_index_Ok_iff. lia.
  - intros (Hx & Hd1 & Hd2).
    replace x with (Z.of_nat (Z.to_nat x)) by lia.
    apply elem_of_delete_at_arange. split; [lia|].
    intros (d & Hd & [_ Hcase]%py_index_Ok_iff)%(result_mapM_elem _ _ _ Hks).
    destruct Hcase as [->| ->].
    + apply Hd1. by replace x with (Z.of_nat (Z.to_nat x)) by lia.
    + apply Hd2. by replace x with (Z.of_nat (Z.to_nat x)) by lia.
Qed.

(** X21. With a replacement for every index to delete (the loop reads
    [idxs_to_replace[i]] for each of them), [remove_points] returns exactly
    when every index to delete is within [-npoints, npoints) and both ends of
    every edge left after the replacements are kept points; in every other
    case it raises [IndexError]. *)
Theorem remove_points_returns_iff (idxs_to_delete idxs_to_replace : list Z)
    (edges : list (Z * Z)) (npoints : nat) :
  (length idxs_to_delete ≤ length idxs_to_replace)%nat →
  let in_bounds := ∀ d, d ∈ idxs_to_delete →
                        - Z.of_nat npoints ≤ d < Z.of_nat npoints in
  let ends_kept := ∀ e, e ∈ replayed_edges idxs_to_delete idxs_to_replace edges →
                        kept_point idxs_to_delete npoints e.1
                        ∧ kept_point idxs_to_delete npoints e.2 in
  (in_bounds ∧ ends_kept →
   ∃ r, remove_points idxs_to_delete idxs_to_replace edges npoints = Ok r)
  ∧ (¬ (in_bounds ∧ ends_kept) →
     remove_points idxs_to_delete idxs_to_replace edges npoints = Err IndexError).
Proof.
  intros _ in_bounds ends_kept. unfold remove_points, np_delete.
  fold (replayed_edges idxs_to_delete idxs_to_replace edges).
  rewrite length_fmap, length_seq.
  destruct (result_mapM (py_index npoints) idxs_to_delete) as [ks|e] eqn:Hks;
    cbn [mbind result_bind].
  - assert (in_bounds) as Hb.
    { intros d Hd. destruct (py_index npoints d) as [k|e] eqn:Hk.
      - apply py_index_Ok in Hk. lia.
      - pose proof (result_mapM_Ok _ _ _ Hks) as HF.
        apply list_elem_of_lookup_1 in Hd as [i Hi].
        destruct (Forall2_lookup_l _ _ _ _ _ HF Hi) as (k & _ & Hk'). congruence. }
    set (sampled := delete_at ks (Z.of_nat <$> seq 0 npoints)).
    destruct (result_mapM _ (replayed_edges _ _ _)) as [es|e] eqn:Hes;
      cbn [mbind result_bind].
    + split; [by eexists|]. intros Hnot. exfalso. apply Hnot. split; [done|].
      intros e He. apply list_elem_of_lookup_1 in He as [i Hi].
      destruct (Forall2_lookup_l _ _ _ _ _ (result_mapM_Ok _ _ _ Hes) Hi)
        as (y & _ & Hy).
      destruct (position_of sampled e.1) as [a|] eqn:Ha; [|done].
      destruct (position_of sampled e.2) as [b|] eqn:Hb2; [|done].
      apply position_of_Ok, list_elem_of_lookup_2 in Ha.
      apply position_of_Ok, list_elem_of_lookup_2 in Hb2.
      split; by apply (kept_point_sampled _ _ ks).
    + apply result_mapM_Err in Hes as (x & Hx & Hex).
      assert (e = IndexError ∧ (x.1 ∉ sampled ∨ x.2 ∉ sampled)) as [-> Hout].
      { destruct (position_of sampled x.1) as [a|e1] eqn:Ha; simpl in Hex.
        - destruct (position_of sampled x.2) as [b|e2] eqn:Hb2; simpl in Hex; [done|].
          injection Hex as <-. apply position_of_Err in Hb2 as [-> ?]. by split; [|right].
        - injection Hex as <-. apply position_of_Err in Ha as [-> ?]. by split; [|left]. }
      split; [|done]. intros [_ Hk]. exfalso.
      destruct (Hk x Hx) as [H1 H2].
      apply (kept_point_sampled _ _ ks) in H1; [|done].
      apply (kept_point_sampled _ _ ks) in H2; [|done].
      by destruct Hout.
  - apply result_mapM_Err in Hks as (d & Hd & [-> Hout]%py_index_Err).
    split; [|done]. intros [Hb _]. exfalso. by apply Hout, Hb.
Qed.

(** ** The driver's retry loop *)

Lemma retry_loop_S (sqrtQ : Q → Q) (fuel : nat) (points : list vec)
    (edges : list (Z * Z)) (ind : indices) (perc : Q) (remove_caps : nat) :
  retry_loop sqrtQ (S fuel) points edges ind perc remove_caps
  = match resample_points sqrtQ points edges ind perc remove_caps with
    | (Ok r, _) => ([{| a_perc := perc; a_indices := ind |}], Some r)
    | (Err _, ind') =>
        let '(calls, r) := retry_loop sqrtQ fuel points edges ind'
                             (Qmin (perc * 2) 1) remove_caps in
        ({| a_perc := perc; a_indices := ind |} :: calls, r)
    end.
Proof. done. Qed.

(** X5. Attempt number [k] of the loop (counted from 0) is made with the
    fraction doubled [k] times, each time capped at 1, and with the outlets
    moved down by [k] times [remove_caps]; every attempt before the last one
    made has raised. *)
Theorem retry_attempts (sqrtQ : Q → Q) (fuel : nat) (points : list vec)
    (edges : list (Z * Z)) (ind : indices) (perc : Q) (remove_caps : nat)
    (calls : list attempt) (r : option (list Z * list vec * list (Z * Z))) :
  retry_loop sqrtQ fuel points edges ind perc remove_caps = (calls, r) →
  ∀ k call, calls !! k = Some call →
    a_perc call = Nat.iter k (λ p, Qmin (p * 2) 1) perc
    ∧ inlet (a_indices call) = inlet ind
    ∧ outlets (a_indices call)
      = (λ o, o - Z.of_nat k * Z.of_nat remove_caps) <$> outlets ind
    ∧ ((S k < length calls)%nat →
       is_Err (resample_points sqrtQ points edges (a_indices call) (a_perc call)
                 remove_caps).1).
Proof.
  revert ind perc calls r. induction fuel as [|fuel IH]; intros ind perc calls r.
  - intros [= <- <-] k call Hk. done.
  - rewrite retry_loop_S.
    destruct (resample_points sqrtQ points edges ind perc remove_caps)
      as [[res|err] ind'] eqn:E.
    + intros [= <- <-] [|k] call; [|done]. intros [= <-]. cbn [a_perc a_indices].
      split_and!; [done..| |simpl; lia].
      rewrite <- (list_fmap_id (outlets ind)) at 1. apply list_fmap_ext.
      intros _ o _. simpl. lia.
    + destruct (retry_loop sqrtQ fuel points edges ind' (Qmin (perc * 2) 1) remove_caps)
        as [calls' r'] eqn:Eloop.
      intros [= <- <-] [|k] call.
      * intros [= <-]. cbn [a_perc a_indices]. split_and!; [done..| |].
        -- rewrite <- (list_fmap_id (outlets ind)) at 1. apply list_fmap_ext.
           intros _ o _. simpl. lia.
        -- intros _. by rewrite E.
      * intros Hk. change (calls' !! k = Some call) in Hk.
        destruct (IH _ _ _ _ Eloop k call Hk) as (Hp & Hi & Ho & Herr).
        assert (ind' = {| inlet := inlet ind; outlets := new_outlets remove_caps ind |})
          as -> by (unfold resample_points in E; by injection E as _ <-).
        cbn [inlet outlets] in Hi, Ho. split_and!.
        -- by rewrite Nat.iter_succ_r.
        -- done.
        -- rewrite Ho. unfold new_outlets. rewrite <- list_fmap_compose.
           apply list_fmap_ext. intros _ o _. simpl. lia.
        -- intros Hlt. apply Herr. simpl in Hlt. lia.
Qed.

(** ** Boundary edges: the rows retained *)

Lemma elem_of_delete_at_from {A} (ks : list nat) (k0 : nat) (l : list A) (x : A) :
  x ∈ delete_at_from ks k0 l → x ∈ l.
Proof.
  revert k0. induction l as [|y l IH]; intros k0; simpl; [done|].
  case_bool_decide.
  - intros ?%IH. by right.
  - intros [->|?%IH]%elem_of_cons; [by left|by right].
Qed.

Section BoundaryRows.

Local Open Scope nat_scope.

Variable sqrtQ : Q → Q.
Variable points : list vec.
Variable ind : indices.
Variable edges : list (Z * Z).

Lemma boundary_rows_dst (rows : list bedge) (r : bedge) :
  generate_boundary_edges sqrtQ points ind edges = Ok rows →
  r ∈ rows → b_dst r < length points.
Proof.
  unfold generate_boundary_edges. intros H Hr.
  inv_bind H as blocks Hblocks. inv_bind H as dels Hdels. injection H as <-.
  apply elem_of_delete_at_from, elem_of_concat in Hr as (block & Hblock & Hr).
  apply result_mapM_Ok in Hblocks.
  apply list_elem_of_lookup in Hblock as (k & Hk).
  destruct (Forall2_lookup_r _ _ _ _ _ Hblocks Hk) as (index & _ & Hrows).
  apply boundary_rows_Ok in Hrows as (d & ps & _ & Hlen & Hrow).
  apply list_elem_of_lookup in Hr as (i & Hi).
  apply lookup_lt_Some in Hi as Hlt. rewrite Hlen in Hlt.
  destruct (Hrow i Hlt) as (p & q & _ & _ & Hri).
  rewrite Hi in Hri. by injection Hri as ->.
Qed.

(** X6. Every boundary edge retained starts at an inlet or an outlet and ends
    at a point that is neither; its distance is finite and at least 1e-12,
    and its type is 1 when it starts at an inlet and 2 otherwise. *)
Theorem boundary_edges_rows (rows : list bedge) :
  generate_boundary_edges sqrtQ points ind edges = Ok rows →
  ∀ r, r ∈ rows →
    b_src r ∈ inlet ind ++ outlets ind
    ∧ b_dst r < length points
    ∧ (∀ index, index ∈ inlet ind ++ outlets ind →
                py_index (length points) index ≠ Ok (b_dst r))
    ∧ (∃ q, b_dist r = Fin q ∧ (tol12 <= q)%Q)
    ∧ b_type r = (if bool_decide (b_src r ∈ inlet ind) then 1 else 2)%Z.
Proof.
  intros H r Hr.
  pose proof (boundary_rows_dst rows r H Hr) as Hlt.
  destruct (boundary_edges_spec sqrtQ points ind edges rows H) as [Hall Hpoint].
  destruct (Hpoint (b_dst r) Hlt)
    as (k & index & d & ps & p & q & Hk & Hd & Hp & Hq & Hmin & _ & Hfilter).
  assert (r ∈ filter (λ r0, b_dst r0 = b_dst r) rows) as Hin
    by by apply list_elem_of_filter.
  rewrite Hfilter in Hin.
  destruct (dist_ltb (dget d (b_dst r)) (Fin tol12)) eqn:Htol;
    [by apply elem_of_nil in Hin|].
  apply list_elem_of_singleton in Hin.
  apply dijkstra_Ok_final in Hd as Hfin.
  destruct Hfin as (s & _ & _ & _ & _ & Hfin).
  specialize (Hfin (b_dst r) Hlt).
  destruct (dget d (b_dst r)) as [x|] eqn:Hx; [|done].
  simpl in Htol. apply Qltb_ge in Htol.
  assert (b_src r = index ∧ b_dist r = Fin x
          ∧ b_type r = (if bool_decide (index ∈ inlet ind) then 1 else 2)%Z)
    as (Hsrc & Hdist & Htype).
  { rewrite Hin. simpl. by rewrite Hx. }
  split_and!.
  - rewrite Hsrc. by eapply list_elem_of_lookup_2.
  - done.
  - intros index' Hindex' Hidx.
    destruct (Hall index' Hindex') as (d' & ps' & Hd').
    pose proof (Hmin index' d' ps' Hindex' Hd') as Hle.
    apply dijkstra_Ok_final in Hd' as (s' & Hs' & Hs'lt & -> & _).
    rewrite Hidx in Hs'. injection Hs' as <-.
    destruct (dijkstra_run_spec sqrtQ points edges (b_dst r) Hlt) as (_ & _ & Hsrc0 & _).
    rewrite Hsrc0 in Hle. simpl in Hle. apply Qltb_ge in Hle.
    assert (tol12 <= 0)%Q as Hbad by by eapply Qle_trans.
    by apply Qle_not_lt in Hbad.
  - by exists x.
  - by rewrite Hsrc.
Qed.

End BoundaryRows.

(** ** Junction edges: their endpoints *)

Lemma dict_get_set {V} (m : dict V) (k : Z) (v : V) (k' : Z) :
  dict_get (dict_set m k v) k'
  = if bool_decide (k = k') then Some v else dict_get m k'.
Proof.
  induction m as [|[k0 v0] m IH]; simpl; [done|].
  destruct (decide (k0 = k)) as [->|Hne].
  - rewrite bool_decide_eq_true_2 by done. simpl. by repeat case_bool_decide.
  - rewrite bool_decide_eq_false_2 by done. simpl. rewrite IH.
    repeat case_bool_decide; simplify_eq; done.
Qed.

Section JunctionEdges.

Local Open Scope nat_scope.

(** What one iteration does to the stored inlets and to the edges. *)
Lemma junction_step_graph bif_id st k st' :
  junction_step bif_id st k = Ok st' →
  let fresh := junction_entry bif_id k
               ∧ ∃ bn, bif_id !! S k = Some bn
                       ∧ dict_get (juncts_inlets st) bn = None in
  (fresh ∧ (∃ bn, juncts_inlets st' = dict_set (juncts_inlets st) bn k)
         ∧ jedges1 st' = jedges1 st ∧ jedges2 st' = jedges2 st)
  ∨ (junction_exit bif_id k ∧ juncts_inlets st' = juncts_inlets st
     ∧ ∃ key v, dict_get (juncts_inlets st) key = Some v
                ∧ jedges1 st' = jedges1 st ++ [v] ∧ jedges2 st' = jedges2 st ++ [k])
  ∨ (¬ junction_exit bif_id k
     ∧ (juncts_inlets st' = juncts_inlets st
        ∨ ∃ key key' v, dict_get (juncts_inlets st) key = Some v
                        ∧ juncts_inlets st' = dict_set (juncts_inlets st) key' v)
     ∧ jedges1 st' = jedges1 st ∧ jedges2 st' = jedges2 st).
Proof.
  unfold junction_step, enters_junction, changes_junction, leaves_junction,
    bif_at, bif_prev, junction_entry, junction_exit.
  rewrite !py_get_nat. intros H. simpl.
  destruct (bif_id !! k) as [b|] eqn:Hb; simpl in H; [|done].
  destruct (decide (b = (-1)%Z)) as [->|Hbne].
  - rewrite bool_decide_eq_true_2 in H by done.
    destruct (bif_id !! S k) as [bn|] eqn:Hbn; simpl in H; [|done].
    destruct (decide (bn = (-1)%Z)) as [->|Hbnne].
    + rewrite bool_decide_eq_false_2 in H by naive_solver. simpl in H.
      destruct (py_get bif_id (Z.of_nat k - 1)) as [bp|] eqn:Hbp; simpl in H; [|done].
      destruct (decide (bp = (-1)%Z)) as [->|Hbpne].
      * rewrite bool_decide_eq_false_2 in H by naive_solver.
        injection H as <-. right; right. split_and!; [naive_solver|by left|done..].
      * rewrite bool_decide_eq_true_2 in H by done.
        destruct (dict_get (juncts_inlets st) bp) as [v|] eqn:Hd; simpl in H; [|done].
        injection H as <-. simpl. right; left.
        split_and!; [by exists bp|done|by exists bp, v].
    + rewrite bool_decide_eq_true_2 in H by done.
      destruct (dict_get (juncts_inlets st) bn) eqn:Hd.
      * injection H as <-. right; right. split_and!; [naive_solver|by left|done..].
      * injection H as <-. simpl. left. split_and!; [naive_solver..|by exists bn|done|done].
  - rewrite bool_decide_eq_false_2 in H by done. simpl in H.
    destruct (decide (k = 0)) as [->|Hk].
    + rewrite bool_decide_eq_true_2 in H by done.
      destruct (bif_id !! 1) as [bn|] eqn:Hbn; simpl in H; [|done].
      destruct (dict_get (juncts_inlets st) bn) eqn:Hd.
      * injection H as <-. right; right. split_and!; [naive_solver|by left|done..].
      * injection H as <-. simpl. left. split_and!; [naive_solver..|by exists bn|done|done].
    + rewrite bool_decide_eq_false_2 in H by done.
      rewrite bool_decide_eq_true_2 in H by done.
      destruct (py_get bif_id (Z.of_nat k - 1)) as [bp|] eqn:Hbp; simpl in H; [|done].
      case_bool_decide.
      * destruct (dict_get (juncts_inlets st) bp) as [v|] eqn:Hd; simpl in H; [|done].
        injection H as <-. right; right.
        split_and!; [naive_solver| |done..]. right. by exists bp, b, v.
      * simpl in H.
        injection H as <-. right; right. split_and!; [naive_solver|by left|done..].
Qed.

Lemma junction_scan_inv bif_id k st :
  junction_scan bif_id k = Ok st → junction_inv bif_id k st.
Proof.
  revert st. induction k as [|k IH]; intros st.
  { intros [= <-]. split; simpl; [done|constructor| |constructor].
    intros b. split; [by intros ?%elem_of_nil|lia]. }
  { rewrite junction_scan_S. intros H. inv_bind H as st0 Hst0.
    destruct (IH st0 Hst0) as [Hdict Hedges Hexits Hnd].
    assert (recorded_inlet bif_id k ↔
              junction_entry bif_id k
              ∧ ∃ bn, bif_id !! S k = Some bn
                      ∧ dict_get (juncts_inlets st0) bn = None) as Hrec.
    { unfold recorded_inlet. rewrite Hst0. naive_solver. }
    assert (∀ key v, dict_get (juncts_inlets st0) key = Some v →
                     v < S k ∧ recorded_inlet bif_id v) as Hdict'.
    { intros key v Hv. destruct (Hdict key v Hv). split; [lia|done]. }
    assert (∀ b, b ∈ jedges2 st0 ↔ b < S k ∧ b ≠ k ∧ junction_exit bif_id b) as Hexits'.
    { intros b. rewrite Hexits. split.
      - intros [? ?]. split_and!; [lia..|done].
      - intros (? & ? & ?). split; [lia|done]. }
    apply junction_step_graph in H as
      [(Hf & (bn & Hd) & He1 & He2)
      |[(Hex & Hd & key & v & Hv & He1 & He2)|(Hex & Hd & He1 & He2)]].
    - (* a junction inlet is recorded *)
      assert (¬ junction_exit bif_id k) as Hnex.
      { destruct Hf as [(b0 & bn0 & Hb0 & Hbn0 & Hcase) _].
        intros (bp & Hb1 & Hb2 & _). naive_solver. }
      split; rewrite ?He1, ?He2, ?Hd; [|done| |done].
      + intros key v. rewrite dict_get_set. case_bool_decide; [|by apply Hdict'].
        intros [= <-]. split; [lia|]. by apply Hrec.
      + intros b. rewrite Hexits'. split; [naive_solver|].
        intros [? Hb]. split_and!; [done| |done]. by intros ->.
    - (* an edge is collected *)
      split; rewrite ?He1, ?He2, ?Hd; [done| | |].
      + apply Forall2_app; [done|]. constructor; [|constructor].
        by destruct (Hdict key v Hv).
      + intros b. rewrite elem_of_app, list_elem_of_singleton, Hexits'.
        split; [intros [?| ->]; [naive_solver|split; [lia|done]]|].
        intros [? ?]. destruct (decide (b = k)); [by right|left; done].
      + apply NoDup_app. split_and!; [done| |apply NoDup_singleton].
        intros b Hb ->%list_elem_of_singleton. apply Hexits in Hb. lia.
    - (* neither *)
      split; rewrite ?He1, ?He2; [|done| |done].
      + destruct Hd as [->|(key & key' & v & Hv & ->)]; [done|].
        intros key0 v0. rewrite dict_get_set. case_bool_decide; [|by apply Hdict'].
        intros [= <-]. by apply (Hdict' key).
      + intros b. rewrite Hexits'. split; [naive_solver|].
        intros [? Hb]. split_and!; [done| |done]. by intros ->. }
Qed.

(** X7. The junction edges are the edges collected by the scan followed by
    their reverses. The scan collects one edge for every junction exit, in
    the order of the exits, and the edge comes from a recorded junction
    inlet that precedes the exit in point order. *)
Theorem junction_edges_endpoints (sqrtQ : Q → Q) (points : list vec) (bif_id : list Z)
    (edges : list (Z * Z)) (r : jresult) :
  create_junction_edges sqrtQ points bif_id edges = Ok r →
  ∃ e1 e2,
    j_edges1 r = e1 ++ e2 ∧ j_edges2 r = e2 ++ e1
    ∧ Forall2 (λ a b, recorded_inlet bif_id a ∧ junction_exit bif_id b ∧ a < b) e1 e2
    ∧ NoDup e2
    ∧ ∀ b, b ∈ e2 ↔ junction_exit bif_id b.
Proof.
  unfold create_junction_edges. intros H.
  inv_bind H as st Hst. inv_bind H as dd Hdd.
  inv_bind H as feats Hfeats. injection H as <-. simpl.
  destruct (junction_scan_inv _ _ _ Hst) as [_ Hedges Hexits Hnd].
  exists (jedges1 st), (jedges2 st). split_and!; [done..|].
  intros b. rewrite Hexits. split; [by intros [_ ?]|].
  intros Hb. split; [|done]. apply junction_exit_lt in Hb. lia.
Qed.

(** X8. When the first two points are ordinary and the last point is a
    junction point, the test [bif_id[ipoint - 1]] at the first point reads
    the last entry, and the call ends in a KeyError. *)
Theorem junction_edges_wrap_around (sqrtQ : Q → Q) (points : list vec)
    (bif_id : list Z) (edges : list (Z * Z)) (b : Z) :
  bif_id !! 0 = Some (-1)%Z → bif_id !! 1 = Some (-1)%Z →
  last bif_id = Some b → b ≠ (-1)%Z →
  create_junction_edges sqrtQ points bif_id edges = Err KeyError.
Proof.
  intros H0 H1 Hlast Hb.
  assert (2 < length bif_id) as Hlen.
  { destruct bif_id as [|x0 [|x1 [|x2 l]]]; simpl in *; simplify_eq; lia. }
  assert (py_get bif_id (-1) = Ok b) as Hprev.
  { unfold py_get, py_index.
    rewrite bool_decide_eq_false_2 by lia. rewrite bool_decide_eq_true_2 by lia.
    simpl. rewrite last_lookup in Hlast.
    replace (Z.to_nat (-1 + Z.of_nat (length bif_id))) with (pred (length bif_id)) by lia.
    by rewrite Hlast. }
  assert (junction_step bif_id (junction_init (length bif_id)) 0 = Err KeyError) as Hstep.
  { unfold junction_step, enters_junction, changes_junction, leaves_junction,
      bif_at, bif_prev.
    rewrite !py_get_nat, H0, H1. simpl.
    change (Z.of_nat 0 - 1)%Z with (-1)%Z.
    rewrite Hprev. simpl. by rewrite bool_decide_eq_true_2. }
  unfold create_junction_edges, junction_scan.
  destruct (length bif_id - 1) as [|n] eqn:Hn; [lia|].
  simpl. by rewrite Hstep.
Qed.

End JunctionEdges.

(** ** Junction edges: their features *)

Section JunctionFeatures.

Local Open Scope nat_scope.

Variable sqrtQ : Q → Q.
Variable points : list vec.
Variable edges : list (Z * Z).

(** Every array of distances stored by [for jun_id in juncts_inlets] is
    the result of the Dijkstra run from the point it is stored under. *)
Lemma junction_dists_spec (m : dict nat) (acc res : dict (list dist)) :
  junction_dists sqrtQ points edges m acc = Ok res →
  (∀ key d, dict_get acc key = Some d →
            ∃ ps, dijkstra_algorithm sqrtQ points edges key = Ok (d, ps)) →
  ∀ key d, dict_get res key = Some d →
           ∃ ps, dijkstra_algorithm sqrtQ points edges key = Ok (d, ps).
Proof.
  revert acc. induction m as [|[jun inl_] m IH]; intros acc; simpl.
  - by intros [= <-].
  - intros H Hacc. inv_bind H as dp Hdp. destruct dp as [d0 ps0].
    apply (IH _ H). intros key d. rewrite dict_get_set.
    case_bool_decide as Hkey; [|by apply Hacc].
    intros [= <-]. subst key. by exists ps0.
Qed.

(** X9. An edge collected by the scan, from the junction inlet [a] to the exit
    [b], carries the relative position [points[b] - points[a]], which is not
    normalised, and the distance of [b] in the Dijkstra run from [a]. *)
Theorem junction_edge_features (bif_id : list Z) (r : jresult) :
  create_junction_edges sqrtQ points bif_id edges = Ok r →
  ∀ k a b, 2 * k < length (j_edges1 r) →
    j_edges1 r !! k = Some a → j_edges2 r !! k = Some b →
    ∃ pa pb d ps dd,
      points !! a = Some pa ∧ points !! b = Some pb
      ∧ dijkstra_algorithm sqrtQ points edges (Z.of_nat a) = Ok (d, ps)
      ∧ d !! b = Some dd
      ∧ j_rel_position r !! k = Some (vsub pb pa)
      ∧ j_distance r !! k = Some dd.
Proof.
  unfold create_junction_edges. intros H.
  inv_bind H as st Hst. inv_bind H as dd Hdd.
  inv_bind H as feats Hfeats. injection H as <-. simpl.
  pose proof (junction_loop_edges _ _ _ _ Hst eq_refl) as Hlen.
  apply result_mapM_Ok in Hfeats.
  pose proof (junction_dists_spec _ _ _ Hdd) as Hdists.
  intros k a b Hk Ha Hb. rewrite length_app in Hk.
  rewrite lookup_app_l in Ha by lia. rewrite lookup_app_l in Hb by lia.
  assert (zip (jedges1 st) (jedges2 st) !! k = Some (a, b)) as Hzip.
  { apply lookup_zip_with_Some. by exists a, b. }
  destruct (Forall2_lookup_l _ _ _ _ _ Hfeats Hzip) as (f & Hf & Hrow).
  simpl in Hrow. inv_bind Hrow as pb Hpb. inv_bind Hrow as pa Hpa.
  inv_bind Hrow as d Hd. inv_bind Hrow as x Hx. injection Hrow as <-.
  apply of_option_Ok in Hpb, Hpa, Hd, Hx.
  destruct (Hdists ltac:(done) _ _ Hd) as [ps Hps].
  exists pa, pb, d, ps, x. split_and!; [done..| |].
  - rewrite lookup_app_l by (rewrite length_fmap; by eapply lookup_lt_Some).
    by rewrite list_lookup_fmap, Hf.
  - rewrite lookup_app_l by (rewrite length_fmap; by eapply lookup_lt_Some).
    by rewrite list_lookup_fmap, Hf.
Qed.

End JunctionFeatures.

(** ** The partitioner: local numbering and the number of partitions *)

Section PartitionTree.

Local Open Scope nat_scope.

Variable edges : list (Z * Z).
Variable inlets : list Z.

Lemma partition_tree_init (root : Z) : partition_tree_inv edges (partition_init root).
Proof.
  split; simpl; try done.
  - by intros x v [<- <-]%lookup_singleton_Some.
  - intros x ->%list_elem_of_singleton. by rewrite lookup_singleton_eq.
Qed.

Lemma visit_edge_tree (j next_point : Z) (st : pstate) :
  is_Some (numbering st !! j) → (j, next_point) ∈ edges →
  partition_tree_inv edges st →
  partition_tree_inv edges (visit_edge inlets j st next_point)
  ∧ is_Some (numbering (visit_edge inlets j st next_point) !! j).
Proof.
  intros Hj Hedge [Hcount Hlen Hnum Hq Hedges].
  assert (∀ x v, <[next_point := count st]> (numbering st) !! x = Some v →
                 (sampling_indices st ++ [next_point]) !! v = Some x) as Hnum'.
  { intros x v. destruct (decide (next_point = x)) as [->|Hne].
    - rewrite lookup_insert_eq. intros [= <-].
      rewrite <- Hcount, lookup_app_r by done. by rewrite Nat.sub_diag.
    - rewrite lookup_insert_ne by done. intros Hv%Hnum.
      by apply lookup_app_l_Some. }
  assert (is_Some (<[next_point := count st]> (numbering st) !! j)) as [a Ha].
  { apply lookup_insert_is_Some'. by right. }
  split; [split; simpl|simpl; by rewrite Ha].
  - rewrite length_app. simpl. lia.
  - rewrite length_app. simpl. lia.
  - done.
  - intros x Hx. apply lookup_insert_is_Some'. case_bool_decide as Hin.
    + apply elem_of_app in Hx as [Hx|Hx]; [right; by apply Hq|].
      apply list_elem_of_singleton in Hx as ->. by left.
    + right. by apply Hq.
  - intros k a' b' Hk. rewrite Ha, lookup_insert_eq in Hk. simpl in Hk.
    apply lookup_app_Some in Hk as [Hk|[Hge Hk]].
    + destruct (Hedges k a' b' Hk) as (-> & Hle & x & y & Hx & Hy & Hxy).
      split_and!; [done..|]. exists x, y. split_and!; [by apply lookup_app_l_Some..|done].
    + apply list_lookup_singleton_Some in Hk as [Hk0 [= <- <-]].
      assert (k = length (new_edges st)) as -> by lia.
      pose proof (Hnum' _ _ Ha) as Hja.
      apply lookup_lt_Some in Hja as Halt. rewrite length_app in Halt. simpl in Halt.
      split_and!; [lia|lia|]. exists j, next_point. split_and!; [done| |done].
      rewrite <- Hcount, lookup_app_r by done. by rewrite Nat.sub_diag.
Qed.

Lemma visit_edges_tree (j : Z) (nexts : list Z) (st : pstate) :
  is_Some (numbering st !! j) → (∀ x, x ∈ nexts → (j, x) ∈ edges) →
  partition_tree_inv edges st →
  partition_tree_inv edges (foldl (visit_edge inlets j) st nexts).
Proof.
  revert st. induction nexts as [|x nexts IH]; intros st Hj Hall Hinv; simpl; [done|].
  destruct (visit_edge_tree j x st Hj) as [Hinv' Hj']; [apply Hall; by left|done|].
  apply IH; [done| |done]. intros; apply Hall; by right.
Qed.

Lemma partition_loop_tree (fuel : nat) (st st' : pstate) :
  partition_loop fuel edges inlets st = Ok st' →
  partition_tree_inv edges st → partition_tree_inv edges st'.
Proof.
  revert st. induction fuel as [|fuel IH]; intros st; simpl.
  - destruct (points_to_visit st); [by intros [= <-]|done].
  - destruct (points_to_visit st) as [|j rest] eqn:E; [by intros [= <-]|].
    intros H Hinv. eapply IH; [done|].
    destruct Hinv as [Hcount Hlen Hnum Hq Hedges].
    apply visit_edges_tree.
    + simpl. apply Hq. rewrite E. by left.
    + apply out_neighbors_edge.
    + split; simpl; try done. intros x Hx. apply Hq. rewrite E. by right.
Qed.

Lemma create_partition_tree (fuel : nat) (root : Z) (pedges : list (nat * nat))
    (sampling : list Z) :
  create_partition fuel edges root inlets = Ok (pedges, sampling) →
  length sampling = S (length pedges)
  ∧ ∀ k a b, pedges !! k = Some (a, b) →
      b = S k ∧ a ≤ b
      ∧ ∃ x y, sampling !! a = Some x ∧ sampling !! b = Some y ∧ (x, y) ∈ edges.
Proof.
  unfold create_partition. intros H. inv_bind H as st Hst. injection H as <- <-.
  apply partition_loop_tree in Hst as [Hcount Hlen _ _ Hedges];
    [|apply partition_tree_init].
  split; [lia|done].
Qed.

End PartitionTree.

(** X10. Every partition returned has at least two edges and one point more
    than it has edges; its points are the points of the input at its
    sampling indices; and its edge at position [k] ends at the local point
    [k + 1] and joins the local copies of the endpoints of an edge of the
    input, its start being numbered no higher than its end. *)
Theorem partitions_local_trees (rnd : nat → nat) (fuel : nat)
    (points : list vec) (bif_id : list Z) (edges : list (Z * Z))
    (max_num_partitions : nat) (parts : list partition) :
  create_partitions rnd fuel points bif_id edges max_num_partitions = Ok parts →
  ∀ part, part ∈ parts →
    (2 ≤ length (p_edges part))%nat
    ∧ length (p_sampling_indices part) = S (length (p_edges part))
    ∧ Forall2 (λ i p, py_get points i = Ok p) (p_sampling_indices part) (p_points part)
    ∧ ∀ k a b, p_edges part !! k = Some (a, b) →
        b = S k ∧ (a ≤ b)%nat
        ∧ ∃ x y, p_sampling_indices part !! a = Some x
                 ∧ p_sampling_indices part !! b = Some y ∧ (x, y) ∈ edges.
Proof.
  unfold create_partitions. intros H. inv_bind H as inlets Hinlets.
  inv_bind H as built Hbuilt. injection H as <-.
  apply result_mapM_Ok in Hbuilt.
  intros part [Hsize (i & Hi)%list_elem_of_lookup]%list_elem_of_filter.
  destruct (Forall2_lookup_r _ _ _ _ _ Hbuilt Hi) as (root & _ & Hb).
  unfold build_partition in Hb. inv_bind Hb as es Hes. destruct es as [pedges sampling].
  inv_bind Hb as ppoints Hpp. inv_bind Hb as pbif Hpb. injection Hb as <-.
  simpl in *.
  apply create_partition_tree in Hes as [Hlen Hedges].
  apply result_mapM_Ok in Hpp.
  split_and!; [lia|done..].
Qed.

(** *** The roots chosen *)

Lemma select_scan_length (rnd : nat → nat) (fuel : nat) (bif_id : list Z)
    (edges : list (Z * Z)) (max_num_partitions : nat) (ipoints : list nat)
    (inlets : list Z) (c : nat) (res : list Z) (c' : nat) :
  select_scan rnd fuel bif_id edges max_num_partitions ipoints inlets c = Ok (res, c') →
  (length inlets ≤ max_num_partitions)%nat →
  (length res ≤ max_num_partitions)%nat ∧ ∃ more, res = inlets ++ more.
Proof.
  revert inlets c. induction ipoints as [|ipoint rest IH]; intros inlets c; simpl.
  - intros [= <- <-] Hle. split; [done|]. exists []. by rewrite app_nil_r.
  - case_bool_decide as Hfull.
    + intros [= <- <-] Hle. split; [done|]. exists []. by rewrite app_nil_r.
    + intros H Hle. inv_bind H as b Hb. inv_bind H as exits Hexits.
      destruct exits.
      * inv_bind H as next Hnext. case_bool_decide.
        -- inv_bind H as r Hr. apply IH in H as [Hlen (more & ->)].
           ++ split; [done|]. exists (r :: more). by rewrite <- app_assoc.
           ++ rewrite length_app. simpl. lia.
        -- by apply IH in H.
      * by apply IH in H.
Qed.

Lemma random_sample_length (rnd : nat → nat) (c : nat) (population : list Z) (k : nat)
    (xs : list Z) :
  random_sample rnd c population k = Ok xs → length xs = k.
Proof.
  revert c population xs. induction k as [|k IH]; intros c population xs; simpl.
  - by intros [= <-].
  - intros H. inv_bind H as x Hx. inv_bind H as xs' Hxs. injection H as <-.
    simpl. f_equal. by eapply IH.
Qed.

Lemma select_inlets_length (rnd : nat → nat) (fuel : nat) (bif_id : list Z)
    (edges : list (Z * Z)) (max_num_partitions : nat) (inlets : list Z) :
  select_inlets rnd fuel bif_id edges max_num_partitions = Ok inlets →
  (0 < max_num_partitions)%nat →
  head inlets = Some 0 ∧ (length inlets ≤ max_num_partitions)%nat.
Proof.
  unfold select_inlets. intros H Hmax. inv_bind H as res Hres. destruct res as [scanned c].
  apply select_scan_length in Hres as [Hlen (more & ->)]; [|simpl; lia].
  case_bool_decide as Hshort.
  - case_bool_decide; [done|]. inv_bind H as new Hnew. injection H as <-.
    apply random_sample_length in Hnew. split; [done|].
    simpl in *. rewrite length_app, Hnew. lia.
  - injection H as <-. done.
Qed.

(** X11. For a positive [max_num_partitions], the roots chosen start with point
    0 and are at most [max_num_partitions], and there are no more
    partitions than roots. *)
Theorem partitions_at_most_max (rnd : nat → nat) (fuel : nat)
    (points : list vec) (bif_id : list Z) (edges : list (Z * Z))
    (max_num_partitions : nat) (parts : list partition) :
  (0 < max_num_partitions)%nat →
  create_partitions rnd fuel points bif_id edges max_num_partitions = Ok parts →
  ∃ inlets,
    select_inlets rnd fuel bif_id edges max_num_partitions = Ok inlets
    ∧ head inlets = Some 0
    ∧ (length inlets ≤ max_num_partitions)%nat
    ∧ (length parts ≤ length inlets)%nat.
Proof.
  unfold create_partitions. intros Hmax H. inv_bind H as inlets Hinlets.
  inv_bind H as built Hbuilt. injection H as <-.
  apply result_mapM_Ok, Forall2_length in Hbuilt.
  destruct (select_inlets_length _ _ _ _ _ _ Hinlets Hmax) as [Hhead Hlen].
  exists inlets. split_and!; [done..|].
  rewrite Hbuilt. apply length_filter.
Qed.

(** The scan for junction exits reads [bif_id[ipoint + 1]] at every
    junction point: when it gets to the last point and that point is a
    junction point, it ends in an IndexError. *)
Lemma select_scan_overrun (rnd : nat → nat) (fuel : nat) (bif_id : list Z)
    (edges : list (Z * Z)) (max_num_partitions : nat) (inlets : list Z) (c : nat)
    (b : Z) (a len : nat) :
  last bif_id = Some b → b ≠ -1 →
  (∀ i bi bn, bif_id !! i = Some bi → bif_id !! S i = Some bn → bi ≠ -1 → bn ≠ -1) →
  length inlets ≠ max_num_partitions →
  (a + S len = length bif_id)%nat →
  select_scan rnd fuel bif_id edges max_num_partitions (seq a (S len)) inlets c
  = Err IndexError.
Proof.
  intros Hlast Hb Hnoexit Hfull. revert a.
  induction len as [|len IH]; intros a Ha.
  - simpl.
    rewrite (bool_decide_eq_false_2 (length inlets = max_num_partitions)) by done.
    unfold bif_at. rewrite !py_get_nat.
    rewrite last_lookup in Hlast.
    replace (pred (length bif_id)) with a in Hlast by lia. rewrite Hlast. simpl.
    rewrite bool_decide_eq_true_2 by done.
    rewrite lookup_ge_None_2 by lia. done.
  - change (seq a (S (S len))) with (a :: seq (S a) (S len)).
    cbn [select_scan].
    rewrite (bool_decide_eq_false_2 (length inlets = max_num_partitions)) by done.
    unfold bif_at. rewrite !py_get_nat.
    destruct (lookup_lt_is_Some_2 bif_id a) as [bi Hbi]; [lia|].
    destruct (lookup_lt_is_Some_2 bif_id (S a)) as [bn Hbn]; [lia|].
    rewrite Hbi. cbn [of_option mbind result_bind].
    destruct (decide (bi = -1)) as [Hj|Hj].
    + rewrite (bool_decide_eq_false_2 (bi ≠ -1)) by naive_solver.
      cbn [mbind result_bind]. apply IH. lia.
    + rewrite (bool_decide_eq_true_2 (bi ≠ -1)) by done.
      rewrite Hbn. cbn [of_option mbind result_bind].
      rewrite (bool_decide_eq_false_2 (bn = -1)) by by apply (Hnoexit a bi bn).
      cbn [mbind result_bind]. apply IH. lia.
Qed.

(** X12. When no junction point is followed by an ordinary point and the last
    point is a junction point, [create_partitions] ends in an IndexError,
    unless [max_num_partitions] is 1. *)
Theorem partitions_last_junction (rnd : nat → nat) (fuel : nat)
    (points : list vec) (bif_id : list Z) (edges : list (Z * Z))
    (max_num_partitions : nat) (b : Z) :
  last bif_id = Some b → b ≠ -1 →
  (∀ i bi bn, bif_id !! i = Some bi → bif_id !! S i = Some bn → bi ≠ -1 → bn ≠ -1) →
  max_num_partitions ≠ 1%nat →
  create_partitions rnd fuel points bif_id edges max_num_partitions = Err IndexError.
Proof.
  intros Hlast Hb Hnoexit Hmax.
  unfold create_partitions, select_inlets.
  destruct (length bif_id) as [|n] eqn:Hn.
  { apply length_zero_iff_nil in Hn. by subst. }
  rewrite (select_scan_overrun rnd fuel bif_id edges max_num_partitions [0] 0 b 0 n);
    try done; simpl; lia.
Qed.

(** ** When the traversals of [create_partitions] end *)

Lemma out_neighbors_elem (edges : list (Z * Z)) (j y : Z) :
  y ∈ out_neighbors edges j ↔ (j, y) ∈ edges.
Proof.
  unfold out_neighbors. rewrite list_elem_of_fmap. split.
  - intros ([a b] & -> & [Ha Hin]%list_elem_of_filter). simpl in *. by subst.
  - intros Hin. exists (j, y). split; [done|]. by apply list_elem_of_filter.
Qed.

Lemma visit_edges_queue (inlets : list Z) (j : Z) (nexts : list Z) (st : pstate) :
  points_to_visit (foldl (visit_edge inlets j) st nexts)
  = points_to_visit st ++ filter (λ y, y ∉ inlets) nexts.
Proof.
  revert st. induction nexts as [|y nexts IH]; intros st; cbn [foldl].
  - by rewrite app_nil_r.
  - rewrite IH. unfold visit_edge. cbn [points_to_visit]. rewrite filter_cons.
    destruct (decide (y ∉ inlets)) as [Hy|Hy].
    + rewrite bool_decide_eq_true_2 by done. by rewrite <- app_assoc.
    + by rewrite bool_decide_eq_false_2 by done.
Qed.

Lemma sum_list_with_filter_le {A} (f : A → nat) (P : A → Prop) `{∀ x, Decision (P x)}
    (l : list A) :
  (sum_list_with f (filter P l) ≤ sum_list_with f l)%nat.
Proof.
  induction l as [|x l IH]; [done|].
  rewrite filter_cons. destruct (decide (P x)); simpl; lia.
Qed.

Lemma sum_list_with_le {A} (f : A → nat) (c : nat) (l : list A) :
  (∀ x, x ∈ l → (f x ≤ c)%nat) → (sum_list_with f l ≤ length l * c)%nat.
Proof.
  induction l as [|x l IH]; intros H; simpl; [lia|].
  assert (f x ≤ c)%nat by (apply H; by left).
  assert (sum_list_with f l ≤ length l * c)%nat by (apply IH; intros; apply H; by right).
  lia.
Qed.

Section AcyclicEdges.
Variable edges : list (Z * Z).
Variable r : Z → nat.
Variable R : nat.
Hypothesis r_decreases : ∀ j y, (j, y) ∈ edges → (r y < r j)%nat.
Hypothesis r_bounded : ∀ x, (r x ≤ R)%nat.

Local Abbreviation weight := (visit_weight edges r).

Lemma weight_pos (x : Z) : (1 ≤ weight x)%nat.
Proof using Type.
  unfold visit_weight. pose proof (Nat.pow_nonzero (S (length edges)) (r x)). lia.
Qed.

Lemma weight_children (j : Z) :
  (S (sum_list_with weight (out_neighbors edges j)) ≤ weight j)%nat.
Proof using r_decreases.
  destruct (out_neighbors edges j) as [|y0 l] eqn:Hout; [apply weight_pos|].
  rewrite <- Hout.
  assert ((j, y0) ∈ edges) as Hy0 by (apply out_neighbors_elem; rewrite Hout; by left).
  apply r_decreases in Hy0.
  destruct (r j) as [|m] eqn:Hm; [lia|].
  assert (sum_list_with weight (out_neighbors edges j)
          ≤ length (out_neighbors edges j) * S (length edges) ^ m)%nat as Hsum.
  { apply sum_list_with_le. intros y Hy%out_neighbors_elem%r_decreases.
    unfold visit_weight. apply Nat.pow_le_mono_r; lia. }
  assert (length (out_neighbors edges j) ≤ length edges)%nat as Hlen.
  { unfold out_neighbors. rewrite length_fmap. apply length_filter. }
  unfold visit_weight at 2. rewrite Hm, Nat.pow_succ_r'.
  pose proof (Nat.pow_nonzero (S (length edges)) m).
  nia.
Qed.

Lemma partition_loop_ends (inlets : list Z) (fuel : nat) (st : pstate) :
  (sum_list_with weight (points_to_visit st) ≤ fuel)%nat →
  ∃ st', partition_loop fuel edges inlets st = Ok st'.
Proof using r_decreases.
  revert st. induction fuel as [|fuel IH]; intros st Hsum;
    destruct (points_to_visit st) as [|j rest] eqn:Hq.
  - simpl. rewrite Hq. by eexists.
  - simpl in Hsum. pose proof (weight_pos j). lia.
  - simpl. rewrite Hq. by eexists.
  - simpl. rewrite Hq. apply IH. rewrite visit_edges_queue. cbn [points_to_visit].
    rewrite sum_list_with_app. simpl in Hsum.
    pose proof (weight_children j).
    pose proof (sum_list_with_filter_le weight (λ y, y ∉ inlets) (out_neighbors edges j)).
    lia.
Qed.

Lemma create_partition_ends (fuel : nat) (root : Z) (inlets : list Z) :
  (S (length edges) ^ R ≤ fuel)%nat →
  ∃ res, create_partition fuel edges root inlets = Ok res.
Proof using r_decreases r_bounded.
  intros Hfuel. unfold create_partition.
  destruct (partition_loop_ends inlets fuel (partition_init root)) as [st' ->].
  - simpl. unfold visit_weight.
    assert (S (length edges) ^ r root ≤ S (length edges) ^ R)%nat
      by (apply Nat.pow_le_mono_r; [lia|apply r_bounded]).
    lia.
  - by eexists.
Qed.

Lemma walk_to_junction_ends (fuel : nat) (bif_id : list Z) (j : Z) :
  (r j < fuel)%nat → walk_to_junction fuel bif_id edges j ≠ Err NoFuel.
Proof using r_decreases.
  revert j. induction fuel as [|fuel IH]; intros j Hj; [lia|]. simpl.
  destruct (out_neighbors edges j) as [|j' l] eqn:Hout; [done|].
  assert ((j, j') ∈ edges) as Hj' by (apply out_neighbors_elem; rewrite Hout; by left).
  apply r_decreases in Hj'.
  destruct (py_get bif_id j') as [b|e] eqn:Hb; simpl.
  - case_bool_decide; [done|]. apply IH. lia.
  - unfold py_get in Hb. destruct (py_index _ _) as [k|e'] eqn:Hk; simpl in Hb.
    + destruct (bif_id !! k); simpl in Hb; congruence.
    + apply py_index_Err in Hk as [-> _]. congruence.
Qed.

End AcyclicEdges.

Lemma py_get_no_fuel {A} (l : list A) (i : Z) : py_get l i ≠ Err NoFuel.
Proof.
  unfold py_get. destruct (py_index _ _) as [k|e'] eqn:Hk; simpl.
  - by destruct (l !! k).
  - apply py_index_Err in Hk as [-> _]. congruence.
Qed.

Lemma random_sample_no_fuel (rnd : nat → nat) (c : nat) (population : list Z) (k : nat) :
  random_sample rnd c population k ≠ Err NoFuel.
Proof.
  revert c population. induction k as [|k IH]; intros c population; simpl; [done|].
  destruct (population !! _); simpl; [|done].
  specialize (IH (S c) (delete (rnd c `mod` length population)%nat population)).
  by destruct (random_sample _ _ _ _) as [xs|[]].
Qed.

Lemma select_scan_no_fuel (rnd : nat → nat) (fuel : nat) (bif_id : list Z)
    (edges : list (Z * Z)) (max_num_partitions : nat) (ipoints : list nat)
    (inlets : list Z) (c : nat) :
  (∀ j, walk_to_junction fuel bif_id edges j ≠ Err NoFuel) →
  select_scan rnd fuel bif_id edges max_num_partitions ipoints inlets c ≠ Err NoFuel.
Proof.
  intros Hwalk. revert inlets c.
  induction ipoints as [|ipoint rest IH]; intros inlets c; simpl; [done|].
  case_bool_decide; [done|].
  pose proof (py_get_no_fuel bif_id (Z.of_nat ipoint)) as H1.
  pose proof (py_get_no_fuel bif_id (Z.of_nat (S ipoint))) as H2.
  unfold bif_at. destruct (py_get bif_id (Z.of_nat ipoint)) as [b|e]; simpl; [|congruence].
  case_bool_decide.
  - destruct (py_get bif_id (Z.of_nat (S ipoint))) as [bn|e]; simpl; [|congruence].
    case_bool_decide; [|apply IH].
    specialize (Hwalk (Z.of_nat ipoint)).
    destruct (walk_to_junction _ _ _ _) as [next|e]; simpl; [|congruence].
    case_bool_decide; [|apply IH].
    unfold randint. case_bool_decide; simpl; [apply IH|done].
  - simpl. apply IH.
Qed.

(** X22. With an edge list on which some rank falls along every edge (no cycle),
    there is an amount of fuel from which on [create_partition] returns from
    every starting point and [create_partitions] never runs out of fuel: on
    such an edge list both loops of the function end. *)
Theorem create_partitions_terminates (rank : Z → nat) (rnd : nat → nat)
    (points : list vec) (bif_id : list Z) (edges : list (Z * Z))
    (max_num_partitions : nat) :
  (∀ e, e ∈ edges → (rank e.2 < rank e.1)%nat) →
  ∃ fuel0, ∀ fuel, (fuel0 ≤ fuel)%nat →
    (∀ root inlets, ∃ res, create_partition fuel edges root inlets = Ok res)
    ∧ create_partitions rnd fuel points bif_id edges max_num_partitions ≠ Err NoFuel.
Proof.
  intros Hrank.
  set (r := λ x : Z, match out_neighbors edges x with [] => 0%nat | _ => rank x end).
  set (R := max_list ((λ e, rank e.1) <$> edges)).
  assert (∀ j y, (j, y) ∈ edges → (r y < r j)%nat) as Hdec.
  { intros j y Hin. unfold r.
    destruct (out_neighbors edges j) as [|y0 l] eqn:Hj.
    { apply out_neighbors_elem in Hin. rewrite Hj in Hin. by apply elem_of_nil in Hin. }
    pose proof (Hrank _ Hin). simpl in *.
    destruct (out_neighbors edges y); lia. }
  assert (∀ x, (r x ≤ R)%nat) as Hbound.
  { intros x. unfold r. destruct (out_neighbors edges x) as [|y l] eqn:Hx; [lia|].
    assert ((x, y) ∈ edges) as Hin by (apply out_neighbors_elem; rewrite Hx; by left).
    apply max_list_elem_of_le, list_elem_of_fmap. by exists (x, y). }
  exists (S (length edges) ^ R + S R)%nat. intros fuel Hfuel.
  assert (∀ root inlets, ∃ res, create_partition fuel edges root inlets = Ok res) as Hpart.
  { intros root inlets. apply (create_partition_ends edges r R Hdec Hbound). lia. }
  split; [done|]. unfold create_partitions, select_inlets.
  pose proof (select_scan_no_fuel rnd fuel bif_id edges max_num_partitions
                (seq 0 (length bif_id)) [0] 0%nat) as Hscan.
  destruct (select_scan _ _ _ _ _ _ _ _) as [[inlets c]|e]; simpl.
  2: { intros [= ->]. apply Hscan; [|done]. intros j.
       apply (walk_to_junction_ends edges r Hdec). specialize (Hbound j). lia. }
  assert (∀ inlets',
    match result_mapM (build_partition fuel points bif_id edges inlets') inlets' with
    | Ok parts => Ok (filter (λ p, (1 < length (p_edges p))%nat) parts)
    | Err e => Err e
    end ≠ Err NoFuel) as Hbuild.
  { intros inlets'.
    destruct (result_mapM _ inlets') as [parts|e] eqn:Hparts; [done|].
    apply result_mapM_Err in Hparts as (root & _ & Hroot). intros [= ->].
    unfold build_partition in Hroot.
    destruct (Hpart root inlets') as [[pedges sampling] Hres]. rewrite Hres in Hroot.
    simpl in Hroot.
    destruct (result_mapM (py_get points) sampling) as [pp|e] eqn:Hpp; simpl in Hroot.
    - destruct (result_mapM (py_get bif_id) sampling) as [pb|e] eqn:Hpb; simpl in Hroot;
        [done|].
      apply result_mapM_Err in Hpb as (x & _ & Hx). injection Hroot as ->.
      by apply py_get_no_fuel in Hx.
    - apply result_mapM_Err in Hpp as (x & _ & Hx). injection Hroot as ->.
      by apply py_get_no_fuel in Hx. }
  case_bool_decide; [|apply Hbuild].
  case_bool_decide; [done|].
  pose proof (random_sample_no_fuel rnd c
    (Z.of_nat <$> np_where (λ b, bool_decide (b = -1)) bif_id)
    (Nat.min (max_num_partitions - length inlets) 2)) as Hrs.
  destruct (random_sample _ _ _ _) as [new|e]; simpl; [apply Hbuild|congruence].
Qed.

(** *** A cycle that avoids the inlets *)

Lemma partition_loop_cycle (C : Z → Prop) (edges : list (Z * Z)) (inlets : list Z)
    (fuel : nat) (st : pstate) :
  (∀ x, C x → (x ∉ inlets) ∧ ∃ y, (x, y) ∈ edges ∧ C y) →
  (∃ x, x ∈ points_to_visit st ∧ C x) →
  partition_loop fuel edges inlets st = Err NoFuel.
Proof.
  intros HC. revert st. induction fuel as [|fuel IH]; intros st (x & Hx & HCx);
    destruct (points_to_visit st) as [|j rest] eqn:Hq;
    try (by apply elem_of_nil in Hx).
  - simpl. by rewrite Hq.
  - simpl. rewrite Hq. apply IH. rewrite visit_edges_queue. cbn [points_to_visit].
    apply elem_of_cons in Hx as [->|Hx].
    + destruct (HC _ HCx) as (_ & y & Hy & HCy). exists y. split; [|done].
      apply elem_of_app. right. apply list_elem_of_filter. split.
      * by apply HC.
      * by apply out_neighbors_elem.
    + exists x. split; [|done]. apply elem_of_app. by left.
Qed.

(** X23. If an edge leaves the starting point for a point of a set [C] that avoids
    the inlets and in which every point has an edge to a point of [C] (a
    cycle, for instance), the loop of [create_partition] never ends: it runs
    out of whatever fuel it is given. *)
Theorem create_partition_diverges_on_cycle (C : Z → Prop) (edges : list (Z * Z))
    (starting_point : Z) (inlets : list Z) (fuel : nat) :
  (∀ x, C x → (x ∉ inlets) ∧ ∃ y, (x, y) ∈ edges ∧ C y) →
  (∃ y, (starting_point, y) ∈ edges ∧ C y) →
  create_partition fuel edges starting_point inlets = Err NoFuel.
Proof.
  intros HC (y & Hy & HCy). unfold create_partition.
  destruct fuel as [|fuel]; [done|].
  cbn [partition_loop partition_init points_to_visit].
  rewrite (partition_loop_cycle C); [done|done|].
  rewrite visit_edges_queue. cbn [points_to_visit]. exists y. split; [|done].
  apply list_elem_of_filter. split; [by apply HC|by apply out_neighbors_elem].
Qed.

(** ** Outlets, point types and the continuity mask *)

(** X13. [find_outlets] lists the points that end an edge and start none; on
    an edge list without repeated edges in which no point has two
    predecessors it lists every such point once. *)
Theorem find_outlets_sinks (edges : list (Z * Z)) :
  (∀ o, o ∈ find_outlets edges
        ↔ (∃ u, (u, o) ∈ edges) ∧ out_neighbors edges o = [])
  ∧ (NoDup edges → one_predecessor edges → NoDup (find_outlets edges)).
Proof.
  split.
  - intros o. unfold find_outlets, out_neighbors.
    rewrite list_elem_of_filter, !list_elem_of_fmap. split.
    + intros [Hsrc ([u o'] & -> & Hin)]. simpl in *. split; [by exists u|].
      destruct (filter (λ e, e.1 = o') edges) as [|[a b] rest] eqn:E; [done|].
      exfalso. apply Hsrc.
      assert ((a, b) ∈ filter (λ e, e.1 = o') edges) as Hab by (rewrite E; by left).
      apply list_elem_of_filter in Hab as [Ha Hab]. simpl in Ha. subst a.
      by exists (o', b).
    + intros [[u Hu] Hnil]. split; [|by exists (u, o)].
      intros ([a b] & Ha & Hab). simpl in *. subst a.
      apply fmap_nil_inv in Hnil.
      by apply (filter_nil_not_elem_of _ _ (o, b) Hnil).
  - intros Hnd Hone. unfold find_outlets. apply NoDup_filter.
    apply NoDup_fmap_2_strong; [|done].
    intros [u v] [u' v'] Hin Hin' Heq. simpl in *. subst v'.
    f_equal. by eapply Hone.
Qed.

Lemma point_type_cases (ind : indices) (i : nat) (id : Z) :
  (point_type ind i id = 2 ↔ Z.of_nat i ∈ inlet ind)
  ∧ (point_type ind i id = 3 ↔ (Z.of_nat i ∉ inlet ind) ∧ Z.of_nat i ∈ outlets ind)
  ∧ (point_type ind i id = 0
     ↔ id = -1 ∧ (Z.of_nat i ∉ inlet ind) ∧ Z.of_nat i ∉ outlets ind)
  ∧ (point_type ind i id = 1
     ↔ id ≠ -1 ∧ (Z.of_nat i ∉ inlet ind) ∧ Z.of_nat i ∉ outlets ind)
  ∧ 0 ≤ point_type ind i id < 4.
Proof.
  unfold point_type. repeat case_bool_decide; split_and!; try lia; naive_solver.
Qed.

Lemma one_hot_types (bif_id : list Z) (ind : indices) :
  bif_id ≠ [] →
  one_hot 4 (imap (point_type ind) bif_id)
  = Some (one_hot_row 4 <$> imap (point_type ind) bif_id).
Proof.
  intros Hne. unfold one_hot.
  rewrite bool_decide_eq_false_2.
  2:{ intros Hnil. apply (f_equal length) in Hnil. rewrite length_imap in Hnil.
      by destruct bif_id. }
  rewrite (proj2 (forallb_forall _ _)); [done|].
  intros c Hc%list_elem_of_In%list_elem_of_lookup. destruct Hc as [i Hi].
  rewrite list_lookup_imap in Hi.
  destruct (bif_id !! i) as [id|]; simpl in Hi; [|done]. injection Hi as <-.
  pose proof (point_type_cases ind i id) as (_ & _ & _ & _ & Hr).
  apply andb_true_iff. split; [apply Z.leb_le|apply Z.ltb_lt]; lia.
Qed.

(** X14. [generate_types] raises exactly on an empty array of bifurcation
    IDs. Otherwise it returns one row and one entry of either mask per
    point: the inlet mask is true at the inlets, the outlet mask at the
    outlets that are no inlets, and the row is the one-hot row of class 2
    at an inlet, 3 at an outlet that is no inlet, and elsewhere 0 for a
    bifurcation ID of -1 and 1 for any other. *)
Theorem generate_types_spec (bif_id : list Z) (ind : indices) :
  (generate_types bif_id ind = None ↔ bif_id = [])
  ∧ ∀ rows inlet_mask outlet_mask,
      generate_types bif_id ind = Some (rows, inlet_mask, outlet_mask) →
      length rows = length bif_id
      ∧ length inlet_mask = length bif_id
      ∧ length outlet_mask = length bif_id
      ∧ ∀ i id, bif_id !! i = Some id →
          inlet_mask !! i = Some (bool_decide (Z.of_nat i ∈ inlet ind))
          ∧ outlet_mask !! i
            = Some (bool_decide ((Z.of_nat i ∉ inlet ind) ∧ Z.of_nat i ∈ outlets ind))
          ∧ ∃ c, rows !! i = Some (one_hot_row 4 c)
                 ∧ (c = 2 ↔ Z.of_nat i ∈ inlet ind)
                 ∧ (c = 3 ↔ (Z.of_nat i ∉ inlet ind) ∧ Z.of_nat i ∈ outlets ind)
                 ∧ (c = 0 ↔ id = -1 ∧ (Z.of_nat i ∉ inlet ind)
                              ∧ Z.of_nat i ∉ outlets ind)
                 ∧ (c = 1 ↔ id ≠ -1 ∧ (Z.of_nat i ∉ inlet ind)
                              ∧ Z.of_nat i ∉ outlets ind).
Proof.
  split.
  - split.
    + intros H. destruct (decide (bif_id = [])) as [|Hne]; [done|].
      unfold generate_types in H. by rewrite (one_hot_types _ _ Hne) in H.
    + by intros ->.
  - intros rows im om H.
    destruct (decide (bif_id = [])) as [->|Hne]; [done|].
    unfold generate_types in H. rewrite (one_hot_types _ _ Hne) in H.
    simpl in H. injection H as <- <- <-.
    rewrite !length_fmap, length_imap. split_and!; [done..|].
    intros i id Hi.
    pose proof (point_type_cases ind i id) as (H2 & H3 & H0 & H1 & _).
    rewrite !list_lookup_fmap, list_lookup_imap, Hi. simpl. split_and!.
    + f_equal. apply bool_decide_ext. done.
    + f_equal. apply bool_decide_ext. done.
    + by exists (point_type ind i id).
Qed.

Lemma result_mapM_fmap {A B} (f : A → result B) (g : A → B) (l : list A) :
  (∀ x, x ∈ l → f x = Ok (g x)) → result_mapM f l = Ok (g <$> l).
Proof.
  induction l as [|x l IH]; intros H; simpl; [done|].
  rewrite (H x) by by left. simpl. rewrite IH; [done|].
  intros y Hy. apply H. by right.
Qed.

Section Continuity.

Local Open Scope nat_scope.

Variable bif_id : list Z.
Variable ind : indices.

(** [types[j,0]] is 1 exactly at the branch points. *)
Lemma type0_one_hot (j : nat) :
  j < length bif_id →
  type0 (one_hot_row 4 <$> imap (point_type ind) bif_id) j
  = Ok (if bool_decide (branch_point bif_id ind j) then 1%Z else 0%Z).
Proof.
  intros Hj. destruct (lookup_lt_is_Some_2 bif_id j Hj) as [id Hid].
  assert (type0 (one_hot_row 4 <$> imap (point_type ind) bif_id) j
          = Ok (if bool_decide (point_type ind j id = 0%Z) then 1%Z else 0%Z)) as ->.
  { unfold type0. rewrite list_lookup_fmap, list_lookup_imap, Hid. simpl.
    repeat case_bool_decide; try done; exfalso; lia. }
  pose proof (point_type_cases ind j id) as (_ & _ & H0 & _).
  assert (point_type ind j id = 0%Z ↔ branch_point bif_id ind j) as Hiff.
  { rewrite H0. unfold branch_point. rewrite Hid. naive_solver. }
  by rewrite (bool_decide_ext _ _ Hiff).
Qed.

(** X15. The continuity mask has a leading and a trailing 0 whatever the number
    of points, hence two entries even for fewer than two points. Its entry
    is 1 exactly at the points that are, together with both their
    neighbours in point order, branch points. *)
Theorem continuity_mask_spec (rows : list (list Z)) (inlet_mask outlet_mask : list bool) :
  generate_types bif_id ind = Some (rows, inlet_mask, outlet_mask) →
  ∃ mask,
    create_continuity_mask rows = Ok mask
    ∧ length mask = Nat.max 2 (length bif_id)
    ∧ ∀ i, i < length mask →
        let inner := 1 ≤ i ∧ S i < length bif_id
                     ∧ branch_point bif_id ind (i - 1)
                     ∧ branch_point bif_id ind i
                     ∧ branch_point bif_id ind (i + 1) in
        (mask !! i = Some 1%Z ∧ inner) ∨ (mask !! i = Some 0%Z ∧ ¬ inner).
Proof.
  intros H.
  destruct (decide (bif_id = [])) as [Hnil|Hne].
  { rewrite Hnil in H. done. }
  unfold generate_types in H. rewrite (one_hot_types _ _ Hne) in H.
  simpl in H. injection H as <- _ _.
  set (rows := one_hot_row 4 <$> imap (point_type ind) bif_id).
  assert (length rows = length bif_id) as Hlen
    by (unfold rows; by rewrite length_fmap, length_imap).
  set (g := λ i, if bool_decide (branch_point bif_id ind (i - 1)
                                 ∧ branch_point bif_id ind i
                                 ∧ branch_point bif_id ind (i + 1))
                 then 1%Z else 0%Z).
  assert (result_mapM (continuity_entry rows) (seq 1 (length rows - 2))
          = Ok (g <$> seq 1 (length rows - 2))) as Hmid.
  { apply result_mapM_fmap. intros i Hi%elem_of_seq.
    unfold continuity_entry, rows, g.
    rewrite !type0_one_hot by lia.
    repeat (case_bool_decide; simpl); try done; exfalso; naive_solver. }
  unfold create_continuity_mask. rewrite Hmid. simpl.
  eexists. split; [done|]. split.
  - simpl. rewrite length_app, length_fmap, length_seq. simpl. lia.
  - intros i. simpl. rewrite length_app, length_fmap, length_seq. simpl.
    intros Hi. destruct i as [|i]; simpl.
    + right. split; [done|]. lia.
    + destruct (decide (i < length rows - 2)) as [Hin|Hlast].
      * rewrite lookup_app_l by by rewrite length_fmap, length_seq.
        rewrite list_lookup_fmap, lookup_seq_lt by done. simpl. unfold g.
        case_bool_decide as Hb.
        -- left. split; [done|]. split_and!; [lia|lia|naive_solver..].
        -- right. split; [done|]. naive_solver.
      * rewrite lookup_app_r by (rewrite length_fmap, length_seq; lia).
        rewrite length_fmap, length_seq.
        replace (i - (length rows - 2)) with 0 by lia. simpl.
        right. split; [done|]. lia.
Qed.

End Continuity.

(** ** Edge features of a bidirected edge list *)

Section EdgeFeaturesReversed.

Import Features.
Local Open Scope R_scope.

Lemma rsub_swap (a b : rvec) : rsub a b = ropp (rsub b a).
Proof.
  destruct a as [[ax ay] az], b as [[bx by_] bz]. unfold rsub, ropp.
  repeat f_equal; ring.
Qed.

Lemma rnorm_ropp (v : rvec) : rnorm (ropp v) = rnorm v.
Proof.
  destruct v as [[x y] z]. unfold rnorm, ropp. f_equal. ring.
Qed.

Lemma rdiv_ropp (v : rvec) (c : R) : rdiv (ropp v) c = ropp (rdiv v c).
Proof.
  destruct v as [[x y] z]. unfold rdiv, ropp, Rdiv. repeat f_equal; ring.
Qed.

Lemma edge_feature_reversed (points : list rvec) (e : Z * Z) (rel : rvec) (n : R) :
  edge_feature points e = Ok (rel, n) →
  edge_feature points (e.2, e.1) = Ok (ropp rel, n).
Proof.
  unfold edge_feature. simpl. intros H.
  inv_bind H as p2 Hp2. inv_bind H as p1 Hp1. injection H as <- <-.
  rewrite Hp1, Hp2. simpl. rewrite (rsub_swap p1 p2), rnorm_ropp, rdiv_ropp. done.
Qed.

Lemma result_mapM_app {A B} (f : A → result B) (l1 l2 : list A) (r1 r2 : list B) :
  result_mapM f l1 = Ok r1 → result_mapM f l2 = Ok r2 →
  result_mapM f (l1 ++ l2) = Ok (r1 ++ r2).
Proof.
  revert r1. induction l1 as [|x l1 IH]; intros r1; simpl.
  - by intros [= <-].
  - intros H H2. inv_bind H as y Hy. inv_bind H as ys Hys. injection H as <-.
    rewrite Hy. simpl. by rewrite (IH ys Hys H2).
Qed.

(** X16. [generate_graph] doubles the edge list with the reversed edges before
    it computes the edge features. The features of the second half are
    those of the first half with the relative positions negated and the
    same norms. *)
Theorem edge_features_bidirected (points : list rvec) (edges : list (Z * Z))
    (rel : list rvec) (nrm : list R) :
  generate_edge_features points edges = Ok (rel, nrm) →
  generate_edge_features points (bidirected edges)
  = Ok (rel ++ (ropp <$> rel), nrm ++ nrm).
Proof.
  unfold generate_edge_features, bidirected. intros H.
  inv_bind H as feats Hfeats. injection H as <- <-.
  assert (result_mapM (edge_feature points) ((λ e, (e.2, e.1)) <$> edges)
          = Ok ((λ f : rvec * R, (ropp f.1, f.2)) <$> feats)) as Hrev.
  { clear -Hfeats. revert feats Hfeats.
    induction edges as [|e edges IH]; intros feats.
    - by intros [= <-].
    - rewrite fmap_cons. cbn [result_mapM].
      intros H. inv_bind H as y Hy. inv_bind H as ys Hys. injection H as <-.
      destruct y as [r n]. rewrite (edge_feature_reversed _ _ _ _ Hy).
      rewrite (IH ys Hys). done. }
  rewrite (result_mapM_app _ _ _ _ _ Hfeats Hrev). simpl.
  rewrite !fmap_app, <- !list_fmap_compose. repeat f_equal.
Qed.

End EdgeFeaturesReversed.

(** ** Field tensors: shape and time step *)

Section FieldShape.

Local Open Scope nat_scope.

(** The slice [::step] of an axis of length [len] is [ceil(len / step)]
    long. *)
Lemma stride_positions_strided (len step : nat) :
  0 < step →
  stride_positions len 0 step
  = (λ k, 0 + k * step) <$> seq 0 ((len + step - 1) / step).
Proof.
  intros Hstep. unfold stride_positions.
  set (m := (len + step - 1) / step).
  pose proof (Nat.Div0.mul_div_le (len + step - 1) step) as Hlow.
  pose proof (Nat.mul_succ_div_gt (len + step - 1) step ltac:(lia)) as Hhigh.
  fold m in Hlow, Hhigh.
  assert (m ≤ len) as Hm by nia.
  assert (seq 0 len = seq 0 m ++ seq m (len - m)) as ->.
  { change (seq m (len - m)) with (seq (0 + m) (len - m)).
    rewrite <- seq_app. f_equal. lia. }
  rewrite fmap_app, filter_app.
  rewrite filter_fmap_seq_all, filter_fmap_seq_none.
  - by rewrite app_nil_r.
  - intros k Hk. simpl in *. nia.
  - intros k Hk. simpl in *. nia.
Qed.

Lemma subsample_length {A} (slices : list A) (step : nat) (sub : list A) :
  subsample slices step = Ok sub →
  0 < step ∧ length sub = (length slices + step - 1) / step
  ∧ ∀ x, x ∈ sub → x ∈ slices.
Proof.
  unfold subsample. case_bool_decide as Hstep; [done|]. intros [= <-].
  assert (0 < step) as Hpos by lia. split; [done|].
  rewrite stride_positions_strided by done.
  set (m := (length slices + step - 1) / step).
  pose proof (Nat.Div0.mul_div_le (length slices + step - 1) step) as Hlow.
  fold m in Hlow.
  split.
  - destruct slices as [|x0 slices].
    { simpl in *. replace m with 0; [done|].
      unfold m. simpl. symmetry. apply Nat.div_small. lia. }
    rewrite (omap_fmap_seq _ _ (λ k, default x0 ((x0 :: slices) !! (0 + k * step)))).
    + by rewrite length_fmap, length_seq.
    + intros k Hk.
      destruct (lookup_lt_is_Some_2 (x0 :: slices) (0 + k * step)) as [y ->]; [|done].
      nia.
  - intros x (i & _ & Hx)%list_elem_of_omap. by eapply list_elem_of_lookup_2.
Qed.

Lemma assign_slice_length (npts : nat) (f col : list Q) :
  assign_slice npts f = Ok col → length col = npts.
Proof.
  unfold assign_slice. case_bool_decide as Hlen; [by intros [= <-]|].
  destruct f as [|x [|y f]]; try done. intros [= <-]. apply length_replicate.
Qed.

Lemma sort_floats_length (l : list Q) : length (sort_floats l) = length l.
Proof. by rewrite sort_floats_perm. Qed.

(** X17. [add_fields] raises an IndexError on a mapping with fewer than two
    time steps. When it returns, the field tensor has
    [ceil(T / subsample_time)] time slices of one value per node, for [T]
    time steps, and every entry of [dt] is the gap between the two smallest
    keys times [subsample_time], which is not negative. *)
Theorem add_fields_shape (num_nodes : nat) (field : list (Q * list Q))
    (subsample_time : nat) :
  (length field < 2 → add_fields num_nodes field subsample_time = Err IndexError)
  ∧ ∀ r, add_fields num_nodes field subsample_time = Ok r →
      0 < subsample_time
      ∧ length (f_field r) = (length field + subsample_time - 1) / subsample_time
      ∧ Forall (λ col, length col = num_nodes) (f_field r)
      ∧ ∃ t0 t1 rest dt,
          sort_floats (fst <$> field) = t0 :: t1 :: rest
          ∧ (t0 <= t1)%Q
          ∧ dt = ((t1 - t0) * inject_Z (Z.of_nat subsample_time))%Q
          ∧ (0 <= dt)%Q
          ∧ f_dt r = replicate num_nodes dt.
Proof.
  split.
  - intros Hlen. unfold add_fields.
    rewrite (lookup_ge_None_2 _ 1); [done|].
    rewrite sort_floats_length, length_fmap. lia.
  - unfold add_fields. intros r H.
    inv_bind H as t1 Ht1. apply of_option_Ok in Ht1.
    inv_bind H as t0 Ht0. apply of_option_Ok in Ht0.
    inv_bind H as first Hfirst.
    inv_bind H as slices Hslices. apply result_mapM_Ok in Hslices.
    inv_bind H as sub Hsub.
    case_bool_decide as Hn; [|discriminate]. injection H as <-. simpl.
    apply subsample_length in Hsub as (Hpos & Hlen & Hin).
    apply Forall2_length in Hslices as Hl. rewrite length_fmap in Hl.
    split_and!; [done|by rewrite Hlen, <- Hl| |].
    + apply Forall_forall. intros col (k & Hk)%Hin%list_elem_of_lookup.
      destruct (Forall2_lookup_r _ _ _ _ _ Hslices Hk) as (f & _ & Hf).
      apply assign_slice_length in Hf. by rewrite Hf.
    + pose proof (sort_floats_sorted (fst <$> field)) as Hsorted.
      destruct (sort_floats (fst <$> field)) as [|x0 [|x1 rest]]; try done.
      simpl in Ht0, Ht1. injection Ht0 as ->. injection Ht1 as ->.
      assert (t0 <= t1)%Q as Hle.
      { apply Sorted_inv in Hsorted as [_ Hhd]. by apply HdRel_inv in Hhd. }
      exists t0, t1, rest. eexists. split_and!; [done..| |done].
      apply Qmult_le_0_compat.
      * by apply (Qplus_le_l _ _ t0); ring_simplify.
      * change 0%Q with (inject_Z 0). rewrite <- Zle_Qle. lia.
Qed.

End FieldShape.

(** ** The driver: rescaling the time steps *)

Section Rescale.

Context {V : Type}.
Variable timestep : Q.

Lemma Qeq_bool_same (k : Q) : Qeq_bool k k = true.
Proof. apply Qeq_bool_iff, Qeq_refl. Qed.

Lemma fdict_get_None (m : fdict V) (k : Q) :
  (∀ k', k' ∈ m.*1 → ¬ (k' == k)%Q) → fdict_get m k = None.
Proof.
  induction m as [|[k0 v0] m IH]; simpl; [done|]. intros H.
  destruct (Qeq_bool k0 k) eqn:E.
  - apply Qeq_bool_iff in E. exfalso. apply (H k0); [by left|done].
  - apply IH. intros k' Hk'. apply H. by right.
Qed.

(** An assignment keeps the keys as they are, or, when no key equals the
    new one, adds the entry at the end. *)
Lemma fdict_set_keys (m : fdict V) (k : Q) (v : V) :
  ((fdict_set m k v).*1 = m.*1 ∧ ∃ k', k' ∈ m.*1 ∧ (k' == k)%Q)
  ∨ ((∀ k', k' ∈ m.*1 → ¬ (k' == k)%Q) ∧ fdict_set m k v = m ++ [(k, v)]).
Proof.
  induction m as [|[k0 v0] m IH]; simpl.
  - right. split; [|done]. intros k' Hk'. by apply elem_of_nil in Hk'.
  - destruct (Qeq_bool k0 k) eqn:E.
    + left. split; [done|]. exists k0. split; [by left|by apply Qeq_bool_iff].
    + destruct IH as [[IH (k' & Hk' & Heq)]|[IH1 IH2]].
      * left. rewrite !fmap_cons, IH. split; [done|]. exists k'. split; [by right|done].
      * right. split; [|simpl; by rewrite IH2].
        intros k' [->|Hk']%elem_of_cons; [|by apply IH1].
        intros Heq%Qeq_bool_iff. congruence.
Qed.

(** One iteration on a dictionary whose first key is the one processed. *)
Lemma rescale_one_head (t : Q) (v : V) (m : fdict V) :
  ∃ m', rescale_one timestep ((t, v) :: m) t = Ok m'
    ∧ ((m'.*1 = m.*1 ∧ ∃ k', k' ∈ t :: m.*1 ∧ (k' == t * timestep)%Q)
       ∨ ((∀ k', k' ∈ t :: m.*1 → ¬ (k' == t * timestep)%Q)
          ∧ m' = m ++ [(t * timestep, v)%Q])).
Proof.
  unfold rescale_one. cbn [fdict_get]. rewrite Qeq_bool_same.
  cbn [of_option mbind result_bind fdict_set].
  destruct (Qeq_bool t (t * timestep)) eqn:E; cbn [fdict_del]; rewrite Qeq_bool_same.
  - exists m. split; [done|]. left. split; [done|].
    exists t. split; [by left|by apply Qeq_bool_iff].
  - eexists. split; [done|].
    destruct (fdict_set_keys m (t * timestep) v) as [[Hkeys (k' & Hk' & Heq)]|[Hfresh ->]].
    + left. split; [done|]. exists k'. split; [by right|done].
    + right. split; [|done].
      intros k' [->|Hk']%elem_of_cons; [|by apply Hfresh].
      intros Heq%Qeq_bool_iff. congruence.
Qed.

Lemma distinct_keys_app (l1 l2 : list Q) :
  distinct_keys (l1 ++ l2)
  ↔ distinct_keys l1 ∧ distinct_keys l2
    ∧ ∀ a b, a ∈ l1 → b ∈ l2 → ¬ (a == b)%Q.
Proof.
  induction l1 as [|k l1 IH]; simpl.
  - split; [intros H; split_and!; [done..|]|by intros (_ & ? & _)].
    intros a b Ha. by apply elem_of_nil in Ha.
  - rewrite IH. split.
    + intros (Hk & H1 & H2 & H12). split_and!; [|done..|].
      * intros k' Hk'. apply Hk, elem_of_app. by left.
      * intros a b [->|Ha]%elem_of_cons Hb; [|by apply H12].
        apply Hk, elem_of_app. by right.
    + intros ((Hk & H1) & H2 & H12). split_and!; [|done..|].
      * intros k' [Hk'|Hk']%elem_of_app; [by apply Hk|].
        apply H12; [by left|done].
      * intros a b Ha Hb. apply H12; [by right|done].
Qed.

(** *** Without collisions every entry moves to its rescaled key *)

Lemma rescale_fold_fresh (R S : fdict V) :
  ¬ (timestep == 0)%Q → distinct_keys R.*1 →
  (∀ t k, t ∈ R.*1 → k ∈ R.*1 ++ S.*1 → ¬ (k == t * timestep)%Q) →
  result_foldM (rescale_one timestep) (R ++ S) R.*1
  = Ok (S ++ (scale_entry timestep <$> R)).
Proof.
  intros Hts. revert S. induction R as [|[t v] R IH]; intros S Hd Hfree.
  - simpl. by rewrite app_nil_r.
  - cbn [fmap list_fmap result_foldM fst app].
    destruct Hd as [Hhead Hd].
    destruct (rescale_one_head t v (R ++ S)) as (m' & -> & [[_ (k' & Hk' & Heq)]|[_ ->]]).
    + exfalso. apply (Hfree t k'); [by left| |done].
      rewrite fmap_app in Hk'. done.
    + cbn [mbind result_bind]. rewrite <- app_assoc.
      change (list_fmap _ _ fst R) with (R.*1).
      rewrite (IH (S ++ [(t * timestep, v)%Q])); [|done|].
      * by rewrite <- app_assoc.
      * intros t' k Ht' Hk. rewrite fmap_app, app_assoc in Hk.
        apply elem_of_app in Hk as [Hk|Hk].
        -- apply (Hfree t' k); [by right|].
           rewrite fmap_cons. simpl. by right.
        -- apply list_elem_of_singleton in Hk as ->. simpl.
           intros Heq%Qmult_inj_r; [|done]. by apply (Hhead t').
Qed.

(** *** A key that rescaling leaves in place loses its entry *)

Lemma rescale_fold_fixed (t0 : Q) :
  ¬ (timestep == 0)%Q → (t0 * timestep == t0)%Q →
  ∀ (R : list Q) (d : fdict V) (N P : list Q),
    d.*1 = R ++ N → distinct_keys (P ++ R) → distinct_keys (R ++ N) →
    (∀ k, k ∈ N → ∃ t, t ∈ P ∧ (k == t * timestep)%Q) →
    (t0 ∈ P → ∀ k, k ∈ N → ¬ (k == t0)%Q) →
    t0 ∈ P ∨ t0 ∈ R →
    ∃ d', result_foldM (rescale_one timestep) d R = Ok d' ∧ fdict_get d' t0 = None.
Proof.
  intros Hts Hfix R. induction R as [|t R IH]; intros d N P Hkeys HdP HdN HN Ht0 Hin.
  - simpl. exists d. split; [done|]. apply fdict_get_None.
    rewrite Hkeys. simpl. apply Ht0.
    destruct Hin as [?|Hin]; [done|by apply elem_of_nil in Hin].
  - destruct d as [|[t' v] d]; [done|]. rewrite fmap_cons in Hkeys.
    cbn [fst app] in Hkeys. injection Hkeys as -> Hkeys.
    cbn [result_foldM].
    destruct (rescale_one_head t v d) as (m' & -> & Hcase). cbn [mbind result_bind].
    assert (distinct_keys ((P ++ [t]) ++ R)) as HdP' by by rewrite <- app_assoc.
    assert (t0 ∈ P ++ [t] ∨ t0 ∈ R) as Hin'.
    { rewrite elem_of_app, list_elem_of_singleton.
      destruct Hin as [?|[->|?]%elem_of_cons]; auto. }
    simpl in HdN. destruct HdN as [Hhead HdN].
    apply distinct_keys_app in HdP as HP. destruct HP as (_ & _ & HPR).
    destruct Hcase as [[Hm' _]|[Hfresh ->]].
    + apply (IH m' N (P ++ [t])); [by rewrite Hm'|done|done| | |done].
      * intros k Hk. destruct (HN k Hk) as (t1 & Ht1 & Heq).
        exists t1. split; [apply elem_of_app; by left|done].
      * intros [Hp| ->%list_elem_of_singleton]%elem_of_app k Hk; [by apply Ht0|].
        intros Heq. apply (Hhead k); [apply elem_of_app; by right|by symmetry].
    + apply (IH _ (N ++ [(t * timestep)%Q]) (P ++ [t])); [|done| | | |done].
      * rewrite fmap_app, Hkeys. simpl. by rewrite <- app_assoc.
      * rewrite app_assoc. apply distinct_keys_app. split_and!; [done| |].
        { split; [|done]. intros k' Hk'. by apply elem_of_nil in Hk'. }
        intros a b Ha ->%list_elem_of_singleton. apply Hfresh.
        right. by rewrite Hkeys.
      * intros k [Hk| ->%list_elem_of_singleton]%elem_of_app.
        -- destruct (HN k Hk) as (t1 & Ht1 & Heq).
           exists t1. split; [apply elem_of_app; by left|done].
        -- exists t. split; [|done]. apply elem_of_app. right. by left.
      * intros [Hp| ->%list_elem_of_singleton]%elem_of_app k
               [Hk| ->%list_elem_of_singleton]%elem_of_app.
        -- by apply Ht0.
        -- intros Heq. rewrite <- Hfix in Heq. apply Qmult_inj_r in Heq; [|done].
           apply (HPR t0 t); [done|by left|by symmetry].
        -- intros Heq. apply (Hhead k); [apply elem_of_app; by right|by symmetry].
        -- intros Heq. apply (Hfresh t); [by left|by symmetry].
Qed.

(** *** From one dictionary to the pair *)

Lemma rescale_step_pair (p f p' f' : fdict V) (t : Q) :
  rescale_one timestep p t = Ok p' → rescale_one timestep f t = Ok f' →
  rescale_step timestep (p, f) t = Ok (p', f').
Proof.
  unfold rescale_one, rescale_step. simpl. intros Hp Hf.
  inv_bind Hp as v Hv. inv_bind Hf as w Hw.
  rewrite Hv, Hw. simpl. rewrite Hp, Hf. done.
Qed.

Lemma rescale_fold_pair (ks : list Q) (p f p' f' : fdict V) :
  result_foldM (rescale_one timestep) p ks = Ok p' →
  result_foldM (rescale_one timestep) f ks = Ok f' →
  result_foldM (rescale_step timestep) (p, f) ks = Ok (p', f').
Proof.
  revert p f. induction ks as [|t ks IH]; intros p f; simpl.
  - by intros [= <-] [= <-].
  - intros Hp Hf. inv_bind Hp as p1 Hp1. inv_bind Hf as f1 Hf1.
    rewrite (rescale_step_pair _ _ _ _ _ Hp1 Hf1). simpl. by apply IH.
Qed.

(** X18. When the keys differ as numbers, no rescaled key equals a key, and the
    time step is not 0, the loop leaves both dictionaries with every entry
    under its rescaled key, in the order they had. *)
Theorem rescale_time_moves_entries (pressure flowrate : fdict V) :
  ¬ (timestep == 0)%Q →
  distinct_keys pressure.*1 →
  flowrate.*1 = pressure.*1 →
  (∀ t k, t ∈ pressure.*1 → k ∈ pressure.*1 → ¬ (k == t * timestep)%Q) →
  rescale_time timestep pressure flowrate
  = Ok (scale_entry timestep <$> pressure, scale_entry timestep <$> flowrate).
Proof.
  intros Hts Hd Hsame Hfree. unfold rescale_time.
  apply rescale_fold_pair.
  - rewrite <- (app_nil_r pressure) at 1.
    rewrite (rescale_fold_fresh pressure []); [done..|].
    intros t k Ht Hk. rewrite app_nil_r in Hk. by apply Hfree.
  - rewrite <- Hsame. rewrite <- (app_nil_r flowrate) at 1.
    rewrite (rescale_fold_fresh flowrate []); [done|done|by rewrite Hsame|].
    intros t k Ht Hk. rewrite app_nil_r, Hsame in Hk. rewrite Hsame in Ht.
    by apply Hfree.
Qed.

(** *** A time step of 1 *)

Lemma rescale_one_fixed (t : Q) (v : V) (m : fdict V) :
  (t * timestep == t)%Q → rescale_one timestep ((t, v) :: m) t = Ok m.
Proof.
  intros Hfix. unfold rescale_one. simpl. rewrite Qeq_bool_same. simpl.
  rewrite (proj2 (Qeq_bool_iff t (t * timestep))) by by symmetry.
  simpl. by rewrite Qeq_bool_same.
Qed.

Lemma rescale_fold_unit (m : fdict V) :
  (timestep == 1)%Q →
  result_foldM (rescale_one timestep) m m.*1 = Ok [].
Proof.
  intros Hone. induction m as [|[t v] m IH]; [done|].
  cbn [fmap list_fmap result_foldM fst].
  rewrite rescale_one_fixed; [done|]. rewrite Hone. ring.
Qed.

(** X19. The loop removes the entry of every key that rescaling leaves in
    place. With a time step of 1 that is every key: both dictionaries end
    up empty. With any time step other than 0 it is the key 0: the loop
    returns two dictionaries without an entry for time 0. *)
Theorem rescale_time_loses_fixed_keys (pressure flowrate : fdict V) :
  flowrate.*1 = pressure.*1 →
  ((timestep == 1)%Q → rescale_time timestep pressure flowrate = Ok ([], []))
  ∧ (¬ (timestep == 0)%Q → distinct_keys pressure.*1 →
     ∀ t0, t0 ∈ pressure.*1 → (t0 * timestep == t0)%Q →
       ∃ pressure' flowrate',
         rescale_time timestep pressure flowrate = Ok (pressure', flowrate')
         ∧ fdict_get pressure' t0 = None ∧ fdict_get flowrate' t0 = None).
Proof.
  intros Hsame. split.
  - intros Hone. unfold rescale_time. apply rescale_fold_pair.
    + by apply rescale_fold_unit.
    + rewrite <- Hsame. by apply rescale_fold_unit.
  - intros Hts Hd t0 Ht0 Hfix.
    assert (∀ d : fdict V, d.*1 = pressure.*1 →
              ∃ d', result_foldM (rescale_one timestep) d pressure.*1 = Ok d'
                    ∧ fdict_get d' t0 = None) as Hone.
    { intros d Hkeys.
      apply (rescale_fold_fixed t0 Hts Hfix pressure.*1 d [] []).
      - by rewrite app_nil_r.
      - done.
      - by rewrite app_nil_r.
      - intros k Hk. by apply elem_of_nil in Hk.
      - intros Hin. by apply elem_of_nil in Hin.
      - by right. }
    destruct (Hone pressure eq_refl) as (p' & Hp' & Hgp).
    destruct (Hone flowrate Hsame) as (f' & Hf' & Hgf).
    exists p', f'. split_and!; [|done..].
    unfold rescale_time. by apply rescale_fold_pair.
Qed.

End Rescale.

(** * Runs of the model *)

Lemma isqrtQ_zero : sqrt_zero isqrtQ.
Proof.
  intros [n d]. unfold Qeq, isqrtQ. simpl. intros H.
  assert (n = 0) as -> by lia. by rewrite Z.mul_0_l.
Qed.

Lemma Forall_nonneg_edges (edges : list (Z * Z)) :
  forallb (λ e, (0 <=? e.1) && (0 <=? e.2)) edges = true →
  ∀ e, e ∈ edges → 0 ≤ e.1 ∧ 0 ≤ e.2.
Proof.
  rewrite forallb_forall. intros H e He%list_elem_of_In. apply H in He. lia.
Qed.

(** ** Resampling *)

(** A path of 30 points resampled to one half, three cap points removed at
    each end: 15 - 3 * 2 points are left. *)
Lemma resample_point_count_witness :
  ∃ sampled points' edges',
    (resample_points isqrtQ (chain 30) (chain_edges 30)
       {| inlet := [0]; outlets := [29] |} (1 # 2) 3).1
    = Ok (sampled, points', edges')
    ∧ length sampled = length points'
    ∧ Z.of_nat (length points')
      = npoints_to_keep (length (chain 30)) (1 # 2) - Z.of_nat 3 * Z.of_nat (1 + 1).
Proof.
  destruct (resample_points isqrtQ (chain 30) (chain_edges 30)
              {| inlet := [0]; outlets := [29] |} (1 # 2) 3).1
    as [[[sampled points'] edges']|] eqn:E; [|vm_compute in E; discriminate].
  exists sampled, points', edges'. split; [done|].
  destruct (resample_point_count isqrtQ isqrtQ_zero (chain 30) (chain_edges 30)
              {| inlet := [0]; outlets := [29] |} (1 # 2) 3 sampled points' edges')
    as (H1 & H2 & _).
  - reflexivity.
  - discriminate.
  - vm_compute. reflexivity.
  - apply Forall_nonneg_edges. vm_compute. reflexivity.
  - intros i ->%list_elem_of_singleton. lia.
  - intros o ->%list_elem_of_singleton. lia.
  - apply (bool_decide_unpack _). vm_compute. reflexivity.
  - intros i ->%list_elem_of_singleton. apply (bool_decide_unpack _). vm_compute. reflexivity.
  - intros o ->%list_elem_of_singleton. apply (bool_decide_unpack _). vm_compute. reflexivity.
  - exact E.
  - exact (conj H1 H2).
Defined.

(** Three points at the keep fraction [float(1/3)]: the exact product is
    below 1, the float64 product is 1.0, and one point is to be kept; of 100
    points at [float(0.29)], 28. *)
Lemma npoints_to_keep_rounds :
  npoints_to_keep 3 (float64_round (1 # 3)) = 1
  ∧ Qfloor (3 * float64_round (1 # 3)) = 0
  ∧ npoints_to_keep 100 (float64_round (29 # 100)) = 28.
Proof. split_and!; vm_compute; reflexivity. Qed.

(** C1 as stated fails: 11 points at keep fraction 1/2 without cap removal
    come out as 5 points, while [11 - floor(11 * (1 - 1/2))] is 6. *)
Lemma resample_point_count_counterexample :
  ∃ sampled points' edges',
    (resample_points isqrtQ (chain 11) (chain_edges 11)
       {| inlet := [0]; outlets := [10] |} (1 # 2) 0).1
    = Ok (sampled, points', edges')
    ∧ length points' = 5%nat
    ∧ Z.of_nat (length points')
      ≠ Z.of_nat (length (chain 11))
        - Qfloor (inject_Z (Z.of_nat (length (chain 11))) * (1 - (1 # 2))).
Proof.
  eexists _, _, _. split; [vm_compute; reflexivity|]. split; [reflexivity|].
  vm_compute. discriminate.
Qed.

(** The first decimation step on a three-point path whose last point is
    the protected outlet. *)
Lemma decimation_step_collapses_witness :
  ∃ st',
    decimate_step isqrtQ (chain 3) [2]
      {| r_edges := chain_edges 3; r_delete := []; r_replace := [] |} = Ok st'
    ∧ ∃ mind a b len m,
        chain_edges 3 !! mind = Some (a, b)
        ∧ edge_length isqrtQ (chain 3) (a, b) = Ok len
        ∧ (Qabs (len - m) < tol12)%Q
        ∧ a ≠ b
        ∧ (b ∉ [2] → r_edges st' = modify_edges (chain_edges 3) b a).
Proof.
  destruct (decimate_step isqrtQ (chain 3) [2]
              {| r_edges := chain_edges 3; r_delete := []; r_replace := [] |})
    as [st'|] eqn:E; [|vm_compute in E; discriminate].
  exists st'. split; [done|].
  destruct (decimation_step_collapses isqrtQ isqrtQ_zero (chain 3) [2]
              {| r_edges := chain_edges 3; r_delete := []; r_replace := [] |} st' E)
    as (mind & a & b & len & m & H1 & H2 & _ & _ & _ & H3 & _ & H4 & H5 & _).
  exists mind, a, b, len, m. split_and!; [done..|].
  intros Hb. by destruct (H5 Hb) as (_ & ? & _).
Defined.

(** C2 as stated fails: the step on the path 0 -> 1 -> 2 picks the edge
    from 0 to 1, whose destination 1 is not protected, and removes the
    destination 1, not the source 0; the edges are rewritten to the source. *)
Lemma decimation_step_counterexample :
  decimate_step isqrtQ (chain 3) [2]
    {| r_edges := [(0, 1); (1, 2)]; r_delete := []; r_replace := [] |}
  = Ok {| r_edges := [(0, 0); (0, 2)]; r_delete := [1]; r_replace := [0] |}
  ∧ 1 ∉ [2].
Proof.
  split; [vm_compute; reflexivity|]. by intros ?%list_elem_of_singleton.
Qed.

(** An edge within 1e-12 of the shortest one is picked when it comes
    first: on [near_tie] the step collapses the edge from 0 to 1, although
    the edge from 1 to 2 is shorter. *)
Lemma decimation_step_near_tie :
  decimate_step isqrtQ near_tie []
    {| r_edges := [(0, 1); (1, 2)]; r_delete := []; r_replace := [] |}
  = Ok {| r_edges := [(0, 0); (0, 2)]; r_delete := [1]; r_replace := [0] |}
  ∧ ∃ l0 l1, edge_length isqrtQ near_tie (0, 1) = Ok l0
             ∧ edge_length isqrtQ near_tie (1, 2) = Ok l1 ∧ (l1 < l0)%Q.
Proof.
  split; [vm_compute; reflexivity|].
  eexists _, _. split_and!; [vm_compute; reflexivity..|]. vm_compute. reflexivity.
Qed.

(** ** Boundary edges *)

(** A five-point path with its inlet and its outlet as boundary points. *)
Lemma boundary_edges_closest_witness :
  [0; 4] ≠ []
  ∧ (∀ index, index ∈ [0; 4] →
       ∃ d ps, dijkstra_algorithm isqrtQ (chain 5) (bidirected (chain_edges 5)) index
               = Ok (d, ps))
  ∧ ∃ rows,
      generate_boundary_edges isqrtQ (chain 5) {| inlet := [0]; outlets := [4] |}
        (bidirected (chain_edges 5)) = Ok rows
      ∧ ∀ ipoint, (ipoint < length (chain 5))%nat →
          ∃ index d ps p q,
            index ∈ [0; 4]
            ∧ dijkstra_algorithm isqrtQ (chain 5) (bidirected (chain_edges 5)) index
              = Ok (d, ps)
            ∧ filter (λ r, b_dst r = ipoint) rows
              = if dist_ltb (dget d ipoint) (Fin tol12) then []
                else [boundary_row isqrtQ {| inlet := [0]; outlets := [4] |}
                        index d ipoint p q].
Proof.
  assert (∀ index, index ∈ [0; 4] →
       ∃ d ps, dijkstra_algorithm isqrtQ (chain 5) (bidirected (chain_edges 5)) index
               = Ok (d, ps)) as Hall.
  { intros index [->|[->|[]%elem_of_nil]%elem_of_cons]%elem_of_cons;
      eexists _, _; vm_compute; reflexivity. }
  split; [done|]. split; [exact Hall|].
  destruct (boundary_edges_closest isqrtQ (chain 5)
              {| inlet := [0]; outlets := [4] |}
              (bidirected (chain_edges 5))) as (rows & Hgen & Hrows); [done|exact Hall|].
  exists rows. split; [done|].
  intros ipoint Hi.
  destruct (Hrows ipoint Hi) as (k & index & d & ps & p & q & Hk & Hd & _ & _ & _ & _ & Hf).
  exists index, d, ps, p, q. split_and!; [|done..].
  by eapply list_elem_of_lookup_2.
Defined.

(** ** Junction edges *)

Lemma junction_edges_mirrored_witness :
  ∃ r,
    create_junction_edges isqrtQ (chain 7) bif_one_junction
      (bidirected (chain_edges 7)) = Ok r
    ∧ length (j_edges2 r) = length (j_edges1 r)
    ∧ j_types r = replicate (length (j_edges1 r)) 3.
Proof.
  destruct (create_junction_edges isqrtQ (chain 7) bif_one_junction
              (bidirected (chain_edges 7)))
    as [r|] eqn:E; [|vm_compute in E; discriminate].
  exists r. split; [done|].
  destruct (junction_edges_mirrored isqrtQ (chain 7) bif_one_junction
              (bidirected (chain_edges 7)) r E) as (H1 & _ & _ & H2 & _).
  exact (conj H1 H2).
Defined.

Lemma junction_masks_characterised_witness :
  ∃ r,
    create_junction_edges isqrtQ (chain 7) bif_one_junction
      (bidirected (chain_edges 7)) = Ok r
    ∧ length (m_inlets (j_masks r)) = length bif_one_junction
    ∧ length (m_all (j_masks r)) = length bif_one_junction.
Proof.
  destruct (create_junction_edges isqrtQ (chain 7) bif_one_junction
              (bidirected (chain_edges 7)))
    as [r|] eqn:E; [|vm_compute in E; discriminate].
  exists r. split; [done|].
  destruct (junction_masks_characterised isqrtQ (chain 7) bif_one_junction
              (bidirected (chain_edges 7)) r E) as (H1 & H2 & _).
  exact (conj H1 H2).
Defined.

(** C5 as stated fails: points 2 and 3 belong to the junction region, and
    the junction-all mask is 0 there; it is 1 at the recorded inlet 1 and at
    the exit 4. *)
Lemma junction_all_mask_counterexample :
  ∃ r,
    create_junction_edges isqrtQ (chain 7) bif_one_junction
      (bidirected (chain_edges 7)) = Ok r
    ∧ bif_one_junction !! 2%nat = Some 0
    ∧ m_all (j_masks r) !! 2%nat = Some 0
    ∧ m_all (j_masks r) = [0; 1; 0; 0; 1; 0; 0].
Proof.
  eexists. split; [vm_compute; reflexivity|]. split_and!; reflexivity.
Qed.

(** ** Partitions *)

Lemma one_predecessor_check (edges : list (Z * Z)) :
  forallb (λ e, forallb (λ e', negb (e.2 =? e'.2) || (e.1 =? e'.1)) edges) edges = true →
  one_predecessor edges.
Proof.
  rewrite forallb_forall. intros H u u' v Hu%list_elem_of_In Hu'%list_elem_of_In.
  apply H in Hu. rewrite forallb_forall in Hu. apply Hu in Hu'. simpl in Hu'. lia.
Qed.

(** A six-point path cut at point 3. *)
Lemma partitions_bounds_and_overlap_witness :
  ∃ parts inlets,
    create_partitions draw_three 100 (chain 6) (replicate 6 (-1)) (chain_edges 6) 2
    = Ok parts
    ∧ (∀ part a b, part ∈ parts → (a, b) ∈ p_edges part →
         length (p_points part) = length (p_sampling_indices part)
         ∧ (a < length (p_points part))%nat ∧ (b < length (p_points part))%nat)
    ∧ select_inlets draw_three 100 (replicate 6 (-1)) (chain_edges 6) 2 = Ok inlets
    ∧ ∀ part1 part2 x, part1 ∈ parts → part2 ∈ parts →
        head (p_sampling_indices part1) ≠ head (p_sampling_indices part2) →
        x ∈ p_sampling_indices part1 → x ∈ p_sampling_indices part2 →
        x ∈ inlets.
Proof.
  destruct (create_partitions draw_three 100 (chain 6) (replicate 6 (-1))
              (chain_edges 6) 2)
    as [parts|] eqn:E; [|vm_compute in E; discriminate].
  destruct (partitions_bounds_and_overlap draw_three 100 (chain 6)
              (replicate 6 (-1)) (chain_edges 6) 2 parts E)
    as (Hbounds & inlets & Hsel & _ & Hmeet).
  exists parts, inlets. split_and!; [done..|].
  apply Hmeet, one_predecessor_check. vm_compute. reflexivity.
Defined.

(** C7 as stated fails: with roots 0 and 3 on a six-point path, point 3
    is in the sampling indices of both partitions. *)
Lemma partitions_overlap_counterexample :
  ∃ part1 part2,
    create_partitions draw_three 100 (chain 6) (replicate 6 (-1)) (chain_edges 6) 2
    = Ok [part1; part2]
    ∧ p_sampling_indices part1 = [0; 1; 2; 3]
    ∧ p_sampling_indices part2 = [3; 4; 5]
    ∧ 3 ∈ p_sampling_indices part1 ∧ 3 ∈ p_sampling_indices part2.
Proof.
  eexists _, _. split; [vm_compute; reflexivity|]. simpl.
  split_and!; [reflexivity..| |].
  - do 3 apply list_elem_of_further. apply list_elem_of_here.
  - apply list_elem_of_here.
Qed.

(** ** The retry loop *)

(** From the second attempt on the driver passes on the outlets the failed
    attempt left behind. *)
Lemma retry_second_attempt_indices (sqrtQ : Q → Q) (fuel : nat) (points : list vec)
    (edges : list (Z * Z)) (ind : indices) (perc : Q) (remove_caps : nat) (e : error) :
  (resample_points sqrtQ points edges ind perc remove_caps).1 = Err e →
  ∃ calls r,
    retry_loop sqrtQ (S (S fuel)) points edges ind perc remove_caps
    = ({| a_perc := perc; a_indices := ind |}
       :: {| a_perc := Qmin (perc * 2) 1;
             a_indices := {| inlet := inlet ind;
                             outlets := (λ o, o - Z.of_nat remove_caps) <$> outlets ind |} |}
       :: calls, r).
Proof.
  intros H. cbn [retry_loop].
  destruct (resample_points sqrtQ points edges ind perc remove_caps) as [r1 ind1] eqn:E1.
  simpl in H. subst r1.
  assert (ind1 = {| inlet := inlet ind;
                    outlets := (λ o, o - Z.of_nat remove_caps) <$> outlets ind |}) as ->.
  { unfold resample_points in E1. by injection E1 as _ <-. }
  destruct (resample_points sqrtQ points edges _ (Qmin (perc * 2) 1) remove_caps)
    as [[r2|e2] ind2].
  - by eexists _, _.
  - destruct (retry_loop sqrtQ fuel points edges ind2 _ remove_caps) as [calls r].
    by eexists _, _.
Qed.

(** C8, the driver at the failing input. A path of 50 points: the first
    attempt, at 0.08, raises after it has moved the outlet from 49 to 46;
    the second attempt is called with the outlet 46 and succeeds, and its
    result is not the result of resampling the original input at 0.16. *)
Lemma retry_reuses_mutated_indices :
  ∃ r r',
    retry_loop isqrtQ 2 (chain 50) (chain_edges 50)
      {| inlet := [0]; outlets := [49] |} (8 # 100) 3
    = ([ {| a_perc := 8 # 100; a_indices := {| inlet := [0]; outlets := [49] |} |};
         {| a_perc := Qmin ((8 # 100) * 2) 1;
            a_indices := {| inlet := [0]; outlets := [46] |} |} ],
       Some r)
    ∧ (resample_points isqrtQ (chain 50) (chain_edges 50)
         {| inlet := [0]; outlets := [49] |} (Qmin ((8 # 100) * 2) 1) 3).1 = Ok r'
    ∧ r ≠ r'.
Proof.
  eexists _, _. split; [vm_compute; reflexivity|].
  split; [vm_compute; reflexivity|]. vm_compute. discriminate.
Qed.

(** ** Field tensors *)

(** C9, [add_fields] at the failing input. A mapping whose keys are met in
    the order 2.0, 1.0: the slices follow the order of iteration, not the
    sorted keys, while [dt] comes from the sorted keys. *)
Lemma add_fields_iteration_order :
  add_fields 1 [(2, [10]); (1, [20])]%Q 1
  = Ok {| f_field := [[10%Q]; [20%Q]]; f_dt := [1%Q] |}
  ∧ sort_floats [2; 1]%Q = [1; 2]%Q.
Proof. split; vm_compute; reflexivity. Qed.

(** ** Edge features *)

Lemma edge_features_unit_and_positive_witness :
  ∃ rel_position rel_position_norm,
    Features.generate_edge_features [(0, 0, 0); (3, 4, 0)]%R [(0, 1)]
    = Ok (rel_position, rel_position_norm)
    ∧ Forall (λ v, Features.rnorm v = 1%R) rel_position
    ∧ Forall (λ d, (0 < d)%R) rel_position_norm.
Proof.
  destruct (edge_features_unit_and_positive [(0, 0, 0); (3, 4, 0)]%R [(0, 1)])
    as (rel & nrm & H & _ & _ & H1 & H2 & _).
  - intros e ->%list_elem_of_singleton.
    exists (0, 0, 0)%R, (3, 4, 0)%R. split_and!; [reflexivity..|].
    intros [= H _]. lra.
  - exists rel, nrm. by split_and!.
Defined.

(** C10 as stated fails: resampling does not keep edges between points of
    identical coordinates away from [generate_edge_features].  Of four
    points in a path, the first two at the origin, resampled at 3/4, the
    edge between the two points at the origin is returned (the decimation
    skips it as already collapsed, and its end indices differ); its distance
    is 0. *)
Lemma edge_features_resampled_counterexample :
  ∃ sampled points' edges',
    (resample_points isqrtQ coincident_start (chain_edges 4)
       {| inlet := [0]; outlets := [3] |} (3 # 4) 0).1
    = Ok (sampled, points', edges')
    ∧ (0, 1) ∈ edges'
    ∧ points' !! 0%nat = Some (0, 0, 0)%Q
    ∧ points' !! 1%nat = Some (0, 0, 0)%Q
    ∧ ∃ rel_position rel_position_norm,
        Features.generate_edge_features (real_point <$> points') edges'
        = Ok (rel_position, rel_position_norm)
        ∧ rel_position_norm !! 0%nat = Some 0%R.
Proof.
  exists [0; 1; 3], [(0, 0, 0); (0, 0, 0); (2, 0, 0)]%Q, [(0, 1); (1, 2)].
  split; [vm_compute; reflexivity|].
  split; [by left|]. split; [done|]. split; [done|].
  eexists _, _. split; [reflexivity|].
  simpl. f_equal. unfold Features.rnorm, Features.rsub, Q2R. simpl.
  replace (_ + _)%R with 0%R by lra. apply sqrt_0.
Qed.

(** ** Shortest walks *)

Lemma isqrtQ_nonneg : sqrt_nonneg isqrtQ.
Proof.
  intros [n d]. unfold Qle, isqrtQ. simpl.
  rewrite Z.mul_1_r. apply Z.sqrt_nonneg.
Qed.

(** The three-point path [chain 3], with the source at its first point. *)
Lemma dijkstra_shortest_walks_witness :
  ∃ d p s,
    dijkstra_algorithm isqrtQ (chain 3) (chain_edges 3) 0 = Ok (d, p)
    ∧ py_index (length (chain 3)) 0 = Ok s
    ∧ ∀ v, (v < length (chain 3))%nat →
        ∃ walk, is_walk (length (chain 3)) (chain_edges 3) s walk v
          ∧ d !! v = Some (Fin (walk_cost isqrtQ (chain 3) 0 s walk))
          ∧ ∀ walk', is_walk (length (chain 3)) (chain_edges 3) s walk' v →
              (walk_cost isqrtQ (chain 3) 0 s walk
               <= walk_cost isqrtQ (chain 3) 0 s walk')%Q.
Proof.
  destruct (dijkstra_algorithm isqrtQ (chain 3) (chain_edges 3) 0) as [[d p]|] eqn:E;
    [|vm_compute in E; discriminate].
  destruct (dijkstra_shortest_walks isqrtQ (chain 3) (chain_edges 3) 0 d p
              isqrtQ_nonneg E) as (s & Hs & H).
  by exists d, p, s.
Defined.

Lemma dijkstra_predecessors_witness :
  ∃ d p s,
    dijkstra_algorithm isqrtQ (chain 3) (chain_edges 3) 0 = Ok (d, p)
    ∧ py_index (length (chain 3)) 0 = Ok s
    ∧ p !! s = Some (-1)
    ∧ ∀ v, (v < length (chain 3))%nat → v ≠ s →
        ∃ u, p !! v = Some (Z.of_nat u)
             ∧ (Z.of_nat u, Z.of_nat v) ∈ chain_edges 3
             ∧ dget d v = dist_add (dget d u) (edge_weight isqrtQ (chain 3) u v).
Proof.
  destruct (dijkstra_algorithm isqrtQ (chain 3) (chain_edges 3) 0) as [[d p]|] eqn:E;
    [|vm_compute in E; discriminate].
  destruct (dijkstra_predecessors isqrtQ (chain 3) (chain_edges 3) 0 d p E)
    as (s & Hs & _ & Hsrc & H).
  exists d, p, s. split_and!; [done..|].
  intros v Hv Hvs. destruct (H v Hv Hvs) as (u & ? & _ & ? & ?). by exists u.
Defined.

(** ** What the resampler returns *)

(** The path of 30 points resampled to one half, three cap points removed
    at each end. *)
Lemma resample_sampled_points_witness :
  ∃ sampled points' edges',
    (resample_points isqrtQ (chain 30) (chain_edges 30)
       {| inlet := [0]; outlets := [29] |} (1 # 2) 3).1
    = Ok (sampled, points', edges')
    ∧ Forall2 (λ i p, 0 ≤ i ∧ chain 30 !! Z.to_nat i = Some p) sampled points'
    ∧ StronglySorted Z.lt sampled.
Proof.
  destruct (resample_points isqrtQ (chain 30) (chain_edges 30)
              {| inlet := [0]; outlets := [29] |} (1 # 2) 3).1
    as [[[sampled points'] edges']|] eqn:E; [|vm_compute in E; discriminate].
  exists sampled, points', edges'. split; [done|].
  exact (resample_sampled_points isqrtQ (chain 30) (chain_edges 30)
           {| inlet := [0]; outlets := [29] |} (1 # 2) 3 sampled points' edges' E).
Defined.

Lemma resample_edges_valid_witness :
  ∃ sampled points' edges',
    (resample_points isqrtQ (chain 30) (chain_edges 30)
       {| inlet := [0]; outlets := [29] |} (1 # 2) 3).1
    = Ok (sampled, points', edges')
    ∧ edges' ≠ []
    ∧ ∀ e, e ∈ edges' →
        ∃ a b : nat, e = (Z.of_nat a, Z.of_nat b) ∧ a ≠ b
          ∧ (a < length points')%nat ∧ (b < length points')%nat.
Proof.
  destruct (resample_points isqrtQ (chain 30) (chain_edges 30)
              {| inlet := [0]; outlets := [29] |} (1 # 2) 3).1
    as [[[sampled points'] edges']|] eqn:E; [|vm_compute in E; discriminate].
  exists sampled, points', edges'. split_and!; [done| |].
  - intros ->. vm_compute in E. discriminate.
  - exact (resample_edges_valid isqrtQ (chain 30) (chain_edges 30)
             {| inlet := [0]; outlets := [29] |} (1 # 2) 3 sampled points' edges' E).
Defined.

(** The driver's loop on the path of 50 points: the first attempt raises,
    the second one is made with the outlet moved from 49 to 46. *)
Lemma retry_attempts_witness :
  ∃ calls r call,
    retry_loop isqrtQ 2 (chain 50) (chain_edges 50)
      {| inlet := [0]; outlets := [49] |} (8 # 100) 3 = (calls, r)
    ∧ calls !! 1%nat = Some call
    ∧ a_perc call = Nat.iter 1 (λ p, Qmin (p * 2) 1) (8 # 100)
    ∧ outlets (a_indices call) = (λ o, o - Z.of_nat 1 * Z.of_nat 3) <$> [49].
Proof.
  destruct (retry_loop isqrtQ 2 (chain 50) (chain_edges 50)
              {| inlet := [0]; outlets := [49] |} (8 # 100) 3) as [calls r] eqn:E.
  destruct (calls !! 1%nat) as [call|] eqn:E1.
  - exists calls, r, call.
    destruct (retry_attempts isqrtQ 2 (chain 50) (chain_edges 50)
                {| inlet := [0]; outlets := [49] |} (8 # 100) 3 calls r E 1%nat call E1)
      as (Hp & _ & Ho & _).
    by split_and!.
  - exfalso. vm_compute in E. injection E as <- _. discriminate.
Defined.

(** The path of 30 points: the outlet 29 is reported as 26, and point 26
    is kept. *)
Lemma resample_keeps_single_outlet_witness :
  ∃ sampled points' edges',
    (resample_points isqrtQ (chain 30) (chain_edges 30)
       {| inlet := [0]; outlets := [29] |} (1 # 2) 3).1
    = Ok (sampled, points', edges')
    ∧ 29 - Z.of_nat 3 ∈ sampled.
Proof.
  destruct (resample_points isqrtQ (chain 30) (chain_edges 30)
              {| inlet := [0]; outlets := [29] |} (1 # 2) 3).1
    as [[[sampled points'] edges']|] eqn:E; [|vm_compute in E; discriminate].
  exists sampled, points', edges'. split; [done|].
  destruct (resample_keeps_single_outlet isqrtQ isqrtQ_zero (chain 30) (chain_edges 30)
              {| inlet := [0]; outlets := [29] |} (1 # 2) 3 29 sampled points' edges')
    as [_ H]; [reflexivity|vm_compute; split; [discriminate|reflexivity]| | |exact E|exact H].
  - apply Forall_nonneg_edges. vm_compute. reflexivity.
  - intros i ->%list_elem_of_singleton. split; [lia|simpl; lia].
Defined.
(** Deleting point 1 of a chain of four points with replacement 2 returns;
    the conditions of [remove_points_returns_iff] hold there. *)
Lemma remove_points_returns_iff_witness :
  ∃ r, remove_points [1] [2] (chain_edges 4) 4 = Ok r.
Proof.
  apply (remove_points_returns_iff [1] [2] (chain_edges 4) 4); [simpl; lia|].
  split.
  - intros d ->%list_elem_of_singleton. lia.
  - assert (replayed_edges [1] [2] (chain_edges 4) = [(0, 2); (2, 3)]) as ->
      by (vm_compute; reflexivity).
    assert (∀ x, x = 0 ∨ x = 2 ∨ x = 3 → kept_point [1] 4 x) as Hk.
    { intros x Hx. unfold kept_point. rewrite !list_elem_of_singleton. lia. }
    intros e [->|[->|[]%elem_of_nil]%elem_of_cons]%elem_of_cons; split; apply Hk; simpl; lia.
Defined.

(** ** The boundary edges retained *)

(** The five-point path with its inlet and its outlet as boundary points. *)
Lemma boundary_edges_rows_witness :
  ∃ rows,
    generate_boundary_edges isqrtQ (chain 5) {| inlet := [0]; outlets := [4] |}
      (bidirected (chain_edges 5)) = Ok rows
    ∧ length rows = 3%nat
    ∧ ∀ r, r ∈ rows →
        b_src r ∈ [0; 4]
        ∧ (∀ index, index ∈ [0; 4] → py_index (length (chain 5)) index ≠ Ok (b_dst r))
        ∧ (∃ q, b_dist r = Fin q ∧ (tol12 <= q)%Q)
        ∧ b_type r = (if bool_decide (b_src r ∈ [0]) then 1 else 2).
Proof.
  destruct (generate_boundary_edges isqrtQ (chain 5) {| inlet := [0]; outlets := [4] |}
              (bidirected (chain_edges 5))) as [rows|] eqn:E;
    [|vm_compute in E; discriminate].
  exists rows. split_and!; [done| |].
  - vm_compute in E. by injection E as <-.
  - intros r Hr.
    destruct (boundary_edges_rows isqrtQ (chain 5) {| inlet := [0]; outlets := [4] |}
                (bidirected (chain_edges 5)) rows E r Hr) as (H1 & _ & H2 & H3 & H4).
    by split_and!.
Defined.

(** ** Junction edges and their endpoints *)

Lemma junction_edges_endpoints_witness :
  ∃ r e1 e2,
    create_junction_edges isqrtQ (chain 7) bif_one_junction
      (bidirected (chain_edges 7)) = Ok r
    ∧ j_edges1 r = e1 ++ e2 ∧ j_edges2 r = e2 ++ e1
    ∧ Forall2 (λ a b, recorded_inlet bif_one_junction a
                      ∧ junction_exit bif_one_junction b ∧ (a < b)%nat) e1 e2
    ∧ e2 = [4%nat].
Proof.
  destruct (create_junction_edges isqrtQ (chain 7) bif_one_junction
              (bidirected (chain_edges 7)))
    as [r|] eqn:E; [|vm_compute in E; discriminate].
  destruct (junction_edges_endpoints isqrtQ (chain 7) bif_one_junction
              (bidirected (chain_edges 7)) r E) as (e1 & e2 & H1 & H2 & H3 & _).
  exists r, e1, e2. split_and!; [done..|].
  vm_compute in E. injection E as <-. simpl in H1, H2.
  apply Forall2_length in H3.
  apply (f_equal length) in H1 as Hl. rewrite length_app in Hl. simpl in Hl.
  destruct e1 as [|a [|a' e1]], e2 as [|b [|b' e2]]; simpl in *; try lia.
  by simplify_eq.
Defined.

(** A vessel of four points that ends inside a junction. *)
Lemma junction_edges_wrap_around_witness :
  create_junction_edges isqrtQ (chain 4) [-1; -1; 0; 0] (bidirected (chain_edges 4))
  = Err KeyError.
Proof.
  apply (junction_edges_wrap_around isqrtQ (chain 4) [-1; -1; 0; 0]
           (bidirected (chain_edges 4)) 0); [reflexivity..|discriminate].
Defined.

Lemma junction_edge_features_witness :
  ∃ r a b pa pb d ps dd,
    create_junction_edges isqrtQ (chain 7) bif_one_junction
      (bidirected (chain_edges 7)) = Ok r
    ∧ j_edges1 r !! 0%nat = Some a ∧ j_edges2 r !! 0%nat = Some b
    ∧ chain 7 !! a = Some pa ∧ chain 7 !! b = Some pb
    ∧ dijkstra_algorithm isqrtQ (chain 7) (bidirected (chain_edges 7)) (Z.of_nat a)
      = Ok (d, ps)
    ∧ d !! b = Some dd
    ∧ j_rel_position r !! 0%nat = Some (vsub pb pa)
    ∧ j_distance r !! 0%nat = Some dd.
Proof.
  destruct (create_junction_edges isqrtQ (chain 7) bif_one_junction
              (bidirected (chain_edges 7)))
    as [r|] eqn:E; [|vm_compute in E; discriminate].
  destruct (j_edges1 r !! 0%nat) as [a|] eqn:Ha;
    [|exfalso; vm_compute in E; injection E as <-; discriminate].
  destruct (j_edges2 r !! 0%nat) as [b|] eqn:Hb;
    [|exfalso; vm_compute in E; injection E as <-; discriminate].
  destruct (junction_edge_features isqrtQ (chain 7) (bidirected (chain_edges 7))
              bif_one_junction r E 0%nat a b) as (pa & pb & d & ps & dd & H);
    [|done|done|].
  - assert (length (j_edges1 r) = 2%nat) as ->; [|simpl; lia].
    vm_compute in E. by injection E as <-.
  - exists r, a, b, pa, pb, d, ps, dd. destruct H as (? & ? & ? & ? & ? & ?).
    by split_and!.
Defined.

(** ** Partitions *)

(** The six-point path cut at point 3. *)
Lemma partitions_local_trees_witness :
  ∃ parts,
    create_partitions draw_three 100 (chain 6) (replicate 6 (-1)) (chain_edges 6) 2
    = Ok parts
    ∧ parts ≠ []
    ∧ ∀ part, part ∈ parts →
        (2 ≤ length (p_edges part))%nat
        ∧ length (p_sampling_indices part) = S (length (p_edges part))
        ∧ ∀ k a b, p_edges part !! k = Some (a, b) →
            b = S k
            ∧ ∃ x y, p_sampling_indices part !! a = Some x
                     ∧ p_sampling_indices part !! b = Some y
                     ∧ (x, y) ∈ chain_edges 6.
Proof.
  destruct (create_partitions draw_three 100 (chain 6) (replicate 6 (-1))
              (chain_edges 6) 2)
    as [parts|] eqn:E; [|vm_compute in E; discriminate].
  exists parts. split_and!; [done| |].
  - intros ->. vm_compute in E. discriminate.
  - intros part Hpart.
    destruct (partitions_local_trees draw_three 100 (chain 6) (replicate 6 (-1))
                (chain_edges 6) 2 parts E part Hpart) as (H1 & H2 & _ & H3).
    split_and!; [done..|]. intros k a b Hk.
    destruct (H3 k a b Hk) as (? & _ & ?). done.
Defined.

Lemma partitions_at_most_max_witness :
  ∃ parts inlets,
    create_partitions draw_three 100 (chain 6) (replicate 6 (-1)) (chain_edges 6) 2
    = Ok parts
    ∧ select_inlets draw_three 100 (replicate 6 (-1)) (chain_edges 6) 2 = Ok inlets
    ∧ head inlets = Some 0
    ∧ (length inlets ≤ 2)%nat ∧ (length parts ≤ length inlets)%nat.
Proof.
  destruct (create_partitions draw_three 100 (chain 6) (replicate 6 (-1))
              (chain_edges 6) 2)
    as [parts|] eqn:E; [|vm_compute in E; discriminate].
  destruct (partitions_at_most_max draw_three 100 (chain 6) (replicate 6 (-1))
              (chain_edges 6) 2 parts) as (inlets & H); [lia|exact E|].
  by exists parts, inlets.
Defined.

(** A vessel of four points that ends inside a junction. *)
Lemma partitions_last_junction_witness :
  create_partitions draw_three 100 (chain 4) [-1; -1; 0; 0] (chain_edges 4) 2
  = Err IndexError.
Proof.
  apply (partitions_last_junction draw_three 100 (chain 4) [-1; -1; 0; 0]
           (chain_edges 4) 2 0); [reflexivity|discriminate| |discriminate].
  intros [|[|[|[|i]]]] bi bn; simpl; intros; simplify_eq; done.
Defined.
(** On the chain of six points the rank [6 - x] falls along every edge. *)
Lemma create_partitions_terminates_witness :
  ∃ fuel0, ∀ fuel, (fuel0 ≤ fuel)%nat →
    (∀ root inlets, ∃ res, create_partition fuel (chain_edges 6) root inlets = Ok res)
    ∧ create_partitions draw_three fuel (chain 6) (replicate 6 (-1)) (chain_edges 6) 2
      ≠ Err NoFuel.
Proof.
  apply (create_partitions_terminates (λ x, Z.to_nat (6 - x))).
  apply (Forall_forall (λ e : Z * Z, (Z.to_nat (6 - e.2) < Z.to_nat (6 - e.1))%nat)).
  apply (bool_decide_unpack _). vm_compute. reflexivity.
Defined.

(** Points 1 and 2 form a cycle entered from the starting point 0. *)
Lemma create_partition_diverges_on_cycle_witness :
  create_partition 100 [(0, 1); (1, 2); (2, 1)] 0 [0] = Err NoFuel.
Proof.
  apply (create_partition_diverges_on_cycle (λ x, x = 1 ∨ x = 2)).
  - intros x [-> | ->].
    + split; [by intros ?%list_elem_of_singleton|].
      exists 2. split; [|by right]. right. by left.
    + split; [by intros ?%list_elem_of_singleton|].
      exists 1. split; [|by left]. right. right. by left.
  - exists 1. split; [by left|by left].
Defined.

(** ** Outlets, point types and the continuity mask *)

(** The seven-point path: its only outlet is its last point. *)
Lemma find_outlets_sinks_witness :
  find_outlets (chain_edges 7) = [6] ∧ NoDup (find_outlets (chain_edges 7)).
Proof.
  split; [reflexivity|].
  apply (find_outlets_sinks (chain_edges 7)).
  - apply (bool_decide_unpack _). vm_compute. reflexivity.
  - apply one_predecessor_check. vm_compute. reflexivity.
Defined.

(** The seven points with one junction, inlet 0 and outlet 6. *)
Lemma generate_types_spec_witness :
  ∃ rows inlet_mask outlet_mask,
    generate_types bif_one_junction {| inlet := [0]; outlets := [6] |}
    = Some (rows, inlet_mask, outlet_mask)
    ∧ length rows = length bif_one_junction
    ∧ inlet_mask !! 0%nat = Some true
    ∧ outlet_mask !! 6%nat = Some true.
Proof.
  destruct (generate_types bif_one_junction {| inlet := [0]; outlets := [6] |})
    as [[[rows inlet_mask] outlet_mask]|] eqn:E; [|vm_compute in E; discriminate].
  exists rows, inlet_mask, outlet_mask. split; [done|].
  destruct (generate_types_spec bif_one_junction {| inlet := [0]; outlets := [6] |})
    as [_ H].
  destruct (H rows inlet_mask outlet_mask E) as (Hlen & _ & _ & Hpoint).
  split; [done|]. split.
  - by destruct (Hpoint 0%nat (-1) eq_refl) as (-> & _).
  - by destruct (Hpoint 6%nat (-1) eq_refl) as (_ & -> & _).
Defined.

(** Seven ordinary points, inlet 0 and outlet 6. *)
Lemma continuity_mask_spec_witness :
  ∃ rows inlet_mask outlet_mask mask,
    generate_types (replicate 7 (-1)) {| inlet := [0]; outlets := [6] |}
    = Some (rows, inlet_mask, outlet_mask)
    ∧ create_continuity_mask rows = Ok mask
    ∧ length mask = Nat.max 2 (length (replicate 7 (-1)))
    ∧ mask = [0; 0; 1; 1; 1; 0; 0].
Proof.
  destruct (generate_types (replicate 7 (-1)) {| inlet := [0]; outlets := [6] |})
    as [[[rows inlet_mask] outlet_mask]|] eqn:E; [|vm_compute in E; discriminate].
  destruct (continuity_mask_spec (replicate 7 (-1)) {| inlet := [0]; outlets := [6] |}
              rows inlet_mask outlet_mask E) as (mask & Hmask & Hlen & _).
  exists rows, inlet_mask, outlet_mask, mask. split_and!; [done..|].
  vm_compute in E. injection E as <- _ _.
  vm_compute in Hmask. by injection Hmask as <-.
Defined.

(** ** Edge features of a bidirected edge list *)

Lemma edge_features_bidirected_witness :
  ∃ rel nrm,
    Features.generate_edge_features [(0, 0, 0); (3, 4, 0)]%R [(0, 1)] = Ok (rel, nrm)
    ∧ Features.generate_edge_features [(0, 0, 0); (3, 4, 0)]%R (bidirected [(0, 1)])
      = Ok (rel ++ (ropp <$> rel), nrm ++ nrm).
Proof.
  destruct (Features.generate_edge_features [(0, 0, 0); (3, 4, 0)]%R [(0, 1)])
    as [[rel nrm]|] eqn:E; [|cbv in E; discriminate].
  exists rel, nrm. split; [done|].
  exact (edge_features_bidirected [(0, 0, 0); (3, 4, 0)]%R [(0, 1)] rel nrm E).
Defined.

(** ** Field tensors *)

(** Three time steps on one node, every second one kept. *)
Lemma add_fields_shape_witness :
  ∃ r,
    add_fields 1 [(1, [20]); (2, [10]); (3, [5])]%Q 2 = Ok r
    ∧ length (f_field r) = 2%nat
    ∧ Forall (λ col, length col = 1%nat) (f_field r).
Proof.
  destruct (add_fields 1 [(1, [20]); (2, [10]); (3, [5])]%Q 2) as [r|] eqn:E;
    [|vm_compute in E; discriminate].
  exists r. split; [done|].
  destruct (add_fields_shape 1 [(1, [20]); (2, [10]); (3, [5])]%Q 2) as [_ H].
  destruct (H r E) as (_ & Hlen & Hcols & _). by split.
Defined.

(** ** Rescaling the time steps *)

(** Two time steps, rescaled by a thousandth. *)
Lemma rescale_time_moves_entries_witness :
  rescale_time (1 # 1000) [(1, 10); (2, 20)]%Q [(1, 30); (2, 40)]%Q
  = Ok ([(1 * (1 # 1000), 10); (2 * (1 # 1000), 20)]%Q,
        [(1 * (1 # 1000), 30); (2 * (1 # 1000), 40)]%Q).
Proof.
  apply (rescale_time_moves_entries (V:=Q) (1 # 1000) [(1, 10); (2, 20)]%Q
           [(1, 30); (2, 40)]%Q).
  - intros H. vm_compute in H. discriminate.
  - simpl. split; [|split; [|done]].
    + intros k' ->%list_elem_of_singleton H. vm_compute in H. discriminate.
    + intros k' Hk'. by apply elem_of_nil in Hk'.
  - reflexivity.
  - intros t k [->|[->|[]%elem_of_nil]%elem_of_cons]%elem_of_cons
             [->|[->|[]%elem_of_nil]%elem_of_cons]%elem_of_cons H;
      vm_compute in H; discriminate.
Defined.

(** Time steps 0 and 1, rescaled by one half: the entry of time 0 is
    lost. *)
Lemma rescale_time_loses_fixed_keys_witness :
  ∃ pressure' flowrate',
    rescale_time (1 # 2) [(0, 10); (1, 20)]%Q [(0, 30); (1, 40)]%Q
    = Ok (pressure', flowrate')
    ∧ fdict_get pressure' 0 = None ∧ fdict_get flowrate' 0 = None
    ∧ length pressure' = 1%nat.
Proof.
  destruct (rescale_time_loses_fixed_keys (V:=Q) (1 # 2) [(0, 10); (1, 20)]%Q
              [(0, 30); (1, 40)]%Q eq_refl) as [_ H].
  destruct (H ltac:(intros H0; vm_compute in H0; discriminate)) with (t0 := 0%Q)
    as (p' & f' & Hr & Hp & Hf).
  - simpl. split; [|split; [|done]].
    + intros k' ->%list_elem_of_singleton H0. vm_compute in H0. discriminate.
    + intros k' Hk'. by apply elem_of_nil in Hk'.
  - by left.
  - reflexivity.
  - exists p', f'. split_and!; [done..|].
    vm_compute in Hr. by injection Hr as <- _.
Defined.
